(** * Job manager and task queue of go-centrifuge: a shallow embedding

    Sources embedded here:
    - [jobs/jobsv1/manager.go]  (package jobsv1: the job manager)
    - the queue server file      (package queue: [Server], [EnqueueJob])

    Packages [jobs], [errors], [notification], [identity] and the Go
    standard library are imported by these files but are not part of the
    sources; what the manager needs from them is modelled in the first
    modules below, each definition saying where it comes from. *)

From Stdlib Require Import ZArith NArith Lia Ascii String HexString.
From stdpp Require Import base option list gmap strings.

Open Scope string_scope.
Open Scope list_scope.

(** ** Strings *)

Module Str.

(** [strings.HasPrefix(s, p)]. *)
Fixpoint has_prefix (p s : string) : bool :=
  match p, s with
  | EmptyString, _ => true
  | String a p', String b s' => Ascii.eqb a b && has_prefix p' s'
  | String _ _, EmptyString => false
  end.

(** [strings.Contains(hay, needle)]. *)
Fixpoint contains (needle hay : string) : bool :=
  has_prefix needle hay ||
  match hay with
  | EmptyString => false
  | String _ rest => contains needle rest
  end.

Definition quote : string := String (ascii_of_nat 34) EmptyString.

(** [strings.Join(l, sep)]. *)
Fixpoint join (sep : string) (l : list string) : string :=
  match l with
  | [] => ""
  | [x] => x
  | x :: rest => x +:+ sep +:+ join sep rest
  end.

End Str.

(** ** Package fmt (Go standard library) *)

Module Fmt.

Definition is_flag (c : ascii) : bool :=
  match c with
  | "#"%char | "0"%char | "+"%char | "-"%char | " "%char => true
  | _ => false
  end.

Definition is_digit (c : ascii) : bool :=
  let n := nat_of_ascii c in (48 <=? n)%nat && (n <=? 57)%nat.

Fixpoint skip (p : ascii -> bool) (s : string) : string :=
  match s with
  | String c rest => if p c then skip p rest else s
  | EmptyString => s
  end.

(** The text between a percent sign and its verb, for a call without
    operands: flags, then a decimal width, then an optional precision.
    This is what the library does for directives made of flags, a width
    and a precision of a few digits, and a verb of one byte.  Star widths,
    bracketed operand indexes, numbers of more than seven digits and verbs
    beyond ASCII have diagnostics of their own in the library; here a star
    or a bracket in that position is taken as the verb. *)
Definition skip_directive (s : string) : string :=
  let s := skip is_digit (skip is_flag s) in
  match s with
  | String "."%char rest => skip is_digit rest
  | _ => s
  end.

(** Modelled from the Go standard library: [fmt.Sprintf(format)] and
    [fmt.Errorf(format)] called with a format and NO operands, as
    [ExecuteWithinJob] does.  Plain text is copied; a doubled percent sign
    gives one percent sign; any other verb finds no operand and is
    rendered as [%!v(MISSING)]; a percent sign that ends the format is
    rendered as [%!(NOVERB)]. *)
Fixpoint format0 (fuel : nat) (s : string) : string :=
  match fuel with
  | O => ""
  | S fuel =>
      match s with
      | EmptyString => ""
      | String "%"%char rest =>
          match skip_directive rest with
          | EmptyString => "%!(NOVERB)"
          | String "%"%char rest' => String "%"%char (format0 fuel rest')
          | String verb rest' =>
              "%!" +:+ String verb "(MISSING)" +:+ format0 fuel rest'
          end
      | String c rest => String c (format0 fuel rest)
      end
  end.

Definition Sprintf0 (format : string) : string :=
  format0 (S (String.length format)) format.

End Fmt.

(** ** Package time (Go standard library) *)

Module Time.

(** A [time.Time]: an instant (nanoseconds since the epoch) shown in a
    location (offset from UTC, in seconds). *)
Record Time := mkTime { instant : Z; offset : Z }.

(** A [time.Duration] (nanoseconds). *)
Definition Duration := Z.

Definition UTC (t : Time) : Time := mkTime (instant t) 0.

Definition Add (t : Time) (d : Duration) : Time :=
  mkTime (instant t + d) (offset t).

Definition Millisecond : Duration := 1000000%Z.

End Time.

(** ** Package errors (go-centrifuge) *)

Module Errors.

(** An error value; [ErrList] is the list error built by [AppendError]. *)
Inductive Error :=
| ErrNew (msg : string)
| ErrList (msgs : list string).

(** The Go interface type [error]: [None] is [nil]. *)
Definition error := option Error.

(** [e.Error()]. *)
Definition Text (e : Error) : string :=
  match e with
  | ErrNew msg => msg
  | ErrList msgs => "[" +:+ Str.join "; " msgs +:+ "]"
  end.

Definition parts (e : error) : list string :=
  match e with
  | None => []
  | Some (ErrNew msg) => [msg]
  | Some (ErrList msgs) => msgs
  end.

(** Modelled from the spec: [errors.AppendError(dst, src)], which the
    manager uses to combine the work function's error with a repository
    error (the package is not part of the sources).  A nil [src] gives
    [dst] back; otherwise the result is a list error holding the texts
    of both. *)
Definition AppendError (dst src : error) : error :=
  match src with
  | None => dst
  | Some _ => Some (ErrList (parts dst ++ parts src))
  end.

End Errors.

(** ** Package jobs (go-centrifuge): the data model *)

Module Jobs.
Import Time Errors.

(** Modelled from the spec: an opaque 128-bit identifier, whose zero
    value is the nil job id. *)
Definition JobID := N.
Definition NilJobID : JobID := 0%N.
Definition JobIDEqual (a b : JobID) : bool := (a =? b)%N.
Definition JobID_String (id : JobID) : string := HexString.of_N id.

(** Modelled from the spec: the owning account identifier. *)
Definition DID := N.
Definition DID_String (d : DID) : string := HexString.of_N d.

(** Modelled from the spec: [Status], enum of Pending, Success, Failed;
    the source converts it to and from [string]. *)
Inductive Status := Pending | Success | Failed.

Definition Status_string (s : Status) : string :=
  match s with
  | Pending => "pending"
  | Success => "success"
  | Failed => "failed"
  end.

Record Log := mkLog {
  TaskName : string;
  Message : string;
  LogCreatedAt : Time }.

Record JobValue := mkJobValue {
  Key : string;
  Value : list Byte.byte }.

Record Job := mkJob {
  ID : JobID;
  jDID : DID;
  Description : string;
  jStatus : Status;
  TaskStatus : gmap string Status;
  Values : gmap string JobValue;
  Logs : list Log;
  CreatedAt : Time }.

Definition setStatus (st : Status) (j : Job) : Job :=
  mkJob (ID j) (jDID j) (Description j) st (TaskStatus j) (Values j)
        (Logs j) (CreatedAt j).

Definition setTaskStatus (ts : gmap string Status) (j : Job) : Job :=
  mkJob (ID j) (jDID j) (Description j) (jStatus j) ts (Values j)
        (Logs j) (CreatedAt j).

Definition setValues (vs : gmap string JobValue) (j : Job) : Job :=
  mkJob (ID j) (jDID j) (Description j) (jStatus j) (TaskStatus j) vs
        (Logs j) (CreatedAt j).

Definition setLogs (ls : list Log) (j : Job) : Job :=
  mkJob (ID j) (jDID j) (Description j) (jStatus j) (TaskStatus j)
        (Values j) ls (CreatedAt j).

Record StatusResponse := mkStatusResponse {
  rJobID : string;
  rStatus : string;
  rMessage : string;
  rLastUpdated : Time }.

(** [jobs.Status(resp.Status)]: back from the string. *)
Definition Status_of_string (s : string) : option Status :=
  if String.eqb s "failed" then Some Failed
  else if String.eqb s "success" then Some Success
  else if String.eqb s "pending" then Some Pending
  else None.

End Jobs.

(** ** Package notification (go-centrifuge) *)

Module Notification.
Import Time.

Inductive EventType := JobCompleted.

Record Message := mkMessage {
  mEventType : EventType;
  mAccountID : string;
  mRecorded : Time;
  mDocumentType : string;
  mDocumentID : string;
  mStatus : string;
  mMessage : string }.

End Notification.

(** ** Package jobsv1: the world the manager runs in *)

Module JobsV1.
Import Time Errors Jobs.

(** A Go [(T, error)] pair of results. *)
Inductive result (A : Type) :=
| Ok (a : A)
| Err (e : Error).
Arguments Ok {A} a.
Arguments Err {A} e.

(** A channel of errors: [make(chan error, cap)]. *)
Record Chan := mkChan { cap : nat; buf : list error }.

(** What a work function does, as far as the manager can see it: calls
    of manager operations on its own job, then one value sent on the
    error channel it was given ([report = None]: it never sends). *)
Inductive WorkOp :=
| OpUpdateTaskStatus (status : Status) (taskName message : string)
| OpUpdateJobWithValue (key : string) (value : list Byte.byte).

Record WorkFn := mkWork { ops : list WorkOp; report : option error }.

(** The variables captured by the goroutine of [ExecuteWithinJob]. *)
Record Call := mkCall {
  ctx : nat;
  accountID : DID;
  existingJobID : JobID;
  desc : string;
  job : Job;
  done : nat }.

Inductive Goroutine :=
| GSupervise (c : Call) (work : WorkFn)
    (* [go func(ctx) { ... }(ctx)], not started yet *)
| GSelect (c : Call) (err : nat)
    (* the same goroutine, parked in its first [select] *)
| GWork (acc : DID) (txID : JobID) (err : nat) (work : WorkFn)
    (* [go work(accountID, job.ID, s, err)] *)
| GSend (err : nat) (e : error)
    (* a work function parked in [err <- e] *)
| GExit.

Record World := mkWorld {
  store : gmap (DID * JobID) Job;      (* the repository's records *)
  save_faults : list error;            (* results of the coming Save calls *)
  clock : Time;                        (* time.Now() *)
  uuids : nat -> JobID;                (* results of jobs.NewJobID() *)
  drawn : nat;                         (* how many were drawn *)
  logged : list string;                (* lines written to the logger *)
  sent : list Notification.Message;    (* messages handed to the Sender *)
  send_faults : list error;            (* results of the coming Send calls *)
  chans : list Chan;                   (* channels made so far *)
  pool : list Goroutine;               (* goroutines started so far *)
  cancelled : list nat }.              (* contexts that are done *)

Definition set_repo (st : gmap (DID * JobID) Job) (f : list error)
    (w : World) : World :=
  mkWorld st f (clock w) (uuids w) (drawn w) (logged w) (sent w)
          (send_faults w) (chans w) (pool w) (cancelled w).

Definition set_clock (t : Time) (w : World) : World :=
  mkWorld (store w) (save_faults w) t (uuids w) (drawn w) (logged w)
          (sent w) (send_faults w) (chans w) (pool w) (cancelled w).

Definition set_drawn (n : nat) (w : World) : World :=
  mkWorld (store w) (save_faults w) (clock w) (uuids w) n (logged w)
          (sent w) (send_faults w) (chans w) (pool w) (cancelled w).

Definition set_logged (l : list string) (w : World) : World :=
  mkWorld (store w) (save_faults w) (clock w) (uuids w) (drawn w) l
          (sent w) (send_faults w) (chans w) (pool w) (cancelled w).

Definition set_sender (m : list Notification.Message) (f : list error)
    (w : World) : World :=
  mkWorld (store w) (save_faults w) (clock w) (uuids w) (drawn w)
          (logged w) m f (chans w) (pool w) (cancelled w).

Definition set_chans (cs : list Chan) (w : World) : World :=
  mkWorld (store w) (save_faults w) (clock w) (uuids w) (drawn w)
          (logged w) (sent w) (send_faults w) cs (pool w) (cancelled w).

Definition set_pool (p : list Goroutine) (w : World) : World :=
  mkWorld (store w) (save_faults w) (clock w) (uuids w) (drawn w)
          (logged w) (sent w) (send_faults w) (chans w) p (cancelled w).

Definition set_cancelled (cs : list nat) (w : World) : World :=
  mkWorld (store w) (save_faults w) (clock w) (uuids w) (drawn w)
          (logged w) (sent w) (send_faults w) (chans w) (pool w) cs.

(** *** The state monad of manager code *)

Definition M (A : Type) : Type := World -> A * World.

Definition ret {A} (a : A) : M A := fun w => (a, w).

Definition bind {A B} (m : M A) (k : A -> M B) : M B :=
  fun w => let (a, w') := m w in k a w'.

Notation "'do' x <- m ; k" := (bind m (fun x => k))
  (at level 10, x name, m at level 100, k at level 200, only parsing).

Definition run {A} (m : M A) (w : World) : World := snd (m w).
Definition value {A} (m : M A) (w : World) : A := fst (m w).

(** *** Collaborators *)

Definition ErrNotFound : Error := ErrNew "job not found".

(** Modelled from the spec: the Job Repository,
    [Get(accountID, jobID) -> Job | NotFound].  The job it gives is a copy
    of the record, as a store that keeps its records serialised gives:
    changing it changes nothing in the repository until it is saved. *)
Definition repo_Get (acc : DID) (id : JobID) : M (result Job) :=
  fun w =>
    match store w !! (acc, id) with
    | Some j => (Ok j, w)
    | None => (Err ErrNotFound, w)
    end.

(** Modelled from the spec: the Job Repository,
    [Save(job) -> ok | error], an upsert of the full record under the
    job's own account and id.  Whether a call fails is read from
    [save_faults]; a failed call stores nothing. *)
Definition repo_Save (j : Job) : M error :=
  fun w =>
    match save_faults w with
    | Some e :: later => (Some e, set_repo (store w) later w)
    | None :: later =>
        (None, set_repo (<[(jDID j, ID j) := j]> (store w)) later w)
    | [] => (None, set_repo (<[(jDID j, ID j) := j]> (store w)) [] w)
    end.

(** Modelled from the spec: the Notification Sender,
    [Send(ctx, message) -> (result, error)]. *)
Definition notifier_Send (m : Notification.Message) : M error :=
  fun w =>
    match send_faults w with
    | e :: later => (e, set_sender (sent w ++ [m]) later w)
    | [] => (None, set_sender (sent w ++ [m]) [] w)
    end.

Definition show (e : error) : string :=
  match e with
  | None => "<nil>"
  | Some e => Text e
  end.

(** The logger: one line per call (the layout of a line is of no
    consequence below). *)
Definition log_line (line : string) : M unit :=
  fun w => (tt, set_logged (logged w ++ [line]) w).

Definition log_Error (args : list error) : M unit :=
  log_line (Str.join " " (map show args)).

Definition Now : M Time := fun w => (clock w, w).

Definition NewJobID : M JobID :=
  fun w => (uuids w (drawn w), set_drawn (S (drawn w)) w).

(** Modelled from the spec: [jobs.NewJob], a Pending job with a new id,
    no task status, no values and no logs. *)
Definition NewJob (acc : DID) (description : string) : M Job :=
  do id <- NewJobID;
  do t <- Now;
  ret (mkJob id acc description Pending ∅ ∅ [] (UTC t)).

(** Modelled from the spec: [jobs.NewLog], a log entry stamped now. *)
Definition NewLog (action message : string) : M Log :=
  do t <- Now;
  ret (mkLog action message (UTC t)).

(** *** manager.go *)

Definition managerLogPrefix : string := "manager".

(** [saveJob] saves the transaction. *)
Definition saveJob (tx : Job) : M error :=
  do err <- repo_Save tx;
  match err with
  | Some e => ret (Some e)
  | None => ret None
  end.

(** [GetJob] returns the job associated with identity and id. *)
Definition GetJob (acc : DID) (id : JobID) : M (result Job) :=
  repo_Get acc id.

Definition UpdateJobWithValue (acc : DID) (id : JobID) (key : string)
    (value : list Byte.byte) : M error :=
  do r <- GetJob acc id;
  match r with
  | Err err => ret (Some err)
  | Ok tx =>
      saveJob (setValues (<[key := mkJobValue key value]> (Values tx)) tx)
  end.

Definition UpdateTaskStatus (acc : DID) (id : JobID) (status : Status)
    (taskName message : string) : M error :=
  do r <- GetJob acc id;
  match r with
  | Err err => ret (Some err)
  | Ok tx =>
      (* status particular to the task *)
      let tx := setTaskStatus (<[taskName := status]> (TaskStatus tx)) tx in
      do l <- NewLog taskName message;
      let tx := setLogs (Logs tx ++ [l]) tx in
      saveJob tx
  end.

(** [GetJobStatus] returns the job status associated with identity and
    id. *)
Definition GetJobStatus (acc : DID) (id : JobID) : M (result StatusResponse) :=
  do r <- GetJob acc id;
  match r with
  | Err err => ret (Err err)
  | Ok job =>
      let '(msg, lastUpdated) :=
        match last (Logs job) with
        | Some log => (Message log, UTC (LogCreatedAt log))
        | None => ("", UTC (CreatedAt job))
        end in
      ret (Ok (mkStatusResponse (JobID_String (ID job))
                 (Status_string (jStatus job)) msg lastUpdated))
  end.

(** [errors.New("job failed: %v", resp.Message)]. *)
Definition job_failed (message : string) : Error :=
  ErrNew ("job failed: " +:+ message).

Inductive Poll :=
| Return (e : error)
| Sleep.

(** One turn of the loop of [WaitForJob]. *)
Definition WaitForJob_poll (acc : DID) (txID : JobID) (w : World) : Poll :=
  match value (GetJobStatus acc txID) w with
  | Err err => Return (Some err)
  | Ok resp =>
      match Status_of_string (rStatus resp) with
      | Some Failed => Return (Some (job_failed (rMessage resp)))
      | Some Success => Return None
      | _ => Sleep
      end
  end.

(** [WaitForJob] blocks until the job status is moved from pending
    state.  The loop has no exit of its own; between two turns it sleeps
    10ms while the rest of the program runs.  [polls] lists the worlds
    the successive turns find; the result is [None] while the loop is
    still going after all of them. *)
Fixpoint WaitForJob (acc : DID) (txID : JobID) (polls : list World)
    : option error :=
  match polls with
  | [] => None
  | w :: later =>
      match WaitForJob_poll acc txID w with
      | Return e => Some e
      | Sleep => WaitForJob acc txID later
      end
  end.

Definition WaitForJob_sleep : Duration := (10 * Millisecond)%Z.

(** *** ExecuteWithinJob *)

(** [make(chan error, n)]: the new channel's place in [chans]. *)
Definition make_chan (n : nat) : M nat :=
  fun w => (length (chans w), set_chans (chans w ++ [mkChan n []]) w).

(** A [go] statement. *)
Definition go (g : Goroutine) : M unit :=
  fun w => (tt, set_pool (pool w ++ [g]) w).

(** [ExecuteWithinJob] executes a task within a Job: the part that runs
    before it returns.  The results are [txID], [done] ([None] is the nil
    channel) and [err]. *)
Definition ExecuteWithinJob (ctx : nat) (acc : DID) (existingJobID : JobID)
    (desc : string) (work : WorkFn) : M (JobID * option nat * error) :=
  do r <- repo_Get acc existingJobID;
  do created <-
    match r with
    | Ok job => ret (Ok job)
    | Err _ =>
        do job <- NewJob acc desc;
        do err <- saveJob job;
        match err with
        | Some e => ret (Err e)
        | None => ret (Ok job)
        end
    end;
  match created with
  | Err e => ret (NilJobID, None, Some e)
  | Ok job =>
      (* set capacity to one so that any late listener won't block this
         routine. *)
      do done <- make_chan 1;
      do _ <- go (GSupervise (mkCall ctx acc existingJobID desc job done) work);
      ret (ID job, Some done, None)
  end.

(** Which case of the first [select] fired. *)
Inductive Signal :=
| Reported (e : error)     (* [case e := <-err] *)
| CtxDone.                 (* [case <-ctx.Done()] *)

Definition context_close_msg (job : Job) : string :=
  "Job " +:+ JobID_String (ID job) +:+ " for account " +:+
  DID_String (jDID job) +:+ " with description " +:+ Str.quote +:+
  Description job +:+ Str.quote +:+
  " is stopped because of context close".

(** The chosen case of the first [select]; the results are [doneErr] and
    [mJob] ([None] is the nil pointer). *)
Definition finalize (c : Call) (sig : Signal) : M (error * option Job) :=
  match sig with
  | Reported e =>
      do r <- repo_Get (accountID c) (ID (job c));
      match r with
      | Err err =>
          do _ <- log_Error [e; Some err];
          ret (AppendError e (Some err), None)
      | Ok tempJob =>
          (* update job success status only if this wasn't an existing
             job. *)
          do changed <-
            match e with
            | None =>
                if JobIDEqual (existingJobID c) NilJobID
                then ret (None, setStatus Success tempJob)
                else ret (None, tempJob)
            | Some e' =>
                do _ <- log_Error [e];
                let action := managerLogPrefix +:+ "[" +:+ desc c +:+ "]" in
                let doneErr :=
                  ErrNew (Fmt.Sprintf0 (action +:+ " " +:+ Text e')) in
                do l <- NewLog action (Text e');
                ret (Some doneErr,
                     setStatus Failed (setLogs (Logs tempJob ++ [l]) tempJob))
            end;
          let '(doneErr, tempJob) := changed in
          do es <- saveJob tempJob;
          do doneErr <-
            match es with
            | Some _ =>
                do _ <- log_Error [e; es];
                ret (AppendError e es)
            | None => ret doneErr
            end;
          ret (doneErr, Some tempJob)
      end
  | CtxDone =>
      let msg := context_close_msg (job c) in
      do _ <- log_line (Fmt.Sprintf0 msg);
      do r <- repo_Get (accountID c) (ID (job c));
      match r with
      | Err err =>
          do _ <- log_Error [Some err];
          ret (Some err, None)
      | Ok tempJob =>
          do l <- NewLog "context closed" msg;
          let tempJob := setLogs (Logs tempJob ++ [l]) tempJob in
          do e <- saveJob tempJob;
          do doneErr <-
            match e with
            | Some _ => do _ <- log_Error [e]; ret e
            | None => ret None
            end;
          ret (doneErr, Some tempJob)
      end
  end.

Definition capacity_breach : string := "job done channel capacity breach".

(** The second [select]: a non blocking send on [done]. *)
Definition send_done (done : nat) (doneErr : error) : M unit :=
  fun w =>
    match chans w !! done with
    | Some ch =>
        if (length (buf ch) <? cap ch)%nat
        then (tt, set_chans
                    (<[done := mkChan (cap ch) (buf ch ++ [doneErr])]> (chans w)) w)
        else log_line capacity_breach w          (* must not happen *)
    | None => log_line capacity_breach w
    end.

(** Modelled from the spec: the type tag of a job notification. *)
Definition JobDataTypeURL : string := "http://github.com/centrifuge/go-centrifuge/jobs/#Job".

(** The job notification webhook. *)
Definition notify (c : Call) (mJob : option Job) : M unit :=
  match mJob with
  | Some mJob =>
      if JobIDEqual (existingJobID c) NilJobID then
        do t <- Now;
        let message :=
          match last (Logs mJob) with
          | Some l => Message l
          | None => ""
          end in
        let notificationMsg :=
          Notification.mkMessage Notification.JobCompleted
            (DID_String (accountID c)) (UTC t) JobDataTypeURL
            (JobID_String (ID mJob)) (Status_string (jStatus mJob))
            message in
        do err <- notifier_Send notificationMsg;
        match err with
        | Some _ => log_Error [err]
        | None => ret tt
        end
      else ret tt
  | None => ret tt
  end.

(** The goroutine of [ExecuteWithinJob] from the moment its first
    [select] fires until it ends. *)
Definition supervise (c : Call) (sig : Signal) : M unit :=
  do r <- finalize c sig;
  let '(doneErr, mJob) := r in
  do _ <- send_done (done c) doneErr;
  notify c mJob.

(** *** Goroutines and their scheduling *)

(** A receive [<-ch] by whoever holds the channel [ExecuteWithinJob]
    returned: [None] when the receive cannot proceed, which on the nil
    channel is always. *)
Definition recv (ch : option nat) (w : World) : option (error * World) :=
  match ch with
  | None => None
  | Some n =>
      match chans w !! n with
      | Some (mkChan k (v :: later)) =>
          Some (v, set_chans (<[n := mkChan k later]> (chans w)) w)
      | _ => None
      end
  end.

Definition work_op (acc : DID) (txID : JobID) (op : WorkOp) : M error :=
  match op with
  | OpUpdateTaskStatus status taskName message =>
      UpdateTaskStatus acc txID status taskName message
  | OpUpdateJobWithValue key value =>
      UpdateJobWithValue acc txID key value
  end.

(** What can happen next in the program.  The repository is reached
    through the manager only, which never deletes a record. *)
Inductive Action :=
| ACall (ctx : nat) (acc : DID) (existingJobID : JobID) (desc : string)
        (work : WorkFn)                  (* somebody calls ExecuteWithinJob *)
| AUpdateTaskStatus (acc : DID) (id : JobID) (status : Status)
        (taskName message : string)      (* somebody calls UpdateTaskStatus *)
| AUpdateJobWithValue (acc : DID) (id : JobID) (key : string)
        (value : list Byte.byte)         (* somebody calls UpdateJobWithValue *)
| ACancel (ctx : nat)                    (* a context is cancelled *)
| ATick (t : Time)                       (* time passes *)
| AStart (i : nat)    (* goroutine i makes err, starts work, reaches select *)
| AWork (i : nat)     (* work function i does its next operation *)
| ARecv (i j : nat)   (* select of i receives what j is sending on err *)
| ACtxDone (i : nat)  (* select of i takes the ctx.Done() case *)
| ARecvDone (ch : nat).                  (* somebody receives from done *)

Definition set_goroutine (i : nat) (g : Goroutine) : M unit :=
  fun w => (tt, set_pool (<[i := g]> (pool w)) w).

(** One scheduling step; [None] when the action cannot happen in [w].
    An operation of the manager runs here from its load to its save with
    nothing in between; the schedules in which other saves come between
    the two are those of [Interleaving.move]. *)
Definition step (a : Action) (w : World) : option World :=
  match a with
  | ACall ctx acc existingJobID desc work =>
      Some (run (ExecuteWithinJob ctx acc existingJobID desc work) w)
  | AUpdateTaskStatus acc id status taskName message =>
      Some (run (UpdateTaskStatus acc id status taskName message) w)
  | AUpdateJobWithValue acc id key value =>
      Some (run (UpdateJobWithValue acc id key value) w)
  | ACancel ctx => Some (set_cancelled (ctx :: cancelled w) w)
  | ATick t => Some (set_clock t w)
  | AStart i =>
      match pool w !! i with
      | Some (GSupervise c work) =>
          Some (run (do err <- make_chan 0;
                     do _ <- go (GWork (accountID c) (ID (job c)) err work);
                     set_goroutine i (GSelect c err)) w)
      | _ => None
      end
  | AWork i =>
      match pool w !! i with
      | Some (GWork acc txID err (mkWork (op :: later) rep)) =>
          Some (run (do _ <- work_op acc txID op;
                     set_goroutine i (GWork acc txID err (mkWork later rep))) w)
      | Some (GWork acc txID err (mkWork [] (Some e))) =>
          Some (run (set_goroutine i (GSend err e)) w)
      | _ => None
      end
  | ARecv i j =>
      match pool w !! i, pool w !! j with
      | Some (GSelect c err), Some (GSend err' e) =>
          if (err =? err')%nat
          then Some (run (do _ <- set_goroutine j GExit;
                          do _ <- supervise c (Reported e);
                          set_goroutine i GExit) w)
          else None
      | _, _ => None
      end
  | ACtxDone i =>
      match pool w !! i with
      | Some (GSelect c err) =>
          if bool_decide (ctx c ∈ cancelled w)
          then Some (run (do _ <- supervise c CtxDone;
                          set_goroutine i GExit) w)
          else None
      | _ => None
      end
  | ARecvDone ch => snd <$> recv (Some ch) w
  end.

(** A run of the program: the actions of [acts], one after the other. *)
Fixpoint steps (acts : list Action) (w : World) : option World :=
  match acts with
  | [] => Some w
  | a :: later =>
      match step a w with
      | Some w' => steps later w'
      | None => None
      end
  end.

(** Records are kept under their own account and id. *)
Definition well_keyed (st : gmap (DID * JobID) Job) : Prop :=
  forall acc id j, st !! (acc, id) = Some j -> jDID j = acc /\ ID j = id.

(** The program starts with a repository of any content, no goroutine
    and no channel. *)
Definition initial (w : World) : Prop :=
  well_keyed (store w) /\ pool w = [] /\ chans w = [].

Inductive reachable : World -> Prop :=
| reach_initial w : initial w -> reachable w
| reach_step a w w' : reachable w -> step a w = Some w' -> reachable w'.

End JobsV1.

(** ** Package queue: the task queue server *)

Module Queue.
Import Time Errors.

(** The [Config] interface, as the values its getters return. *)
Record Config := mkConfig {
  GetNumWorkers : Z;
  GetWorkerWaitTimeMS : Z;
  GetTaskValidDuration : Duration }.

(** A value of type [interface{}] in a parameter bag. *)
Inductive Any :=
| AString (s : string)
| AFloat64 (bits : Z)
| AInt (n : Z)
| ABool (b : bool).

(** [gocelery.TaskSettings]: the deadline, and the fields
    [gocelery.DefaultSettings()] fills in, which this package never
    touches. *)
Record TaskSettings (Defaults : Type) := mkSettings {
  ValidUntil : Time;
  others : Defaults }.
Arguments mkSettings {Defaults} _ _.
Arguments ValidUntil {Defaults} _.
Arguments others {Defaults} _.

Record Task (Defaults : Type) := mkTask {
  Name : string;
  Kwargs : gmap string Any;
  Settings : TaskSettings Defaults }.
Arguments mkTask {Defaults} _ _ _.
Arguments Name {Defaults} _.
Arguments Kwargs {Defaults} _.
Arguments Settings {Defaults} _.

(** A [sync.RWMutex]. *)
Record RWMutex := mkLock { writer : bool; readers : nat }.

(** [RLock], when it can proceed ([None]: a writer holds the lock). *)
Definition RLock (l : RWMutex) : option RWMutex :=
  if writer l then None else Some (mkLock false (S (readers l))).

Definition RUnlock (l : RWMutex) : RWMutex :=
  mkLock (writer l) (Nat.pred (readers l)).

(** [Lock], when it can proceed. *)
Definition Lock (l : RWMutex) : option RWMutex :=
  if writer l then None
  else match readers l with
       | O => Some (mkLock true O)
       | S _ => None
       end.

Definition Unlock (l : RWMutex) : RWMutex := mkLock false (readers l).

Section WithBroker.

(** The broker client of gocelery is not part of the sources: its
    state, what [Delay] does with a task, and the settings
    [DefaultSettings()] returns are parameters. *)
Context {Defaults CeleryClient AsyncResult : Type}.
Variable DefaultSettings : TaskSettings Defaults.
Variable Delay :
  CeleryClient -> Task Defaults ->
  CeleryClient * (AsyncResult + Error).
Variable Register : CeleryClient -> string -> CeleryClient.
Variable StartWorker : CeleryClient -> CeleryClient.

(** [Server] represents the queue server. *)
Record Server := mkServer {
  config : Config;
  lock : RWMutex;
  queue : option CeleryClient;         (* [None] is the nil pointer *)
  taskTypes : list string }.           (* each given by its TaskTypeName() *)

Definition not_initialised : Error :=
  ErrNew "queue hasn't been initialised".

(** What a call on the server comes to. *)
Inductive Outcome (A : Type) :=
| Blocked                              (* parked at the lock *)
| Returned (a : A) (qs : Server)
| Panicked (qs : Server).              (* the deferred calls have run *)
Arguments Blocked {A}.
Arguments Returned {A} a qs.
Arguments Panicked {A} qs.

Definition enqueueJob (name : string) (params : gmap string Any)
    (settings : TaskSettings Defaults) (qs : Server)
    : (AsyncResult + Error) * Server :=
  match queue qs with
  | None => (inr not_initialised, qs)
  | Some q =>
      let '(q', r) := Delay q (mkTask name params settings) in
      (r, mkServer (config qs) (lock qs) (Some q') (taskTypes qs))
  end.

(** [EnqueueJob] enqueues a job on the queue server for the given
    taskTypeName; [now] is what [time.Now()] returns. *)
Definition EnqueueJob (now : Time) (taskName : string)
    (params : gmap string Any) (qs : Server)
    : Outcome (AsyncResult + Error) :=
  match RLock (lock qs) with
  | None => Blocked
  | Some l =>
      let qs := mkServer (config qs) l (queue qs) (taskTypes qs) in
      let settings :=
        mkSettings (Add now (GetTaskValidDuration (config qs)))
                   (others DefaultSettings) in
      let '(r, qs) := enqueueJob taskName params settings qs in
      (* deferred *)
      Returned r (mkServer (config qs) (RUnlock (lock qs)) (queue qs)
                           (taskTypes qs))
  end.

(** [RegisterTaskType] registers a task type on the queue server.
    [task] is what the assertion [task.(TaskType)] makes of the value
    given: [Some n] for a TaskType whose [TaskTypeName()] is [n], [None]
    for any other value, on which the assertion panics.  [name] is not
    used. *)
Definition RegisterTaskType (name : string) (task : option string)
    (qs : Server) : Outcome unit :=
  match Lock (lock qs) with
  | None => Blocked
  | Some l =>
      (* deferred: qs.lock.Unlock() *)
      match task with
      | None =>
          Panicked (mkServer (config qs) (Unlock l) (queue qs) (taskTypes qs))
      | Some taskType =>
          Returned tt (mkServer (config qs) (Unlock l) (queue qs)
                                (taskTypes qs ++ [taskType]))
      end
  end.

(** [Start], up to the point where it waits for its context: the
    broker client is constructed ([client] is what
    [gocelery.NewCeleryClient] returned without error), the task types
    are registered with it and the workers are started. *)
Definition Start (client : CeleryClient) (qs : Server) : Outcome unit :=
  match Lock (lock qs) with
  | None => Blocked
  | Some l =>
      let q := StartWorker (foldl Register client (taskTypes qs)) in
      Returned tt (mkServer (config qs) (Unlock l) (Some q) (taskTypes qs))
  end.

End WithBroker.

Arguments Blocked {_ _}.
Arguments Returned {_ _} a qs.
Arguments Panicked {_ _} qs.

End Queue.

(** ** The vocabulary of the properties *)

Module Vocabulary.
Import Time Errors Jobs JobsV1.

(** The status a turn of the loop reads. *)
Definition status_at (acc : DID) (id : JobID) (w : World) : option Status :=
  jStatus <$> store w !! (acc, id).

(** The message of the last log entry a turn of the loop reads. *)
Definition last_message_at (acc : DID) (id : JobID) (w : World) : string :=
  default "" (j ← store w !! (acc, id); Message <$> last (Logs j)).

(** The polls that came before saw Pending, and this one sees [st]. *)
Definition becomes (acc : DID) (id : JobID) (polls : list World)
    (st : Status) (w : World) : Prop :=
  exists before after,
    polls = (before ++ w :: after)%list /\
    Forall (fun v => status_at acc id v = Some Pending) before /\
    status_at acc id w = Some st.

(** The repository only gains records, and keeps them under their own
    key. *)
Definition store_grows (s s' : gmap (DID * JobID) Job) : Prop :=
  (forall k, is_Some (s !! k) -> is_Some (s' !! k)) /\
  (well_keyed s -> well_keyed s').

(** Code that starts no goroutine, touches no channel and no context,
    and only adds to the repository. *)
Definition quietly {A} (m : M A) : Prop :=
  forall w,
    pool (run m w) = pool w /\
    chans (run m w) = chans w /\
    cancelled (run m w) = cancelled w /\
    store_grows (store w) (store (run m w)).

(** What the non blocking send does to the channels. *)
Definition offered (d : nat) (v : error) (cs : list Chan) : list Chan :=
  match cs !! d with
  | Some ch =>
      if (length (buf ch) <? cap ch)%nat
      then <[d := mkChan (cap ch) (buf ch ++ [v])]> cs
      else cs
  | None => cs
  end.

(** The call a goroutine is supervising, if it is one that has not yet
    got past its first select. *)
Definition live (g : Goroutine) : option Call :=
  match g with
  | GSupervise c _ => Some c
  | GSelect c _ => Some c
  | _ => None
  end.

(** What every world the program can reach satisfies. *)
Record Inv (w : World) : Prop := mkInv {
  (* records are kept under their own key *)
  keyed : well_keyed (store w);
  (* the job of a supervised call has a record *)
  has_record : forall i g c,
    pool w !! i = Some g -> live g = Some c ->
    is_Some (store w !! (accountID c, ID (job c)));
  (* its done channel has capacity one and is still empty *)
  done_empty : forall i g c,
    pool w !! i = Some g -> live g = Some c ->
    chans w !! done c = Some (mkChan 1 []);
  (* and belongs to this call only *)
  done_own : forall i i' g g' c c',
    pool w !! i = Some g -> pool w !! i' = Some g' ->
    live g = Some c -> live g' = Some c' -> done c = done c' -> i = i';
  (* an error channel somebody selects on has been made *)
  err_made : forall i c err,
    pool w !! i = Some (GSelect c err) -> (err < length (chans w))%nat;
  (* and nobody else selects on it *)
  err_own : forall i i' c c' err,
    pool w !! i = Some (GSelect c err) ->
    pool w !! i' = Some (GSelect c' err) -> i = i' }.

(** Every supervising goroutine of [p'] was already there in [p], in the
    same place and the same state. *)
Definition survives (p p' : list Goroutine) : Prop :=
  forall i g c, p' !! i = Some g -> live g = Some c -> p !! i = Some g.

(** The job [NewJob] makes in [w]. *)
Definition new_job (acc : DID) (desc : string) (w : World) : Job :=
  mkJob (uuids w (drawn w)) acc desc Pending ∅ ∅ [] (UTC (clock w)).

(** The world once [ExecuteWithinJob] has made [done] and started its
    goroutine. *)
Definition spawned (c : Call) (work : WorkFn) (w : World) : World :=
  set_pool (pool w ++ [GSupervise c work])
           (set_chans (chans w ++ [mkChan 1 []]) w).

(** The error the next call of the repository's Save is going to
    return. *)
Definition next_save (w : World) : error :=
  match save_faults w with
  | e :: _ => e
  | [] => None
  end.

(** The records after [Save(j)] in [w]. *)
Definition stored_after_save (j : Job) (w : World)
    : gmap (DID * JobID) Job :=
  match next_save w with
  | Some _ => store w
  | None => <[(jDID j, ID j) := j]> (store w)
  end.

(** The tag of the manager's own log entries for a call. *)
Definition tag (c : Call) : string :=
  managerLogPrefix +:+ "[" +:+ desc c +:+ "]".

(** What the first select leaves in the repository when the work
    function reported [e] and the reload found [tempJob]. *)
Definition reconciled (c : Call) (e : error) (t : Time) (tempJob : Job)
    : Job :=
  match e with
  | None =>
      if JobIDEqual (existingJobID c) NilJobID
      then setStatus Success tempJob
      else tempJob
  | Some e' =>
      setStatus Failed
        (setLogs (Logs tempJob ++
                  [mkLog (tag c) (Text e') (UTC t)]) tempJob)
  end.

(** The error [finalize] prepares when the work function reported [e],
    before the save. *)
Definition wrapped (c : Call) (e : error) : error :=
  match e with
  | None => None
  | Some e' =>
      Some (ErrNew (Fmt.Sprintf0 (tag c +:+ " " +:+ Text e')))
  end.

(** The log entry of a cancellation. *)
Definition cancellation_entry (c : Call) (t : Time) : Log :=
  mkLog "context closed" (context_close_msg (job c)) (UTC t).

(** Code that leaves the part [f] of the world as it is. *)
Definition keeps {A X} (f : World -> X) (m : M A) : Prop :=
  forall w, f (run m w) = f w.

(** The completion message for [mJob]. *)
Definition completion (c : Call) (mJob : Job) (t : Time)
    : Notification.Message :=
  Notification.mkMessage Notification.JobCompleted
    (DID_String (accountID c)) (UTC t) JobDataTypeURL
    (JobID_String (ID mJob)) (Status_string (jStatus mJob))
    (default "" (Message <$> last (Logs mJob))).

(** The messages handed to the Sender once the goroutine of [c] has
    finalized with [mJob]. *)
Definition sent_after (c : Call) (mJob : option Job) (w : World)
    : list Notification.Message :=
  match mJob with
  | Some j =>
      if JobIDEqual (existingJobID c) NilJobID
      then sent w ++ [completion c j (clock w)]
      else sent w
  | None => sent w
  end.

(** The record [finalize] hands to Save, from the one it reloaded. *)
Definition finalized (c : Call) (sig : Signal) (t : Time) (tempJob : Job)
    : Job :=
  match sig with
  | Reported e => reconciled c e t tempJob
  | CtxDone => setLogs (Logs tempJob ++ [cancellation_entry c t]) tempJob
  end.

(** The error [finalize] has for the done channel when its reload found
    the record. *)
Definition done_error (c : Call) (sig : Signal) (w : World) : error :=
  match sig with
  | Reported e =>
      match next_save w with
      | Some es => AppendError e (Some es)
      | None => wrapped c e
      end
  | CtxDone => next_save w
  end.

(** Some goroutine is parked in a select on the error channel [err]. *)
Definition heard (err : nat) (w : World) : Prop :=
  exists k c, pool w !! k = Some (GSelect c err).

(** Every record is still there, with a log that has only grown at its
    end. *)
Definition keeps_logs (s s' : gmap (DID * JobID) Job) : Prop :=
  forall k j, s !! k = Some j ->
    exists j', s' !! k = Some j' /\ Logs j `prefix_of` Logs j'.

(** The record [UpdateTaskStatus] saves, from the one it read. *)
Definition task_updated (status : Status) (taskName message : string)
    (t : Time) (tx : Job) : Job :=
  setLogs (Logs tx ++ [mkLog taskName message (UTC t)])
          (setTaskStatus (<[taskName := status]> (TaskStatus tx)) tx).

(** One call: when it is made, and its arguments. *)
Record TaskCall := mkTaskCall {
  made_at : Time;
  with_status : Status;
  with_name : string;
  with_message : string }.

(** The log entry a call appends. *)
Definition entry_of (tc : TaskCall) : Log :=
  mkLog (with_name tc) (with_message tc) (UTC (made_at tc)).

(** The run in which the calls [calls] for one job follow each other and
    nothing else happens. *)
Definition in_sequence (acc : DID) (id : JobID) (calls : list TaskCall)
    : list Action :=
  flat_map (fun tc =>
              [ATick (made_at tc);
               AUpdateTaskStatus acc id (with_status tc) (with_name tc)
                                 (with_message tc)]) calls.

(** The action is a receive from the channel [d]. *)
Definition is_recv (d : nat) (a : Action) : bool :=
  match a with
  | ARecvDone ch => (ch =? d)%nat
  | _ => false
  end.

(** How many values a run receives from [d]. *)
Fixpoint received (d : nat) (acts : list Action) : nat :=
  match acts with
  | [] => 0
  | a :: later => (if is_recv d a then 1 else 0) + received d later
  end.

(** How many values wait in [d]. *)
Definition held (d : nat) (w : World) : nat :=
  match chans w !! d with
  | Some ch => length (buf ch)
  | None => 0
  end.

(** Goroutine [k] of the pool supervises the call [c]. *)
Definition sup (p : list Goroutine) (k : nat) (c : Call) : Prop :=
  exists g, p !! k = Some g /\ live g = Some c.

(** Some goroutine that has not got past its select is going to send on
    [d]. *)
Definition supervised (d : nat) (w : World) : Prop :=
  exists k c, sup (pool w) k c /\ done c = d.

(** What a step does, seen from the channel [d]. *)
Inductive shape (d : nat) (w : World) (a : Action) (w1 : World) : Prop :=
| passes_by :
    (* nothing sent on d, nothing received from it *)
    (forall k c, sup (pool w1) k c ->
       sup (pool w) k c \/ (length (chans w) <= done c)%nat) ->
    (forall k c, sup (pool w) k c -> done c = d -> sup (pool w1) k c) ->
    chans w1 !! d = chans w !! d ->
    is_recv d a = false ->
    shape d w a w1
| fires (i : nat) (c : Call) (v : error) :
    (* the goroutine that supervises d does its send and ends *)
    sup (pool w) i c -> done c = d ->
    (forall k c', sup (pool w1) k c' -> sup (pool w) k c' /\ k <> i) ->
    chans w1 !! d = offered d v (chans w) !! d ->
    is_recv d a = false ->
    shape d w a w1
| receives (n : nat) (v : error) (later : list error) :
    (* a value is taken out of d *)
    (forall k c, sup (pool w1) k c <-> sup (pool w) k c) ->
    chans w !! d = Some (mkChan n (v :: later)) ->
    chans w1 !! d = Some (mkChan n later) ->
    is_recv d a = true ->
    shape d w a w1.

End Vocabulary.

(** ** Sample worlds *)

Module Samples.
Import Time Errors Jobs JobsV1.

(** A world with the records [st], where nothing has happened yet and
    no call of the repository or of the sender is going to fail. *)
Definition quiet (st : gmap (DID * JobID) Job) : World :=
  mkWorld st [] (mkTime 9 0) (fun n => N.of_nat (100 + n)) 0 [] [] [] [] [] [].

Definition anchored : Job :=
  mkJob 5%N 1%N "anchor document" Success ∅ ∅
        [mkLog "anchor" "anchored" (mkTime 7 3600)] (mkTime 3 3600).

Definition anchoring : Job :=
  mkJob 5%N 1%N "anchor document" Pending ∅ ∅ [] (mkTime 3 3600).

(** A broker that keeps the tasks it is given and answers with their
    number. *)
Definition listing (q : list (Queue.Task unit)) (t : Queue.Task unit)
    : list (Queue.Task unit) * (nat + Error) :=
  ((q ++ [t])%list, inl (length q)).

(** The world [acts] lead to from [w] (and [w] itself if they cannot
    all happen). *)
Definition after (acts : list Action) (w : World) : World :=
  default w (steps acts w).

(** A work function that reports nil at once. *)
Definition succeeding : WorkFn := mkWork [] (Some None).

(** A work function that reports an error of the package net/url. *)
Definition url_error : Error := ErrNew "invalid URL escape %zz".
Definition failing : WorkFn := mkWork [] (Some (Some url_error)).

(** A work function that never reports. *)
Definition sleeping : WorkFn := mkWork [] None.

(** A call with the nil job id in an empty repository: the call, the
    start of its goroutine, and the work function reaching its send. *)
Definition call_then_report (work : WorkFn) : list Action :=
  [ACall 0 1%N NilJobID "anchor document" work; AStart 0; AWork 1].

Definition reporting_nil : World :=
  after (call_then_report succeeding) (quiet ∅).

Definition reporting_error : World :=
  after (call_then_report failing) (quiet ∅).

(** The same call, with a work function that sleeps, and its context
    cancelled. *)
Definition call_then_cancel : list Action :=
  [ACall 0 1%N NilJobID "anchor document" sleeping; AStart 0; ACancel 0].

Definition cancelled_while_working : World :=
  after call_then_cancel (quiet ∅).

(** The variables the goroutine of that call has captured. *)
Definition the_call : Call :=
  mkCall 0 1%N NilJobID "anchor document"
         (mkJob 100%N 1%N "anchor document" Pending ∅ ∅ [] (mkTime 9 0)) 0.

(** An empty repository whose next Save fails. *)
Definition disk_full : Error := ErrNew "disk full".
Definition failing_repository : World :=
  set_repo ∅ [Some disk_full] (quiet ∅).

End Samples.

(** ** Package queue: the rest of the server's life *)

Module QueueLife.
Import Time Errors Queue.

(** [Name] of the queue server. *)
Definition Name : string := "QueueServer".

Section WithBroker.

Context {CeleryClient : Type}.
Variable StopWorker : CeleryClient -> CeleryClient.

(** [Start], from the moment its context is done: the workers are
    stopped under the lock; the broker client stays where it is.  (On a
    nil client, which [Start] does not leave behind when the client was
    constructed, the call is the broker library's business; the pointer
    stays nil here.) *)
Definition Start_shutdown (qs : Server (CeleryClient := CeleryClient))
    : Outcome unit :=
  match Lock (lock qs) with
  | None => Blocked
  | Some l =>
      Returned tt (mkServer (config qs) (Unlock l) (StopWorker <$> queue qs)
                            (taskTypes qs))
  end.

End WithBroker.

Section WithConversion.

(** The conversion [time.Duration(f64)] of a float64, given by its bits,
    to a count of nanoseconds is the language's own and is a parameter
    here. *)
Variable Duration_of_float64 : Z -> Duration.

Definition not_a_float64 : Error :=
  ErrNew "Could not parse interface to float64".

(** [GetDuration] parses key parameter to time.Duration type. *)
Definition GetDuration (key : Any) : Duration * error :=
  match key with
  | AFloat64 f64 => (Duration_of_float64 f64, None)
  | _ => (0%Z, Some not_a_float64)
  end.

End WithConversion.

End QueueLife.

(** ** Package nft: the bootstrapper *)

Module Nft.
Import Errors.

Section WithServices.

(** The services the bootstrapper looks for are not part of the
    sources: their types are parameters, and so is the type of the
    values of the bootstrap context, with what each type assertion of
    [Bootstrap] makes of a value ([None]: the assertion fails, as it does
    on nil). *)
Context {Config CentAPI EthClient DocService IdService QueueServer
         JobManager Value : Type}.
Variable as_centchain_API : Value -> option CentAPI.
Variable as_documents_Service : Value -> option DocService.
Variable as_identity_Service : Value -> option IdService.
Variable as_queue_Server : Value -> option QueueServer.
Variable as_jobs_Manager : Value -> option JobManager.

(** What [newService] is given, [ethereum.BindContract] and the function
    that asks the client for the latest block apart. *)
Record Service := mkService {
  s_config : Config;
  s_identity : IdService;
  s_client : EthClient;
  s_queue : QueueServer;
  s_documents : DocService;
  s_jobs : JobManager;
  s_api : CentAPI * JobManager }.

(** The service as a value of the context. *)
Variable of_service : Service -> Value.

(** The keys of the context are constants of other packages. *)
Variables BootstrappedCentChainClient BootstrappedEthereumClient
          BootstrappedDocumentService BootstrappedDIDService
          BootstrappedQueueServer BootstrappedService
          BootstrappedNFTService : string.

(** [configstore.RetrieveConfig(false, ctx)], which reads the context,
    and [ethereum.GetClient()]. *)
Variable RetrieveConfig : gmap string Value -> Config + Error.
Variable GetClient : EthClient.

Inductive Outcome :=
| Done (ctx : gmap string Value)     (* returns nil, the context updated *)
| Failed (err : Error)               (* returns the error *)
| Panics.                            (* a type assertion without [ok] fails *)

(** [Bootstrap] initializes the invoice unpaid contract. *)
Definition Bootstrap (ctx : gmap string Value) : Outcome :=
  match RetrieveConfig ctx with
  | inr err => Failed err
  | inl cfg =>
  match ctx !! BootstrappedCentChainClient ≫= as_centchain_API with
  | None => Failed (ErrNew "centchain client hasn't been initialized")
  | Some centAPI =>
  match ctx !! BootstrappedEthereumClient with
  | None => Failed (ErrNew "ethereum client hasn't been initialized")
  | Some _ =>
  match ctx !! BootstrappedDocumentService ≫= as_documents_Service with
  | None => Failed (ErrNew "document service not initialised")
  | Some docSrv =>
  match ctx !! BootstrappedDIDService ≫= as_identity_Service with
  | None => Failed (ErrNew "identity service not initialised")
  | Some idService =>
  match ctx !! BootstrappedQueueServer with
  | None => Failed (ErrNew "queue hasn't been initialized")
  | Some v =>
  match as_queue_Server v with
  | None => Panics
  | Some queueSrv =>
  match ctx !! BootstrappedService ≫= as_jobs_Manager with
  | None => Failed (ErrNew "transactions repository not initialised")
  | Some jobManager =>
      let client := GetClient in
      let nftSrv :=
        mkService cfg idService client queueSrv docSrv jobManager
                  (centAPI, jobManager) in
      Done (<[BootstrappedNFTService := of_service nftSrv]> ctx)
  end end end end end end end end.

End WithServices.

End Nft.

(** ** Package queue: calls on a server, one after the other *)

Module QueueRuns.
Import Time Errors Queue QueueLife.

Section WithBroker.

Context {Defaults CeleryClient AsyncResult : Type}.
Variable DefaultSettings : TaskSettings Defaults.
Variable Delay :
  CeleryClient -> Task Defaults ->
  CeleryClient * (AsyncResult + Error).
Variable Register : CeleryClient -> string -> CeleryClient.
Variable StartWorker StopWorker : CeleryClient -> CeleryClient.

(** The calls made on a server.  Each holds the lock from its first
    statement to its last, [Start] in each of its two halves. *)
Inductive Op :=
| OStart (client : CeleryClient)
| OShutdown
| ORegisterTaskType (name : string) (task : option string)
| OEnqueueJob (now : Time) (taskName : string) (params : gmap string Any).

Definition after_return {A}
    (o : Outcome (CeleryClient := CeleryClient) A)
    : option (Server (CeleryClient := CeleryClient)) :=
  match o with
  | Blocked => None
  | Returned _ qs => Some qs
  | Panicked _ => None
  end.

(** The server a call leaves when it returns. *)
Definition call (o : Op) (qs : Server) : option Server :=
  match o with
  | OStart client => after_return (Start Register StartWorker client qs)
  | OShutdown => after_return (Start_shutdown StopWorker qs)
  | ORegisterTaskType name task =>
      after_return (RegisterTaskType name task qs)
  | OEnqueueJob now taskName params =>
      after_return (EnqueueJob DefaultSettings Delay now taskName params qs)
  end.

Fixpoint calls (os : list Op) (qs : Server) : option Server :=
  match os with
  | [] => Some qs
  | o :: os =>
      match call o qs with
      | None => None
      | Some qs => calls os qs
      end
  end.

(** The type names of the tasks given to [RegisterTaskType] in a run, in
    order. *)
Definition registered (os : list Op) : list string :=
  omap (fun o =>
          match o with
          | ORegisterTaskType _ task => task
          | _ => None
          end) os.

(** Every value registered in the run is a TaskType. *)
Definition task_types_only (os : list Op) : Prop :=
  forall name, ORegisterTaskType name None ∉ os.

(** The registration of a task under a name. *)
Definition registration (r : string * string) : Op :=
  ORegisterTaskType (fst r) (Some (snd r)).

End WithBroker.

End QueueRuns.

(** ** How a step changes the repository *)

Module Changes.
Import Time Errors Jobs JobsV1 Vocabulary.

(** In the step [a], the select of goroutine [i], which supervises the
    call [c], fires on [sig]. *)
Definition fires (w : World) (a : Action) (i : nat) (c : Call)
    (sig : Signal) : Prop :=
  exists err,
    pool w !! i = Some (GSelect c err) /\
    ((a = ACtxDone i /\ sig = CtxDone) \/
     (exists j e, a = ARecv i j /\ sig = Reported e /\
                  pool w !! j = Some (GSend err e))).

(** The ways the step [a] rewrites the record [tx] it has read. *)
Inductive edit (w : World) (a : Action) (tx : Job) : Job -> Prop :=
| edit_task status taskName message :
    edit w a tx (task_updated status taskName message (clock w) tx)
| edit_value key v :
    edit w a tx (setValues (<[key := mkJobValue key v]> (Values tx)) tx)
| edit_final i c sig :
    fires w a i c sig ->
    jDID tx = accountID c -> ID tx = ID (job c) ->
    edit w a tx (finalized c sig (clock w) tx).

(** What the step [a] from [w] to [w'] does to the records. *)
Inductive store_change (w : World) (a : Action) (w' : World) : Prop :=
| unchanged :
    store w' = store w -> store_change w a w'
| created acc dsc :
    store w' = <[(acc, uuids w (drawn w)) := new_job acc dsc w]> (store w) ->
    store_change w a w'
| edited acc id tx tx' :
    store w !! (acc, id) = Some tx ->
    edit w a tx tx' ->
    store w' = <[(acc, id) := tx']> (store w) ->
    store_change w a w'.

End Changes.

(** ** Operations whose load and save are apart *)

Module Interleaving.
Import Time Errors Jobs JobsV1 Vocabulary.

(** [manager.go] holds no lock: between the [Get] of an operation and its
    [saveJob], other operations can load and save.  Here the three
    operations that save what they loaded are cut in two at their call
    of [saveJob], and a schedule can put other moves in between. *)

(** [UpdateTaskStatus] up to its call of [saveJob]: the record it read
    and the record it is about to save. *)
Definition UpdateTaskStatus_load (acc : DID) (id : JobID) (status : Status)
    (taskName message : string) : M (result (Job * Job)) :=
  do r <- GetJob acc id;
  match r with
  | Err err => ret (Err err)
  | Ok loaded =>
      (* status particular to the task *)
      let tx :=
        setTaskStatus (<[taskName := status]> (TaskStatus loaded)) loaded in
      do l <- NewLog taskName message;
      let tx := setLogs (Logs tx ++ [l]) tx in
      ret (Ok (loaded, tx))
  end.

(** [UpdateJobWithValue] up to its call of [saveJob]. *)
Definition UpdateJobWithValue_load (acc : DID) (id : JobID) (key : string)
    (value : list Byte.byte) : M (result (Job * Job)) :=
  do r <- GetJob acc id;
  match r with
  | Err err => ret (Err err)
  | Ok loaded =>
      ret (Ok (loaded,
               setValues (<[key := mkJobValue key value]> (Values loaded))
                         loaded))
  end.

Definition work_op_load (acc : DID) (txID : JobID) (op : WorkOp)
    : M (result (Job * Job)) :=
  match op with
  | OpUpdateTaskStatus status taskName message =>
      UpdateTaskStatus_load acc txID status taskName message
  | OpUpdateJobWithValue key value =>
      UpdateJobWithValue_load acc txID key value
  end.

(** Either operation from where it was cut: the error of the load is
    returned, or the record is saved. *)
Definition work_op_save (r : result (Job * Job)) : M error :=
  match r with
  | Err err => ret (Some err)
  | Ok (_, tx) => saveJob tx
  end.

(** Where the chosen case of the first [select] stands when it was
    cut. *)
Inductive Reloaded :=
| NoRecord (doneErr : error)
    (* the reload failed: [break] *)
| ToSave (loaded : Job) (doneErr : error) (tempJob : Job).
    (* about to call [saveJob(tempJob)] *)

(** The chosen case of the first [select], up to its call of
    [saveJob]. *)
Definition finalize_load (c : Call) (sig : Signal) : M Reloaded :=
  match sig with
  | Reported e =>
      do r <- repo_Get (accountID c) (ID (job c));
      match r with
      | Err err =>
          do _ <- log_Error [e; Some err];
          ret (NoRecord (AppendError e (Some err)))
      | Ok loaded =>
          do changed <-
            match e with
            | None =>
                if JobIDEqual (existingJobID c) NilJobID
                then ret (None, setStatus Success loaded)
                else ret (None, loaded)
            | Some e' =>
                do _ <- log_Error [e];
                let action := managerLogPrefix +:+ "[" +:+ desc c +:+ "]" in
                let doneErr :=
                  ErrNew (Fmt.Sprintf0 (action +:+ " " +:+ Text e')) in
                do l <- NewLog action (Text e');
                ret (Some doneErr,
                     setStatus Failed (setLogs (Logs loaded ++ [l]) loaded))
            end;
          let '(doneErr, tempJob) := changed in
          ret (ToSave loaded doneErr tempJob)
      end
  | CtxDone =>
      let msg := context_close_msg (job c) in
      do _ <- log_line (Fmt.Sprintf0 msg);
      do r <- repo_Get (accountID c) (ID (job c));
      match r with
      | Err err =>
          do _ <- log_Error [Some err];
          ret (NoRecord (Some err))
      | Ok loaded =>
          do l <- NewLog "context closed" msg;
          let tempJob := setLogs (Logs loaded ++ [l]) loaded in
          ret (ToSave loaded None tempJob)
      end
  end.

(** The chosen case from its call of [saveJob] on; the results are
    those of [finalize]. *)
Definition finalize_save (sig : Signal) (x : Reloaded)
    : M (error * option Job) :=
  match x with
  | NoRecord doneErr => ret (doneErr, None)
  | ToSave _ doneErr tempJob =>
      match sig with
      | Reported e =>
          do es <- saveJob tempJob;
          do doneErr <-
            match es with
            | Some _ =>
                do _ <- log_Error [e; es];
                ret (AppendError e es)
            | None => ret doneErr
            end;
          ret (doneErr, Some tempJob)
      | CtxDone =>
          do e <- saveJob tempJob;
          do doneErr <-
            match e with
            | Some _ => do _ <- log_Error [e]; ret e
            | None => ret None
            end;
          ret (doneErr, Some tempJob)
      end
  end.

(** The goroutine of [ExecuteWithinJob] after the first [select]: the
    send on [done], the notification, and its end. *)
Definition finish (i : nat) (c : Call) (r : error * option Job) : M unit :=
  let '(doneErr, mJob) := r in
  do _ <- send_done (done c) doneErr;
  do _ <- notify c mJob;
  set_goroutine i GExit.

(** An operation that has loaded and has not saved yet. *)
Inductive Flight :=
| InCall (loaded tx : Job)
    (* somebody's call of UpdateTaskStatus or UpdateJobWithValue *)
| InWork (i : nat) (loaded tx : Job)
    (* such a call made by the work function [i] *)
| InFinalize (i : nat) (c : Call) (sig : Signal) (loaded : Job)
             (doneErr : error) (tempJob : Job)
    (* the goroutine [i] of ExecuteWithinJob, its select fired on [sig] *)
| Landed.
    (* the operation has saved and is over *)

(** The record an operation loaded and the one it is going to save. *)
Definition snapshot (f : Flight) : option (Job * Job) :=
  match f with
  | InCall loaded tx => Some (loaded, tx)
  | InWork _ loaded tx => Some (loaded, tx)
  | InFinalize _ _ _ loaded _ tempJob => Some (loaded, tempJob)
  | Landed => None
  end.

(** The program with its operations under way. *)
Record Threads := mkThreads { world : World; flights : list Flight }.

Definition in_flight (i : nat) (f : Flight) : bool :=
  match f with
  | InWork k _ _ => (k =? i)%nat
  | InFinalize k _ _ _ _ _ => (k =? i)%nat
  | _ => false
  end.

(** The goroutine [i] is not between a load and its save. *)
Definition idle (fs : list Flight) (i : nat) : bool :=
  forallb (fun f => negb (in_flight i f)) fs.

(** The goroutines an action of [step] moves. *)
Definition acts_on (a : Action) : list nat :=
  match a with
  | AStart i => [i]
  | AWork i => [i]
  | ARecv i j => [i; j]
  | ACtxDone i => [i]
  | _ => []
  end.

Inductive Move :=
| Whole (a : Action)
    (* a step of [step]: what it loads it saves before anything else
       happens *)
| LoadCall (acc : DID) (id : JobID) (op : WorkOp)
    (* somebody's call of UpdateTaskStatus or UpdateJobWithValue gets to
       its saveJob *)
| LoadWork (i : nat)
    (* the next operation of work function i gets to its saveJob *)
| LoadRecv (i j : nat)
    (* select of i receives what j is sending, and gets to its saveJob *)
| LoadCtxDone (i : nat)
    (* select of i takes the ctx.Done() case, and gets to its saveJob *)
| Save (n : nat).
    (* the operation [n] under way calls saveJob and runs to its end *)

(** What a load leaves: an operation under way, or none when the
    operation is over already. *)
Definition loaded_call (held : Job * Job -> Flight) (over : World -> World)
    (fs : list Flight) (rw : result (Job * Job) * World) : Threads :=
  match rw with
  | (Err _, w) => mkThreads (over w) fs
  | (Ok lt, w) => mkThreads w (fs ++ [held lt])
  end.

Definition loaded_select (i : nat) (c : Call) (sig : Signal)
    (fs : list Flight) (xw : Reloaded * World) : Threads :=
  match xw with
  | (NoRecord doneErr, w) =>
      mkThreads (run (finish i c (doneErr, None)) w) fs
  | (ToSave loaded doneErr tempJob, w) =>
      mkThreads w (fs ++ [InFinalize i c sig loaded doneErr tempJob])
  end.

(** One move of a schedule; [None] when it cannot happen in [s]. *)
Definition move (m : Move) (s : Threads) : option Threads :=
  let w := world s in
  let fs := flights s in
  match m with
  | Whole a =>
      if forallb (idle fs) (acts_on a)
      then (fun w' => mkThreads w' fs) <$> step a w
      else None
  | LoadCall acc id op =>
      Some (loaded_call (fun lt => InCall (fst lt) (snd lt)) (fun w => w) fs
                        (work_op_load acc id op w))
  | LoadWork i =>
      match idle fs i, pool w !! i with
      | true, Some (GWork acc txID err (mkWork (op :: later) rep)) =>
          Some (loaded_call
                  (fun lt => InWork i (fst lt) (snd lt))
                  (run (set_goroutine i (GWork acc txID err (mkWork later rep))))
                  fs (work_op_load acc txID op w))
      | _, _ => None
      end
  | LoadRecv i j =>
      match idle fs i && idle fs j, pool w !! i, pool w !! j with
      | true, Some (GSelect c err), Some (GSend err' e) =>
          if (err =? err')%nat
          then Some (loaded_select i c (Reported e) fs
                       (finalize_load c (Reported e)
                          (run (set_goroutine j GExit) w)))
          else None
      | _, _, _ => None
      end
  | LoadCtxDone i =>
      match idle fs i, pool w !! i with
      | true, Some (GSelect c err) =>
          if bool_decide (ctx c ∈ cancelled w)
          then Some (loaded_select i c CtxDone fs (finalize_load c CtxDone w))
          else None
      | _, _ => None
      end
  | Save n =>
      match fs !! n with
      | Some (InCall _ tx) =>
          Some (mkThreads (run (saveJob tx) w) (<[n := Landed]> fs))
      | Some (InWork i _ tx) =>
          match pool w !! i with
          | Some (GWork acc txID err (mkWork (op :: later) rep)) =>
              Some (mkThreads
                      (run (do _ <- saveJob tx;
                            set_goroutine i
                              (GWork acc txID err (mkWork later rep))) w)
                      (<[n := Landed]> fs))
          | _ => None
          end
      | Some (InFinalize i c sig loaded doneErr tempJob) =>
          Some (mkThreads
                  (run (do r <- finalize_save sig
                                  (ToSave loaded doneErr tempJob);
                        finish i c r) w)
                  (<[n := Landed]> fs))
      | _ => None
      end
  end.

(** A schedule: the moves of [ms], one after the other. *)
Fixpoint moves (ms : list Move) (s : Threads) : option Threads :=
  match ms with
  | [] => Some s
  | m :: later =>
      match move m s with
      | Some s' => moves later s'
      | None => None
      end
  end.

(** The program starts with no operation under way. *)
Inductive scheduled : Threads -> Prop :=
| sched_initial w : initial w -> scheduled (mkThreads w [])
| sched_move m s s' : scheduled s -> move m s = Some s' -> scheduled s'.

(** No save that changed the log of the job has come between the load
    of the operation that saves in this move and its save. *)
Definition unraced (m : Move) (s : Threads) : Prop :=
  match m with
  | Save n =>
      match flights s !! n ≫= snapshot with
      | Some (loaded, tx) =>
          Logs <$> store (world s) !! (jDID tx, ID tx) = Some (Logs loaded)
      | None => True
      end
  | _ => True
  end.

(** The record an operation is going to save is the one it loaded, its
    log longer by one entry at most, under the same account and id. *)
Definition extends (loaded tx : Job) : Prop :=
  jDID tx = jDID loaded /\ ID tx = ID loaded /\
  (Logs tx = Logs loaded \/ exists l, Logs tx = Logs loaded ++ [l]).

(** What a move does to the repository. *)
Inductive repository_after (m : Move) (s s' : Threads) : Prop :=
| untouched :
    store (world s') = store (world s) -> repository_after m s s'
| stepped a :
    m = Whole a -> step a (world s) = Some (world s') ->
    repository_after m s s'
| saved n f loaded tx :
    m = Save n -> flights s !! n = Some f ->
    snapshot f = Some (loaded, tx) ->
    store (world s') = stored_after_save tx (world s) ->
    repository_after m s s'.

(** What a move does to the operations under way. *)
Inductive flights_after (m : Move) (s s' : Threads) : Prop :=
| same_flights :
    flights s' = flights s -> flights_after m s s'
| took_off f loaded tx :
    flights s' = flights s ++ [f] ->
    snapshot f = Some (loaded, tx) ->
    (exists acc id, store (world s) !! (acc, id) = Some loaded) ->
    extends loaded tx ->
    flights_after m s s'
| landed n :
    m = Save n -> flights s' = <[n := Landed]> (flights s) ->
    flights_after m s s'.

(** The step of [step] that a load and its save make together. *)
Definition whole_of (m : Move) : option Action :=
  match m with
  | LoadCall acc id (OpUpdateTaskStatus status taskName message) =>
      Some (AUpdateTaskStatus acc id status taskName message)
  | LoadCall acc id (OpUpdateJobWithValue key value) =>
      Some (AUpdateJobWithValue acc id key value)
  | LoadWork i => Some (AWork i)
  | LoadRecv i j => Some (ARecv i j)
  | LoadCtxDone i => Some (ACtxDone i)
  | _ => None
  end.

(** The next job id is in use under no account. *)
Definition next_id_free (w : World) : Prop :=
  forall acc, store w !! (acc, uuids w (drawn w)) = None.

End Interleaving.

(** ** More sample worlds *)

Module MoreSamples.
Import Time Errors Jobs JobsV1 Samples.

(** A quiet world whose repository holds the one record [j]. *)
Definition stored (j : Job) : World := quiet {[ (jDID j, ID j) := j ]}.

(** The job that succeeded is taken up again by a call whose work
    function fails. *)
Definition retrying : World :=
  after [ACall 0 1%N 5%N "retry" failing; AStart 0; AWork 1] (stored anchored).

Definition the_retry : Call := mkCall 0 1%N 5%N "retry" anchored 0.

(** The pending job is taken up again by a call whose work function
    reports nil. *)
Definition resuming : World :=
  after [ACall 0 1%N 5%N "resume" succeeding; AStart 0; AWork 1]
        (stored anchoring).

Definition the_resume : Call := mkCall 0 1%N 5%N "resume" anchoring 0.

(** A new job whose work function reports nil, in a repository that
    saves the new job and then fails. *)
Definition reporting_nil_to_a_full_disk : World :=
  after (call_then_report succeeding)
        (set_repo ∅ [None; Some disk_full] (quiet ∅)).

(** A bootstrap context: its values, and which assertion each passes. *)
Inductive Entry :=
| EConfig | ECent | EEth | EDoc | EId | EQueue | EJobs | ENft.

Definition entries (keys : list (string * Entry)) : gmap string Entry :=
  list_to_map keys.

Definition complete : gmap string Entry :=
  entries [("config", EConfig); ("centchain", ECent); ("ethereum", EEth);
           ("documents", EDoc); ("identity", EId); ("queue", EQueue);
           ("jobs", EJobs)].

(** The same with the jobs manager stored under the key of the queue. *)
Definition mixed_up : gmap string Entry :=
  entries [("config", EConfig); ("centchain", ECent); ("ethereum", EEth);
           ("documents", EDoc); ("identity", EId); ("queue", EJobs)].

Definition passes (e : Entry) (v : Entry) : option unit :=
  match e, v with
  | ECent, ECent | EDoc, EDoc | EId, EId | EQueue, EQueue | EJobs, EJobs =>
      Some tt
  | _, _ => None
  end.

Definition config_of (ctx : gmap string Entry) : unit + Errors.Error :=
  match ctx !! "config" with
  | Some EConfig => inl tt
  | _ => inr (Errors.ErrNew "failed to retrieve config")
  end.

Definition bootstrap (ctx : gmap string Entry) : Nft.Outcome :=
  Nft.Bootstrap (passes ECent) (passes EDoc) (passes EId) (passes EQueue)
                (passes EJobs) (fun _ => ENft)
                "centchain" "ethereum" "documents" "identity" "queue" "jobs"
                "nft" config_of tt ctx.

(** A broker that keeps the names registered with it and the tasks it
    was given, and whether its workers run. *)
Record Broker := mkBroker {
  known : list string;
  running : bool;
  given : list string }.

Definition delay (b : Broker) (t : Queue.Task unit)
    : Broker * (nat + Errors.Error) :=
  (mkBroker (known b) (running b) (given b ++ [Queue.Name t]),
   inl (length (given b))).
Definition register (b : Broker) (n : string) : Broker :=
  mkBroker (known b ++ [n]) (running b) (given b).
Definition start_worker (b : Broker) : Broker :=
  mkBroker (known b) true (given b).
Definition stop_worker (b : Broker) : Broker :=
  mkBroker (known b) false (given b).

Definition new_server : Queue.Server (CeleryClient := Broker) :=
  Queue.mkServer (Queue.mkConfig 2 10 1000%Z) (Queue.mkLock false 0) None [].

(** A work function that updates two task statuses and never reports. *)
Definition signing : WorkFn :=
  mkWork [OpUpdateTaskStatus Success "sign" "signed";
          OpUpdateTaskStatus Success "anchor" "anchored"] None.

(** The pending job is taken up by a call with that work function, and
    the context of the call is cancelled: the goroutine of the call
    reloads the record and gets to its saveJob, and the work function
    makes its two updates before that save happens. *)
Definition overtaking : list Interleaving.Move :=
  [Interleaving.Whole (ACall 0 1%N 5%N "anchor document" signing);
   Interleaving.Whole (AStart 0);
   Interleaving.Whole (ACancel 0);
   Interleaving.LoadCtxDone 0;
   Interleaving.Whole (AWork 1);
   Interleaving.Whole (AWork 1)].

(** Somebody's call of UpdateTaskStatus for the pending job has got to
    its saveJob, and nothing else is under way. *)
Definition signing_alone : Interleaving.Threads :=
  default (Interleaving.mkThreads (stored anchoring) [])
          (Interleaving.moves
             [Interleaving.LoadCall 1%N 5%N
                (OpUpdateTaskStatus Success "sign" "signed")]
             (Interleaving.mkThreads (stored anchoring) [])).

Definition overtaken : Interleaving.Threads :=
  default (Interleaving.mkThreads (stored anchoring) [])
          (Interleaving.moves overtaking
             (Interleaving.mkThreads (stored anchoring) [])).

End MoreSamples.

(** * Properties *)

(** ** Strings and formats *)

Module StrFacts.
Import Str.

Lemma prefix_app (a b : string) : has_prefix a (a +:+ b) = true.
Proof.
  induction a as [|c a IH]; [reflexivity |].
  change (Ascii.eqb c c && has_prefix a (a +:+ b) = true).
  by rewrite Ascii.eqb_refl, IH.
Qed.

Lemma contains_here (a b : string) : contains a (a +:+ b) = true.
Proof.
  pose proof (prefix_app a b) as H.
  destruct a as [|c a]; [by destruct b |].
  change (has_prefix (String c a) (String c a +:+ b) ||
          contains (String c a) (a +:+ b) = true).
  by rewrite H.
Qed.

Lemma contains_later (a b c : string) :
  contains a c = true -> contains a (b +:+ c) = true.
Proof.
  intros H. induction b as [|x b IH]; [exact H |].
  change (has_prefix a (String x (b +:+ c)) || contains a (b +:+ c) = true).
  rewrite IH. apply orb_true_r.
Qed.

Lemma append_empty (b : string) : b +:+ "" = b.
Proof.
  induction b as [|x b IH]; [reflexivity |].
  change (String x (b +:+ "") = String x b). by rewrite IH.
Qed.

Lemma contains_end (a b : string) : contains b (a +:+ b) = true.
Proof.
  apply contains_later. pose proof (contains_here b "") as H.
  by rewrite append_empty in H.
Qed.

Lemma contains_cons (a : string) (c : ascii) (s : string) :
  contains a (String c s) = false -> contains a s = false.
Proof.
  intros H.
  change (has_prefix a (String c s) || contains a s = false) in H.
  by apply orb_false_elim in H as [_ H].
Qed.

(** A format without a percent sign is printed as it is. *)
Lemma format0_plain (s : string) (fuel : nat) :
  contains "%" s = false -> (String.length s < fuel)%nat ->
  Fmt.format0 fuel s = s.
Proof.
  revert fuel. induction s as [|c s IH]; intros fuel Hs Hf.
  - destruct fuel; [simpl in Hf; lia | done].
  - destruct fuel as [|fuel]; [simpl in Hf; lia |].
    pose proof (contains_cons _ _ _ Hs) as Hs'.
    assert (Fmt.format0 fuel s = s) as Hrec
      by (apply IH; [done | simpl in Hf; lia]).
    destruct c as [[] [] [] [] [] [] [] []];
      solve [ discriminate Hs | simpl; by rewrite Hrec ].
Qed.

Lemma Sprintf0_plain (s : string) :
  contains "%" s = false -> Fmt.Sprintf0 s = s.
Proof. intros H. apply format0_plain; [done | lia]. Qed.

End StrFacts.

(** ** Reading a job: GetJobStatus and WaitForJob *)

Module StatusFacts.
Import Vocabulary Time Errors Jobs JobsV1.

Lemma Status_round_trip (st : Status) :
  Status_of_string (Status_string st) = Some st.
Proof. by destruct st. Qed.

Lemma GetJobStatus_found (w : World) (acc : DID) (id : JobID) (j : Job) :
  store w !! (acc, id) = Some j ->
  exists resp, GetJobStatus acc id w = (Ok resp, w) /\
    rJobID resp = JobID_String (ID j) /\
    rStatus resp = Status_string (jStatus j) /\
    rMessage resp = default "" (Message <$> last (Logs j)) /\
    rLastUpdated resp =
      UTC (default (CreatedAt j) (LogCreatedAt <$> last (Logs j))).
Proof.
  intros H. unfold GetJobStatus, GetJob, repo_Get, bind. rewrite H.
  destruct (last (Logs j)) as [l|]; simpl; eexists; repeat split.
Qed.

(** What one turn of the loop does, by the status it reads. *)
Lemma WaitForJob_poll_found (w : World) (acc : DID) (id : JobID) (j : Job) :
  store w !! (acc, id) = Some j ->
  WaitForJob_poll acc id w =
    match jStatus j with
    | Pending => Sleep
    | Success => Return None
    | Failed =>
        Return (Some (job_failed (default "" (Message <$> last (Logs j)))))
    end.
Proof.
  intros H. unfold WaitForJob_poll, value.
  destruct (GetJobStatus_found w acc id j H) as (resp & -> & _ & Hs & Hm & _).
  simpl. rewrite Hs, Status_round_trip, Hm. by destruct (jStatus j).
Qed.

Lemma WaitForJob_pending (acc : DID) (id : JobID) (polls : list World) :
  Forall (fun v => status_at acc id v = Some Pending) polls ->
  WaitForJob acc id polls = None.
Proof.
  induction 1 as [|w polls Hw _ IH]; [done |].
  unfold status_at in Hw. destruct (store w !! (acc, id)) as [j|] eqn:Hj;
    [| done].
  simpl. rewrite (WaitForJob_poll_found _ _ _ _ Hj).
  simpl in Hw. injection Hw as ->. exact IH.
Qed.

Lemma WaitForJob_becomes (acc : DID) (id : JobID) (polls : list World)
    (st : Status) (w : World) :
  becomes acc id polls st w -> st <> Pending ->
  WaitForJob acc id polls =
    Some (match st with
          | Failed => Some (job_failed (last_message_at acc id w))
          | _ => None
          end).
Proof.
  intros (before & after & -> & Hb & Hw) Hst.
  induction Hb as [|v before Hv _ IH].
  - unfold status_at in Hw. unfold last_message_at.
    destruct (store w !! (acc, id)) as [j|] eqn:Hj; [| done].
    simpl. rewrite (WaitForJob_poll_found _ _ _ _ Hj).
    simpl in Hw. injection Hw as ->. by destruct st.
  - unfold status_at in Hv.
    destruct (store v !! (acc, id)) as [j|] eqn:Hj; [| done].
    simpl. rewrite (WaitForJob_poll_found _ _ _ _ Hj).
    simpl in Hv. injection Hv as ->. exact IH.
Qed.

Lemma WaitForJob_returns (acc : DID) (id : JobID) (polls : list World)
    (e : error) :
  Forall (fun v => is_Some (store v !! (acc, id))) polls ->
  WaitForJob acc id polls = Some e ->
  exists st w, becomes acc id polls st w /\ st <> Pending.
Proof.
  induction 1 as [|v polls [j Hj] _ IH]; [done |].
  simpl. rewrite (WaitForJob_poll_found _ _ _ _ Hj).
  destruct (jStatus j) eqn:Hst.
  - intros H. destruct (IH H) as (st & w & (b & a & -> & Hb & Hw) & Hne).
    exists st, w. split; [| done].
    exists (v :: b), a. split; [done |]. split; [| done].
    constructor; [| done]. unfold status_at. by rewrite Hj, <- Hst.
  - intros _. exists Success, v. split; [| done].
    exists [], polls. repeat split; [constructor |].
    unfold status_at. by rewrite Hj, <- Hst.
  - intros _. exists Failed, v. split; [| done].
    exists [], polls. repeat split; [constructor |].
    unfold status_at. by rewrite Hj, <- Hst.
Qed.

End StatusFacts.

(** ** What manager code leaves alone *)

Module Frame.
Import Vocabulary Time Errors Jobs JobsV1.

Lemma store_grows_refl s : store_grows s s.
Proof. by split. Qed.

Lemma store_grows_trans s1 s2 s3 :
  store_grows s1 s2 -> store_grows s2 s3 -> store_grows s1 s3.
Proof. intros [A1 B1] [A2 B2]. split; auto. Qed.

Lemma well_keyed_insert s (j : Job) :
  well_keyed s -> well_keyed (<[(jDID j, ID j) := j]> s).
Proof.
  intros H acc id j'. rewrite lookup_insert. case_decide as Hk.
  - intros [= <-]. by inversion Hk.
  - apply H.
Qed.

Lemma store_grows_insert s (j : Job) :
  store_grows s (<[(jDID j, ID j) := j]> s).
Proof.
  split; [| apply well_keyed_insert].
  intros k Hk. rewrite lookup_insert. by case_decide.
Qed.

Ltac frame := split_and!; try done;
              first [apply store_grows_refl | apply store_grows_insert].

Lemma quietly_ret {A} (a : A) : quietly (ret a).
Proof. intros w. frame. Qed.

Lemma quietly_bind {A B} (m : M A) (k : A -> M B) :
  quietly m -> (forall a, quietly (k a)) -> quietly (bind m k).
Proof.
  intros Hm Hk w. unfold quietly, run, bind in *. specialize (Hm w).
  destruct (m w) as [a w1]. specialize (Hk a w1). simpl in *.
  destruct Hm as (P1 & C1 & X1 & G1), Hk as (P2 & C2 & X2 & G2).
  split_and!; [congruence .. | eapply store_grows_trans; eauto].
Qed.

Lemma quietly_repo_Get acc id : quietly (repo_Get acc id).
Proof.
  intros w. unfold run, repo_Get. destruct (store w !! (acc, id)); frame.
Qed.

Lemma quietly_repo_Save j : quietly (repo_Save j).
Proof.
  intros w. unfold run, repo_Save.
  destruct (save_faults w) as [|[e|] later]; simpl; frame.
Qed.

Lemma quietly_notifier_Send m : quietly (notifier_Send m).
Proof.
  intros w. unfold run, notifier_Send.
  destruct (send_faults w) as [|e later]; frame.
Qed.

Lemma quietly_log_line l : quietly (log_line l).
Proof. intros w. frame. Qed.

Lemma quietly_log_Error l : quietly (log_Error l).
Proof. apply quietly_log_line. Qed.

Lemma quietly_Now : quietly Now.
Proof. intros w. frame. Qed.

Lemma quietly_NewJobID : quietly NewJobID.
Proof. intros w. frame. Qed.

Create HintDb quiet.
#[export] Hint Resolve quietly_ret quietly_repo_Get quietly_repo_Save
  quietly_notifier_Send quietly_log_line quietly_log_Error quietly_Now
  quietly_NewJobID : quiet.

(** Takes monadic code apart, down to the calls of the collaborators. *)
Ltac quiet :=
  repeat first
    [ progress auto with quiet
    | apply quietly_bind; [| intros ?]
    | match goal with
      | |- quietly (match ?x with _ => _ end) => destruct x
      | |- quietly (if ?b then _ else _) => destruct b
      end ].

Lemma quietly_NewJob acc d : quietly (NewJob acc d).
Proof. unfold NewJob. quiet. Qed.

Lemma quietly_NewLog a m : quietly (NewLog a m).
Proof. unfold NewLog. quiet. Qed.

Lemma quietly_saveJob j : quietly (saveJob j).
Proof. unfold saveJob. quiet. Qed.

#[export] Hint Resolve quietly_NewJob quietly_NewLog quietly_saveJob : quiet.

Lemma quietly_UpdateJobWithValue acc id key v :
  quietly (UpdateJobWithValue acc id key v).
Proof. unfold UpdateJobWithValue, GetJob. quiet. Qed.

Lemma quietly_UpdateTaskStatus acc id st t m :
  quietly (UpdateTaskStatus acc id st t m).
Proof. unfold UpdateTaskStatus, GetJob. quiet. Qed.

Lemma quietly_finalize c sig : quietly (finalize c sig).
Proof. unfold finalize. quiet. Qed.

Lemma quietly_notify c mJob : quietly (notify c mJob).
Proof. unfold notify. quiet. Qed.

#[export] Hint Resolve quietly_UpdateJobWithValue quietly_UpdateTaskStatus
  quietly_finalize quietly_notify : quiet.

Lemma quietly_work_op acc id op : quietly (work_op acc id op).
Proof. destruct op; simpl; auto with quiet. Qed.

Lemma run_bind {A B} (m : M A) (k : A -> M B) w :
  run (bind m k) w = run (k (value m w)) (run m w).
Proof. unfold run, value, bind. by destruct (m w). Qed.

Lemma value_bind {A B} (m : M A) (k : A -> M B) w :
  value (bind m k) w = value (k (value m w)) (run m w).
Proof. unfold run, value, bind. by destruct (m w). Qed.

Lemma send_done_effect d v w :
  pool (run (send_done d v) w) = pool w /\
  cancelled (run (send_done d v) w) = cancelled w /\
  store (run (send_done d v) w) = store w /\
  chans (run (send_done d v) w) = offered d v (chans w).
Proof.
  unfold run, send_done, offered.
  destruct (chans w !! d) as [ch|]; [| done].
  by destruct (length (buf ch) <? cap ch)%nat.
Qed.

(** The goroutine of [ExecuteWithinJob], once its select has fired,
    starts nothing, only adds to the repository, and touches one
    channel: [done], by one non blocking send of what [finalize] gave. *)
Lemma supervise_effect c sig w :
  pool (run (supervise c sig) w) = pool w /\
  cancelled (run (supervise c sig) w) = cancelled w /\
  store_grows (store w) (store (run (supervise c sig) w)) /\
  chans (run (supervise c sig) w)
    = offered (done c) (fst (value (finalize c sig) w)) (chans w).
Proof.
  unfold supervise. rewrite run_bind.
  destruct (quietly_finalize c sig w) as (P1 & C1 & X1 & G1).
  destruct (value (finalize c sig) w) as [doneErr mJob]. simpl fst.
  rewrite run_bind.
  destruct (send_done_effect (done c) doneErr (run (finalize c sig) w))
    as (P2 & X2 & S2 & C2).
  destruct (quietly_notify c mJob
              (run (send_done (done c) doneErr) (run (finalize c sig) w)))
    as (P3 & C3 & X3 & G3).
  split_and!; [congruence .. | | congruence].
  eapply store_grows_trans; [exact G1 |]. by rewrite <- S2.
Qed.

End Frame.

(** ** What holds in every world the program can reach *)

Module Invariant.
Import Vocabulary Time Errors Jobs JobsV1 Frame.

Lemma survives_refl p : survives p p.
Proof. by intros i g c. Qed.

Lemma survives_exit p i g : live g = None -> survives p (<[i := g]> p).
Proof.
  intros Hg k g' c Hk Hl. apply list_lookup_insert_Some in Hk
    as [(-> & <- & _) | (_ & Hk)]; [congruence | done].
Qed.

Lemma survives_trans p1 p2 p3 :
  survives p1 p2 -> survives p2 p3 -> survives p1 p3.
Proof. intros H1 H2 i g c Hi Hl. eauto. Qed.

Lemma Inv_survives w w' :
  Inv w ->
  survives (pool w) (pool w') ->
  store_grows (store w) (store w') ->
  (length (chans w) <= length (chans w'))%nat ->
  (forall i g c, pool w' !! i = Some g -> live g = Some c ->
     chans w' !! done c = chans w !! done c) ->
  Inv w'.
Proof.
  intros [K R D O E U] Hp [Hs Hk] Hl Hc. split.
  - auto.
  - intros i g c Hi Hg. apply Hs. eauto.
  - intros i g c Hi Hg. rewrite (Hc i g c Hi Hg). eauto.
  - intros i i' g g' c c' Hi Hi' Hg Hg'. eauto.
  - intros i c err Hi. specialize (Hp i _ c Hi eq_refl).
    specialize (E _ _ _ Hp). lia.
  - intros i i' c c' err Hi Hi'.
    pose proof (Hp i _ c Hi eq_refl). pose proof (Hp i' _ c' Hi' eq_refl).
    eauto.
Qed.

(** Manager code that is [quietly] keeps the invariant. *)
Lemma Inv_quietly {A} (m : M A) w : quietly m -> Inv w -> Inv (run m w).
Proof.
  intros Hm HI. destruct (Hm w) as (P & C & _ & G).
  apply (Inv_survives w); try done.
  - rewrite P. apply survives_refl.
  - by rewrite C.
  - intros. by rewrite C.
Qed.

Lemma offered_length d v cs : length (offered d v cs) = length cs.
Proof.
  unfold offered. destruct (cs !! d) as [ch|]; [| done].
  destruct (length (buf ch) <? cap ch)%nat; [| done]. apply length_insert.
Qed.

Lemma offered_other d v cs k : d <> k -> offered d v cs !! k = cs !! k.
Proof.
  intros Hne. unfold offered. destruct (cs !! d) as [ch|]; [| done].
  destruct (length (buf ch) <? cap ch)%nat; [| done].
  by apply list_lookup_insert_ne.
Qed.

Lemma Inv_exit w i g :
  live g = None -> Inv w -> Inv (run (set_goroutine i g) w).
Proof.
  intros Hg HI.
  apply (Inv_survives w _ HI);
    [by apply survives_exit | apply store_grows_refl | done | done].
Qed.

(** The goroutine [i] gets past its select and ends. *)
Lemma Inv_supervise w i c err sig :
  Inv w -> pool w !! i = Some (GSelect c err) ->
  Inv (run (set_goroutine i GExit) (run (supervise c sig) w)).
Proof.
  intros HI Hi.
  destruct (supervise_effect c sig w) as (P & X & G & C).
  apply (Inv_survives w _ HI); simpl.
  - rewrite P. by apply survives_exit.
  - exact G.
  - rewrite C, offered_length. lia.
  - intros k g c' Hk Hg. rewrite C. apply offered_other. rewrite P in Hk.
    apply list_lookup_insert_Some in Hk as [(-> & <- & _) | (Hne & Hk)];
      [done |].
    intros Hd. apply Hne.
    exact (done_own w HI i k _ _ c c' Hi Hk eq_refl Hg Hd).
Qed.

Lemma Inv_start w i c work :
  Inv w -> pool w !! i = Some (GSupervise c work) ->
  Inv (run (bind (make_chan 0) (fun err =>
         bind (go (GWork (accountID c) (ID (job c)) err work)) (fun _ =>
           set_goroutine i (GSelect c err)))) w).
Proof.
  intros [K R D O E U] Hi. unfold run, bind; simpl.
  assert (forall k g c', <[i := GSelect c (length (chans w))]>
             (pool w ++ [GWork (accountID c) (ID (job c))
                               (length (chans w)) work]) !! k = Some g ->
           live g = Some c' ->
           exists g0, pool w !! k = Some g0 /\ live g0 = Some c' /\
             (k <> i -> g0 = g)) as Hback.
  { intros k g c' Hk Hg.
    apply list_lookup_insert_Some in Hk as [(-> & <- & _) | (Hne & Hk)].
    - injection Hg as <-. exists (GSupervise c work).
      split_and!; [done | done | by intros []].
    - apply lookup_snoc_Some in Hk as [[_ Hk] | [_ <-]]; [eauto | done]. }
  split; simpl.
  - done.
  - intros k g c' Hk Hg.
    destruct (Hback k g c' Hk Hg) as (g0 & Hk0 & Hg0 & _). eauto.
  - intros k g c' Hk Hg.
    destruct (Hback k g c' Hk Hg) as (g0 & Hk0 & Hg0 & _).
    pose proof (D _ _ _ Hk0 Hg0) as Hd.
    rewrite lookup_app_l; [done |]. by apply lookup_lt_Some in Hd.
  - intros k k' g g' c1 c2 Hk Hk' Hg Hg'.
    destruct (Hback k g c1 Hk Hg) as (g0 & Hk0 & Hg0 & _).
    destruct (Hback k' g' c2 Hk' Hg') as (g0' & Hk0' & Hg0' & _). eauto.
  - intros k c' e Hk. rewrite length_app. simpl.
    destruct (Hback k _ c' Hk eq_refl) as (g0 & Hk0 & Hg0 & Hsame).
    destruct (decide (k = i)) as [->|Hne].
    + rewrite list_lookup_insert_eq in Hk.
      * injection Hk as _ <-. lia.
      * rewrite length_app. apply lookup_lt_Some in Hi. lia.
    + rewrite (Hsame Hne) in Hk0. apply E in Hk0. lia.
  - intros k k' c1 c2 e Hk Hk'.
    destruct (Hback k _ c1 Hk eq_refl) as (g0 & Hk0 & Hg0 & Hsame).
    destruct (Hback k' _ c2 Hk' eq_refl) as (g0' & Hk0' & Hg0' & Hsame').
    assert (forall n c0 c0', pool w !! n = Some (GSelect c0 e) ->
            <[i := GSelect c (length (chans w))]>
              (pool w ++ [GWork (accountID c) (ID (job c))
                                (length (chans w)) work]) !! i
              = Some (GSelect c0' e) -> False) as Hfresh.
    { intros n c0 c0' Hold Hnew. rewrite list_lookup_insert_eq in Hnew.
      - injection Hnew as _ <-. apply E in Hold. lia.
      - rewrite length_app. apply lookup_lt_Some in Hi. lia. }
    destruct (decide (k = i)) as [->|Hne], (decide (k' = i)) as [->|Hne'];
      [done | | |].
    + rewrite (Hsame' Hne') in Hk0'. destruct (Hfresh _ _ _ Hk0' Hk).
    + rewrite (Hsame Hne) in Hk0. destruct (Hfresh _ _ _ Hk0 Hk').
    + rewrite (Hsame Hne) in Hk0. rewrite (Hsame' Hne') in Hk0'. eauto.
Qed.


(** *** ExecuteWithinJob, case by case *)

Lemma ExecuteWithinJob_found ctx acc ex desc work w j :
  store w !! (acc, ex) = Some j ->
  ExecuteWithinJob ctx acc ex desc work w =
    ((ID j, Some (length (chans w)), None),
     spawned (mkCall ctx acc ex desc j (length (chans w))) work w).
Proof.
  intros H. unfold ExecuteWithinJob, bind, repo_Get. by rewrite H.
Qed.

Lemma ExecuteWithinJob_save_failed ctx acc ex desc work w e later :
  store w !! (acc, ex) = None ->
  save_faults w = Some e :: later ->
  ExecuteWithinJob ctx acc ex desc work w =
    ((NilJobID, None, Some e),
     set_repo (store w) later (set_drawn (S (drawn w)) w)).
Proof.
  intros H F. unfold ExecuteWithinJob, saveJob, bind, repo_Get, repo_Save.
  rewrite H. simpl. by rewrite F.
Qed.

Lemma ExecuteWithinJob_saved ctx acc ex desc work w :
  store w !! (acc, ex) = None ->
  head (save_faults w) = None \/ head (save_faults w) = Some None ->
  ExecuteWithinJob ctx acc ex desc work w =
    ((uuids w (drawn w), Some (length (chans w)), None),
     spawned (mkCall ctx acc ex desc (new_job acc desc w)
                     (length (chans w))) work
       (set_repo (<[(acc, uuids w (drawn w)) := new_job acc desc w]> (store w))
                 (tail (save_faults w)) (set_drawn (S (drawn w)) w))).
Proof.
  intros H F. unfold ExecuteWithinJob, saveJob, bind, repo_Get, repo_Save.
  rewrite H. simpl.
  destruct (save_faults w) as [|[e|] later]; simpl in *; try done.
  by destruct F.
Qed.

Lemma Inv_spawned w c work :
  Inv w ->
  is_Some (store w !! (accountID c, ID (job c))) ->
  done c = length (chans w) ->
  Inv (spawned c work w).
Proof.
  intros [K R D O E U] Hrec Hdone.
  assert (forall k g c', (pool w ++ [GSupervise c work]) !! k = Some g ->
            live g = Some c' ->
            (pool w !! k = Some g /\ (done c' < length (chans w))%nat) \/
            (k = length (pool w) /\ c' = c)) as Hback.
  { intros k g c' Hk Hg.
    apply lookup_snoc_Some in Hk as [[_ Hk] | [-> <-]].
    - left. split; [done |]. pose proof (D _ _ _ Hk Hg) as Hd.
      by apply lookup_lt_Some in Hd.
    - right. split; [done |]. by injection Hg as <-. }
  split; simpl.
  - done.
  - intros k g c' Hk Hg.
    destruct (Hback _ _ _ Hk Hg) as [[Hk0 _] | [-> ->]]; eauto.
  - intros k g c' Hk Hg.
    destruct (Hback _ _ _ Hk Hg) as [[Hk0 Hlt] | [-> ->]].
    + rewrite lookup_app_l; eauto.
    + rewrite Hdone. rewrite lookup_app_r; [| lia].
      by rewrite Nat.sub_diag.
  - intros k k' g g' c1 c2 Hk Hk' Hg Hg' Hd.
    destruct (Hback _ _ _ Hk Hg) as [[Hk0 Hlt] | [-> ->]],
             (Hback _ _ _ Hk' Hg') as [[Hk0' Hlt'] | [-> ->]];
      [eauto | lia | lia | done].
  - intros k c' e Hk. rewrite length_app. simpl.
    destruct (Hback _ _ _ Hk eq_refl) as [[Hk0 _] | [-> _]].
    + apply E in Hk0. lia.
    + rewrite lookup_app_r in Hk; [| lia]. by rewrite Nat.sub_diag in Hk.
  - intros k k' c1 c2 e Hk Hk'.
    apply lookup_snoc_Some in Hk as [[_ Hk] | [_ ?]]; [| done].
    apply lookup_snoc_Some in Hk' as [[_ Hk'] | [_ ?]]; [| done]. eauto.
Qed.

Lemma Inv_call ctx acc ex desc work w :
  Inv w -> Inv (run (ExecuteWithinJob ctx acc ex desc work) w).
Proof.
  intros HI. unfold run.
  destruct (store w !! (acc, ex)) as [j|] eqn:Hj.
  - rewrite (ExecuteWithinJob_found _ _ _ _ _ _ _ Hj). simpl.
    apply Inv_spawned; [done | | done]. simpl.
    destruct (keyed w HI _ _ _ Hj) as [_ ->]. by rewrite Hj.
  - destruct (save_faults w) as [|[e|] later] eqn:F.
    + rewrite ExecuteWithinJob_saved; [| done | left; by rewrite F]. simpl.
      apply Inv_spawned; simpl; [| by rewrite lookup_insert_eq | done].
      apply (Inv_survives w _ HI); simpl;
        [apply survives_refl | | done | done].
      apply (store_grows_insert _ (new_job acc desc w)).
    + rewrite (ExecuteWithinJob_save_failed _ _ _ _ _ _ _ _ Hj F). simpl.
      apply (Inv_survives w _ HI); simpl;
        [apply survives_refl | apply store_grows_refl | done | done].
    + rewrite ExecuteWithinJob_saved; [| done | right; by rewrite F]. simpl.
      apply Inv_spawned; simpl; [| by rewrite lookup_insert_eq | done].
      apply (Inv_survives w _ HI); simpl;
        [apply survives_refl | | done | done].
      apply (store_grows_insert _ (new_job acc desc w)).
Qed.


(** *** Every step keeps the invariant *)

Lemma Inv_initial w : initial w -> Inv w.
Proof.
  intros (K & P & C). split; try done; rewrite P; intros; done.
Qed.

Lemma Inv_recv_done w ch w' :
  Inv w -> snd <$> recv (Some ch) w = Some w' -> Inv w'.
Proof.
  intros HI H. unfold recv in H.
  destruct (chans w !! ch) as [[k [|v later]]|] eqn:Hch; try done.
  simpl in H. injection H as <-.
  apply (Inv_survives w _ HI); simpl.
  - apply survives_refl.
  - apply store_grows_refl.
  - by rewrite length_insert.
  - intros i g c Hi Hg. apply list_lookup_insert_ne. intros ->.
    rewrite (done_empty w HI _ _ _ Hi Hg) in Hch. done.
Qed.

Lemma step_Inv a w w' : Inv w -> step a w = Some w' -> Inv w'.
Proof.
  intros HI H. destruct a; simpl in H.
  - injection H as <-. by apply Inv_call.
  - injection H as <-. apply Inv_quietly; [auto with quiet | done].
  - injection H as <-. apply Inv_quietly; [auto with quiet | done].
  - injection H as <-. apply (Inv_survives w _ HI); simpl;
      [apply survives_refl | apply store_grows_refl | done | done].
  - injection H as <-. apply (Inv_survives w _ HI); simpl;
      [apply survives_refl | apply store_grows_refl | done | done].
  - destruct (pool w !! i) as [[c work| | | |]|] eqn:Hi; try done.
    injection H as <-. by apply Inv_start.
  - destruct (pool w !! i) as [[| |acc txID err [[|op later] [e|]]| |]|]
      eqn:Hi; try done; injection H as <-.
    + by apply Inv_exit.
    + rewrite run_bind. apply Inv_exit; [done |].
      apply Inv_quietly; [apply quietly_work_op | done].
    + rewrite run_bind. apply Inv_exit; [done |].
      apply Inv_quietly; [apply quietly_work_op | done].
  - destruct (pool w !! i) as [[|c err| | |]|] eqn:Hi; try done.
    destruct (pool w !! j) as [[| | |err' e|]|] eqn:Hj; try done.
    destruct (err =? err')%nat; [| done]. injection H as <-.
    rewrite run_bind, run_bind.
    apply Inv_supervise with (err := err); [by apply Inv_exit |].
    simpl. rewrite list_lookup_insert_ne; [done |].
    intros ->. congruence.
  - destruct (pool w !! i) as [[|c err| | |]|] eqn:Hi; try done.
    case_bool_decide; [| done]. injection H as <-.
    rewrite run_bind. by apply Inv_supervise with (err := err).
  - by apply (Inv_recv_done w ch).
Qed.

Theorem reachable_Inv w : reachable w -> Inv w.
Proof.
  induction 1 as [w Hw | a w w' _ IH Hstep].
  - by apply Inv_initial.
  - by apply (step_Inv a w).
Qed.

Lemma steps_Inv acts w w' : Inv w -> steps acts w = Some w' -> Inv w'.
Proof.
  revert w. induction acts as [|a acts IH]; intros w HI H; simpl in H.
  - by injection H as <-.
  - destruct (step a w) as [w1|] eqn:Ha; [| done].
    eapply IH; [| exact H]. by apply (step_Inv a w).
Qed.

Lemma steps_reachable acts w w' :
  reachable w -> steps acts w = Some w' -> reachable w'.
Proof.
  revert w. induction acts as [|a acts IH]; intros w HI H; simpl in H.
  - by injection H as <-.
  - destruct (step a w) as [w1|] eqn:Ha; [| done].
    eapply IH; [| exact H]. by apply (reach_step a w).
Qed.


End Invariant.

(** ** The supervising goroutine, case by case *)

Module Finalize.
Import Vocabulary Time Errors Jobs JobsV1 Frame Invariant.

Ltac crunch :=
  unfold finalize, supervise, notify, send_done, UpdateTaskStatus,
    UpdateJobWithValue, GetJob, saveJob, repo_Save, repo_Get,
    notifier_Send, NewLog, Now, log_Error, log_line, bind, ret, run, value,
    stored_after_save, next_save in *;
  simpl in *.

Lemma repo_Save_effect j w :
  value (repo_Save j) w = next_save w /\
  store (run (repo_Save j) w) = stored_after_save j w /\
  save_faults (run (repo_Save j) w) = tail (save_faults w).
Proof. crunch. by destruct (save_faults w) as [|[e|] later]. Qed.

Lemma finalize_reported c e w tempJob :
  store w !! (accountID c, ID (job c)) = Some tempJob ->
  value (finalize c (Reported e)) w =
    (match next_save w with
     | Some es => AppendError e (Some es)
     | None => wrapped c e
     end, Some (reconciled c e (clock w) tempJob)) /\
  store (run (finalize c (Reported e)) w)
    = stored_after_save (reconciled c e (clock w) tempJob) w /\
  clock (run (finalize c (Reported e)) w) = clock w /\
  sent (run (finalize c (Reported e)) w) = sent w /\
  send_faults (run (finalize c (Reported e)) w) = send_faults w.
Proof.
  intros H. crunch. rewrite H.
  destruct e as [e'|]; simpl;
    [| destruct (JobIDEqual (existingJobID c) NilJobID)];
    destruct (save_faults w) as [|[es|] later]; done.
Qed.

Lemma finalize_cancelled c w tempJob :
  store w !! (accountID c, ID (job c)) = Some tempJob ->
  value (finalize c CtxDone) w =
    (next_save w,
     Some (setLogs (Logs tempJob ++ [cancellation_entry c (clock w)])
                   tempJob)) /\
  store (run (finalize c CtxDone) w)
    = stored_after_save
        (setLogs (Logs tempJob ++ [cancellation_entry c (clock w)]) tempJob)
        w /\
  clock (run (finalize c CtxDone) w) = clock w /\
  sent (run (finalize c CtxDone) w) = sent w /\
  send_faults (run (finalize c CtxDone) w) = send_faults w.
Proof.
  intros H. crunch. rewrite H. simpl.
  destruct (save_faults w) as [|[es|] later]; done.
Qed.

Lemma finalize_not_found c sig w :
  store w !! (accountID c, ID (job c)) = None ->
  snd (value (finalize c sig) w) = None /\
  store (run (finalize c sig) w) = store w.
Proof. intros H. destruct sig; crunch; by rewrite H. Qed.

(** *** What the supervising goroutine sends *)

Lemma keeps_ret {A X} (f : World -> X) (a : A) : keeps f (ret a).
Proof. by intros w. Qed.

Lemma keeps_bind {A B X} (f : World -> X) (m : M A) (k : A -> M B) :
  keeps f m -> (forall a, keeps f (k a)) -> keeps f (bind m k).
Proof. intros Hm Hk w. rewrite run_bind, Hk. apply Hm. Qed.

(** Takes monadic code apart, and computes at the collaborators. *)
Ltac keep :=
  repeat first
    [ apply keeps_ret
    | apply keeps_bind; [| intros ?]
    | match goal with
      | |- keeps _ (match ?x with _ => _ end) => destruct x
      | |- keeps _ (if ?b then _ else _) => destruct b
      | |- keeps _ (let '(_, _) := ?x in _) => destruct x
      end
    | solve [ intros w; unfold run, repo_Get, repo_Save, log_Error,
                log_line, Now, NewJobID, NewLog, saveJob, bind, ret;
              simpl; repeat case_match; reflexivity ] ].

Lemma finalize_keeps_sent c sig : keeps sent (finalize c sig).
Proof. unfold finalize. keep. Qed.

Lemma finalize_keeps_clock c sig : keeps clock (finalize c sig).
Proof. unfold finalize. keep. Qed.

Lemma finalize_keeps_send_faults c sig : keeps send_faults (finalize c sig).
Proof. unfold finalize. keep. Qed.

Lemma notify_effect c mJob w :
  sent (run (notify c mJob) w) = sent_after c mJob w /\
  store (run (notify c mJob) w) = store w /\
  save_faults (run (notify c mJob) w) = save_faults w /\
  chans (run (notify c mJob) w) = chans w.
Proof.
  unfold sent_after, completion. destruct mJob as [j|]; [| done]. crunch.
  destruct (JobIDEqual (existingJobID c) NilJobID); [| done].
  destruct (last (Logs j)) as [l|]; simpl;
    by destruct (send_faults w) as [|[e|] later].
Qed.

(** The whole of the goroutine, from its select on, in a world where
    its done channel is as [ExecuteWithinJob] made it. *)
Lemma supervise_summary c sig w :
  chans w !! done c = Some (mkChan 1 []) ->
  store (run (supervise c sig) w) = store (run (finalize c sig) w) /\
  save_faults (run (supervise c sig) w)
    = save_faults (run (finalize c sig) w) /\
  chans (run (supervise c sig) w)
    = <[done c := mkChan 1 [fst (value (finalize c sig) w)]]> (chans w) /\
  sent (run (supervise c sig) w)
    = sent_after c (snd (value (finalize c sig) w)) w.
Proof.
  intros Hd. unfold supervise. rewrite run_bind.
  pose proof (finalize_keeps_sent c sig w) as Hs.
  pose proof (finalize_keeps_clock c sig w) as Ht.
  destruct (quietly_finalize c sig w) as (_ & C1 & _ & _).
  destruct (value (finalize c sig) w) as [doneErr mJob]. simpl fst; simpl snd.
  rewrite run_bind.
  set (w1 := run (finalize c sig) w) in *.
  assert (run (send_done (done c) doneErr) w1
          = set_chans (<[done c := mkChan 1 [doneErr]]> (chans w)) w1) as ->.
  { unfold run, send_done. by rewrite C1, Hd. }
  destruct (notify_effect c mJob
              (set_chans (<[done c := mkChan 1 [doneErr]]> (chans w)) w1))
    as (-> & -> & -> & ->).
  split_and!; try done.
  unfold sent_after. simpl. by rewrite Hs, Ht.
Qed.

Lemma reconciled_key c e t tempJob :
  jDID (reconciled c e t tempJob) = jDID tempJob /\
  ID (reconciled c e t tempJob) = ID tempJob.
Proof.
  unfold reconciled. destruct e; [done |].
  by destruct (JobIDEqual (existingJobID c) NilJobID).
Qed.

(** In a world the program can reach, the reload of a supervised call
    finds the record, under the key its own fields give. *)
Lemma reload_finds w i g c :
  Inv w -> pool w !! i = Some g -> live g = Some c ->
  exists tempJob,
    store w !! (accountID c, ID (job c)) = Some tempJob /\
    jDID tempJob = accountID c /\ ID tempJob = ID (job c).
Proof.
  intros HI Hi Hg. destruct (has_record w HI i g c Hi Hg) as [tempJob Ht].
  exists tempJob. split; [done |]. exact (keyed w HI _ _ _ Ht).
Qed.

Lemma finalize_found c sig w tempJob :
  store w !! (accountID c, ID (job c)) = Some tempJob ->
  value (finalize c sig) w
    = (done_error c sig w, Some (finalized c sig (clock w) tempJob)) /\
  store (run (finalize c sig) w)
    = stored_after_save (finalized c sig (clock w) tempJob) w.
Proof.
  intros H. destruct sig as [e|].
  - by destruct (finalize_reported c e w tempJob H) as (-> & -> & _).
  - by destruct (finalize_cancelled c w tempJob H) as (-> & -> & _).
Qed.

Lemma supervise_found c sig w tempJob :
  chans w !! done c = Some (mkChan 1 []) ->
  store w !! (accountID c, ID (job c)) = Some tempJob ->
  store (run (supervise c sig) w)
    = stored_after_save (finalized c sig (clock w) tempJob) w /\
  chans (run (supervise c sig) w)
    = <[done c := mkChan 1 [done_error c sig w]]> (chans w) /\
  sent (run (supervise c sig) w)
    = sent_after c (Some (finalized c sig (clock w) tempJob)) w /\
  pool (run (supervise c sig) w) = pool w.
Proof.
  intros Hd H.
  destruct (supervise_summary c sig w Hd) as (-> & _ & -> & ->).
  destruct (finalize_found c sig w tempJob H) as (-> & ->).
  by destruct (supervise_effect c sig w) as (-> & _).
Qed.

Lemma ExecuteWithinJob_keeps_sent cx acc ex dsc work :
  keeps sent (ExecuteWithinJob cx acc ex dsc work).
Proof.
  unfold ExecuteWithinJob, NewJob. keep; by intros w.
Qed.

Lemma UpdateTaskStatus_keeps_sent acc id st tn msg :
  keeps sent (UpdateTaskStatus acc id st tn msg).
Proof. unfold UpdateTaskStatus, GetJob. keep. Qed.

Lemma UpdateJobWithValue_keeps_sent acc id key v :
  keeps sent (UpdateJobWithValue acc id key v).
Proof. unfold UpdateJobWithValue, GetJob. keep. Qed.

(** The select of goroutine [i] fires on [sig], in a world [w0] that
    differs from [w] in nothing the goroutine reads. *)
Lemma select_fires w w0 i c err sig :
  Inv w -> pool w !! i = Some (GSelect c err) ->
  store w0 = store w -> save_faults w0 = save_faults w ->
  clock w0 = clock w -> sent w0 = sent w -> chans w0 = chans w ->
  exists tempJob,
    store w !! (accountID c, ID (job c)) = Some tempJob /\
    jDID tempJob = accountID c /\ ID tempJob = ID (job c) /\
    store (run (set_goroutine i GExit) (run (supervise c sig) w0))
      = stored_after_save (finalized c sig (clock w) tempJob) w /\
    chans (run (set_goroutine i GExit) (run (supervise c sig) w0))
      = <[done c := mkChan 1 [done_error c sig w]]> (chans w) /\
    sent (run (set_goroutine i GExit) (run (supervise c sig) w0))
      = sent_after c (Some (finalized c sig (clock w) tempJob)) w /\
    pool (run (set_goroutine i GExit) (run (supervise c sig) w0))
      = <[i := GExit]> (pool w0).
Proof.
  intros HI Hi S F T N C.
  destruct (reload_finds w i _ c HI Hi eq_refl) as (tempJob & Ht & Hd & Hid).
  exists tempJob. split_and!; try done; simpl.
  all: destruct (supervise_found c sig w0 tempJob) as (E1 & E2 & E3 & E4);
    [ rewrite C; exact (done_empty w HI i _ c Hi eq_refl)
    | by rewrite S | ].
  - rewrite E1. unfold stored_after_save, next_save. by rewrite S, F, T.
  - rewrite E2, C. unfold done_error, next_save. by rewrite F.
  - rewrite E3. unfold sent_after. by rewrite N, T.
  - by rewrite E4.
Qed.

Lemma finalized_key c sig t tempJob :
  jDID (finalized c sig t tempJob) = jDID tempJob /\
  ID (finalized c sig t tempJob) = ID tempJob.
Proof. destruct sig; [apply reconciled_key | done]. Qed.

(** The Sender's coming results are not in what the invariant speaks
    of. *)
Lemma Inv_set_sender w m f : Inv w -> Inv (set_sender m f w).
Proof.
  intros HI. apply (Inv_survives w _ HI); simpl;
    [apply survives_refl | apply store_grows_refl | done | done].
Qed.

(** What the goroutine of a call does when the work function reports the
    error [e]: the record it reloaded is saved with one more log entry,
    named by the tag of the call and carrying the text of [e], and with
    Status Failed; unless that Save fails, the done channel receives the
    error whose text is the tag, a space and the text of [e], put
    through the formatter as a format. *)
Lemma work_reports_error w i j c err e :
  reachable w ->
  pool w !! i = Some (GSelect c err) ->
  pool w !! j = Some (GSend err (Some e)) ->
  exists tempJob w',
    step (ARecv i j) w = Some w' /\
    store w !! (accountID c, ID (job c)) = Some tempJob /\
    store w' =
      match next_save w with
      | Some _ => store w
      | None =>
          <[(accountID c, ID (job c)) :=
              setStatus Failed
                (setLogs (Logs tempJob ++
                          [mkLog (tag c) (Text e) (UTC (clock w))])
                         tempJob)]> (store w)
      end /\
    chans w' !! done c =
      Some (mkChan 1
              [match next_save w with
               | Some es => AppendError (Some e) (Some es)
               | None =>
                   Some (ErrNew (Fmt.Sprintf0 (tag c +:+ " " +:+ Text e)))
               end]).
Proof.
  intros Hr Hi Hj. pose proof (reachable_Inv w Hr) as HI.
  destruct (select_fires w (run (set_goroutine j GExit) w) i c err
              (Reported (Some e)) HI Hi)
    as (tempJob & Ht & Hd & Hid & E1 & E2 & _); try done.
  exists tempJob. eexists. split.
  { simpl. rewrite Hi, Hj, Nat.eqb_refl. reflexivity. }
  split; [done |]. rewrite run_bind, run_bind. split.
  - rewrite E1. unfold stored_after_save. simpl. by rewrite Hd, Hid.
  - rewrite E2. apply list_lookup_insert_eq.
    pose proof (done_empty w HI i _ c Hi eq_refl) as He.
    by apply lookup_lt_Some in He.
Qed.

(** When neither the description nor the error has a percent sign in
    it, the wrapped error reads as meant and has both in it. *)
Lemma wrapped_reads_as_meant c e :
  Str.contains "%" (tag c +:+ " " +:+ Text e) = false ->
  Fmt.Sprintf0 (tag c +:+ " " +:+ Text e) = tag c +:+ " " +:+ Text e /\
  Str.contains (tag c) (tag c +:+ " " +:+ Text e) = true /\
  Str.contains (Text e) (tag c +:+ " " +:+ Text e) = true.
Proof.
  intros H. split; [by apply StrFacts.Sprintf0_plain |]. split.
  - apply StrFacts.contains_here.
  - apply StrFacts.contains_later, StrFacts.contains_end.
Qed.

End Finalize.

(** ** Who listens on an error channel *)

Module Listening.
Import Vocabulary Time Errors Jobs JobsV1 Frame Invariant Finalize.

Lemma step_chans_length a w w' :
  step a w = Some w' -> (length (chans w) <= length (chans w'))%nat.
Proof.
  intros H.
  destruct a as [cx acc ex dsc work | acc id status taskName message | acc id key value | cx | t | i | i | i j | i | ch];
    simpl in H.
  - injection H as <-. unfold run.
    destruct (store w !! (acc, ex)) as [j|] eqn:Hj.
    + rewrite (ExecuteWithinJob_found _ _ _ _ _ _ _ Hj). simpl.
      rewrite length_app. lia.
    + destruct (save_faults w) as [|[e|] later] eqn:F.
      * rewrite ExecuteWithinJob_saved; [| done | left; by rewrite F].
        simpl. rewrite length_app. lia.
      * by rewrite (ExecuteWithinJob_save_failed _ _ _ _ _ _ _ _ Hj F).
      * rewrite ExecuteWithinJob_saved; [| done | right; by rewrite F].
        simpl. rewrite length_app. lia.
  - injection H as <-.
    destruct (quietly_UpdateTaskStatus acc id status taskName message w)
      as (_ & -> & _). done.
  - injection H as <-.
    destruct (quietly_UpdateJobWithValue acc id key value w)
      as (_ & -> & _). done.
  - by injection H as <-.
  - by injection H as <-.
  - destruct (pool w !! i) as [[c work| | | |]|]; try done.
    injection H as <-. unfold run, bind. simpl. rewrite length_app. lia.
  - destruct (pool w !! i) as [[| |acc txID err [[|op later] [e|]]| |]|];
      try done; injection H as <-; [done | |]; rewrite run_bind;
      destruct (quietly_work_op acc txID op w) as (_ & C & _);
      simpl; by rewrite C.
  - destruct (pool w !! i) as [[|c err| | |]|]; try done.
    destruct (pool w !! j) as [[| | |err' e|]|]; try done.
    destruct (err =? err')%nat; [| done]. injection H as <-.
    rewrite run_bind, run_bind. simpl.
    destruct (supervise_effect c (Reported e) (run (set_goroutine j GExit) w))
      as (_ & _ & _ & ->).
    by rewrite offered_length.
  - destruct (pool w !! i) as [[|c err| | |]|]; try done.
    case_bool_decide; [| done]. injection H as <-. rewrite run_bind. simpl.
    destruct (supervise_effect c CtxDone w) as (_ & _ & _ & ->).
    by rewrite offered_length.
  - unfold recv in H.
    destruct (chans w !! ch) as [[k [|v later]]|]; try done.
    injection H as <-. simpl. by rewrite length_insert.
Qed.

(** A goroutine found in a select after a step was in that select
    before it, or has just made its error channel. *)
Lemma step_selects a w w' k c e :
  step a w = Some w' ->
  pool w' !! k = Some (GSelect c e) ->
  pool w !! k = Some (GSelect c e) \/ e = length (chans w).
Proof.
  intros H Hk.
  destruct a as [cx acc ex dsc work | acc id status taskName message | acc id key value | cx | t | i | i | i j | i | ch];
    simpl in H.
  - injection H as <-. unfold run in Hk.
    destruct (store w !! (acc, ex)) as [j|] eqn:Hj.
    + rewrite (ExecuteWithinJob_found _ _ _ _ _ _ _ Hj) in Hk. simpl in Hk.
      apply lookup_snoc_Some in Hk as [[_ Hk] | [_ ?]]; [by left | done].
    + destruct (save_faults w) as [|[e'|] later] eqn:F.
      * rewrite ExecuteWithinJob_saved in Hk; [| done | left; by rewrite F].
        simpl in Hk.
        apply lookup_snoc_Some in Hk as [[_ Hk] | [_ ?]]; [by left | done].
      * rewrite (ExecuteWithinJob_save_failed _ _ _ _ _ _ _ _ Hj F) in Hk.
        by left.
      * rewrite ExecuteWithinJob_saved in Hk; [| done | right; by rewrite F].
        simpl in Hk.
        apply lookup_snoc_Some in Hk as [[_ Hk] | [_ ?]]; [by left | done].
  - injection H as <-.
    destruct (quietly_UpdateTaskStatus acc id status taskName message w)
      as (P & _). rewrite P in Hk. by left.
  - injection H as <-.
    destruct (quietly_UpdateJobWithValue acc id key value w)
      as (P & _). rewrite P in Hk. by left.
  - injection H as <-. by left.
  - injection H as <-. by left.
  - destruct (pool w !! i) as [[c0 work| | | |]|]; try done.
    injection H as <-. unfold run, bind in Hk. simpl in Hk.
    apply list_lookup_insert_Some in Hk as [(_ & Hg & _) | (_ & Hk)].
    + injection Hg as _ <-. by right.
    + apply lookup_snoc_Some in Hk as [[_ Hk] | [_ ?]]; [by left | done].
  - destruct (pool w !! i) as [[| |acc txID err [[|op later] [e0|]]| |]|];
      try done; injection H as <-.
    + simpl in Hk.
      apply list_lookup_insert_Some in Hk as [(_ & ? & _) | (_ & Hk)];
        [done | by left].
    + rewrite run_bind in Hk. simpl in Hk.
      destruct (quietly_work_op acc txID op w) as (P & _). rewrite P in Hk.
      apply list_lookup_insert_Some in Hk as [(_ & ? & _) | (_ & Hk)];
        [done | by left].
    + rewrite run_bind in Hk. simpl in Hk.
      destruct (quietly_work_op acc txID op w) as (P & _). rewrite P in Hk.
      apply list_lookup_insert_Some in Hk as [(_ & ? & _) | (_ & Hk)];
        [done | by left].
  - destruct (pool w !! i) as [[|c0 err| | |]|]; try done.
    destruct (pool w !! j) as [[| | |err' e0|]|]; try done.
    destruct (err =? err')%nat; [| done]. injection H as <-.
    rewrite run_bind, run_bind in Hk. simpl in Hk.
    destruct (supervise_effect c0 (Reported e0)
                (run (set_goroutine j GExit) w)) as (P & _).
    rewrite P in Hk. simpl in Hk.
    apply list_lookup_insert_Some in Hk as [(_ & ? & _) | (_ & Hk)];
      [done |].
    apply list_lookup_insert_Some in Hk as [(_ & ? & _) | (_ & Hk)];
      [done | by left].
  - destruct (pool w !! i) as [[|c0 err| | |]|]; try done.
    case_bool_decide; [| done]. injection H as <-.
    rewrite run_bind in Hk. simpl in Hk.
    destruct (supervise_effect c0 CtxDone w) as (P & _). rewrite P in Hk.
    apply list_lookup_insert_Some in Hk as [(_ & ? & _) | (_ & Hk)];
      [done | by left].
  - unfold recv in H.
    destruct (chans w !! ch) as [[n [|v later]]|]; try done.
    injection H as <-. by left.
Qed.

Lemma steps_unheard acts w w' err :
  (err < length (chans w))%nat -> ~ heard err w ->
  steps acts w = Some w' -> ~ heard err w'.
Proof.
  revert w. induction acts as [|a acts IH]; intros w Hlt Hno H; simpl in H.
  - by injection H as <-.
  - destruct (step a w) as [w1|] eqn:Ha; [| done].
    apply (IH w1); [| | done].
    + pose proof (step_chans_length _ _ _ Ha). lia.
    + intros (k & c & Hk).
      destruct (step_selects _ _ _ _ _ _ Ha Hk) as [Hold | ->]; [| lia].
      apply Hno. by exists k, c.
Qed.

(** Nobody listening: what a work function sends on [err] is never
    taken. *)
Lemma unheard_never_received w err k k' e :
  ~ heard err w -> pool w !! k' = Some (GSend err e) ->
  step (ARecv k k') w = None.
Proof.
  intros Hno Hk'. simpl. rewrite Hk'.
  destruct (pool w !! k) as [[|c err0| | |]|] eqn:Hk; try done.
  destruct (err0 =? err)%nat eqn:E; [| done].
  apply Nat.eqb_eq in E as ->. destruct Hno. by exists k, c.
Qed.

End Listening.

(** ** The log trail *)

Module Trail.
Import Vocabulary Time Errors Jobs JobsV1 Frame Invariant Finalize.

Lemma keeps_logs_refl s : keeps_logs s s.
Proof. intros k j H. by exists j. Qed.

Lemma keeps_logs_trans s1 s2 s3 :
  keeps_logs s1 s2 -> keeps_logs s2 s3 -> keeps_logs s1 s3.
Proof.
  intros H1 H2 k j H. destruct (H1 k j H) as (j1 & Hj1 & P1).
  destruct (H2 k j1 Hj1) as (j2 & Hj2 & P2). exists j2.
  split; [done |]. by etrans.
Qed.

(** Saving a record read from the repository, with a longer log. *)
Lemma keeps_logs_save s acc id tx tx' :
  well_keyed s -> s !! (acc, id) = Some tx ->
  jDID tx' = jDID tx -> ID tx' = ID tx ->
  Logs tx `prefix_of` Logs tx' ->
  keeps_logs s (<[(jDID tx', ID tx') := tx']> s).
Proof.
  intros K H Hd Hi P k j Hk. destruct (K _ _ _ H) as [Ha Hb].
  rewrite Hd, Hi, Ha, Hb. destruct (decide (k = (acc, id))) as [->|Hne].
  - rewrite lookup_insert_eq. exists tx'. split; [done |]. congruence.
  - rewrite lookup_insert_ne by done. by exists j.
Qed.

(** Saving a record under a key that was free. *)
Lemma keeps_logs_new s j :
  s !! (jDID j, ID j) = None -> keeps_logs s (<[(jDID j, ID j) := j]> s).
Proof.
  intros H k j0 Hk. destruct (decide (k = (jDID j, ID j))) as [->|Hne].
  - congruence.
  - rewrite lookup_insert_ne by done. by exists j0.
Qed.

Lemma keeps_logs_after_save w acc id tx tx' :
  well_keyed (store w) -> store w !! (acc, id) = Some tx ->
  jDID tx' = jDID tx -> ID tx' = ID tx ->
  Logs tx `prefix_of` Logs tx' ->
  keeps_logs (store w) (stored_after_save tx' w).
Proof.
  intros. unfold stored_after_save. destruct (next_save w).
  - apply keeps_logs_refl.
  - by apply (keeps_logs_save _ acc id tx).
Qed.

Lemma UpdateTaskStatus_found w acc id status taskName message tx :
  store w !! (acc, id) = Some tx ->
  value (UpdateTaskStatus acc id status taskName message) w = next_save w /\
  store (run (UpdateTaskStatus acc id status taskName message) w)
    = stored_after_save (task_updated status taskName message (clock w) tx) w
  /\
  save_faults (run (UpdateTaskStatus acc id status taskName message) w)
    = tail (save_faults w) /\
  clock (run (UpdateTaskStatus acc id status taskName message) w) = clock w.
Proof.
  intros H. crunch. rewrite H. simpl.
  by destruct (save_faults w) as [|[e|] later].
Qed.

Lemma UpdateTaskStatus_not_found w acc id status taskName message :
  store w !! (acc, id) = None ->
  value (UpdateTaskStatus acc id status taskName message) w
    = Some ErrNotFound /\
  run (UpdateTaskStatus acc id status taskName message) w = w.
Proof. intros H. crunch. by rewrite H. Qed.

Lemma UpdateJobWithValue_found w acc id key v tx :
  store w !! (acc, id) = Some tx ->
  store (run (UpdateJobWithValue acc id key v) w)
    = stored_after_save
        (setValues (<[key := mkJobValue key v]> (Values tx)) tx) w.
Proof.
  intros H. crunch. rewrite H. simpl.
  by destruct (save_faults w) as [|[e|] later].
Qed.

Lemma UpdateJobWithValue_not_found w acc id key v :
  store w !! (acc, id) = None ->
  run (UpdateJobWithValue acc id key v) w = w.
Proof. intros H. crunch. by rewrite H. Qed.

Lemma UpdateTaskStatus_keeps_logs w acc id status taskName message :
  well_keyed (store w) ->
  keeps_logs (store w)
    (store (run (UpdateTaskStatus acc id status taskName message) w)).
Proof.
  intros K. destruct (store w !! (acc, id)) as [tx|] eqn:H.
  - destruct (UpdateTaskStatus_found w acc id status taskName message tx H)
      as (_ & -> & _).
    apply (keeps_logs_after_save w acc id tx); try done.
    by apply prefix_app_r.
  - destruct (UpdateTaskStatus_not_found w acc id status taskName message H)
      as (_ & ->). apply keeps_logs_refl.
Qed.

Lemma UpdateJobWithValue_keeps_logs w acc id key v :
  well_keyed (store w) ->
  keeps_logs (store w) (store (run (UpdateJobWithValue acc id key v) w)).
Proof.
  intros K. destruct (store w !! (acc, id)) as [tx|] eqn:H.
  - rewrite (UpdateJobWithValue_found w acc id key v tx H).
    by apply (keeps_logs_after_save w acc id tx).
  - rewrite (UpdateJobWithValue_not_found w acc id key v H).
    apply keeps_logs_refl.
Qed.

Lemma supervise_store c sig w :
  store (run (supervise c sig) w) = store (run (finalize c sig) w).
Proof.
  unfold supervise. rewrite run_bind.
  destruct (value (finalize c sig) w) as [doneErr mJob]. rewrite run_bind.
  destruct (notify_effect c mJob
              (run (send_done (done c) doneErr) (run (finalize c sig) w)))
    as (_ & -> & _).
  by destruct (send_done_effect (done c) doneErr (run (finalize c sig) w))
    as (_ & _ & -> & _).
Qed.

Lemma supervise_keeps_logs c sig w :
  well_keyed (store w) ->
  keeps_logs (store w) (store (run (supervise c sig) w)).
Proof.
  intros K. rewrite supervise_store.
  destruct (store w !! (accountID c, ID (job c))) as [tempJob|] eqn:H.
  - destruct sig as [e|].
    + destruct (finalize_reported c e w tempJob H) as (_ & -> & _).
      destruct (reconciled_key c e (clock w) tempJob) as [Hd Hi].
      apply (keeps_logs_after_save w (accountID c) (ID (job c)) tempJob);
        try done.
      unfold reconciled. destruct e as [e'|]; simpl.
      * by apply prefix_app_r.
      * by destruct (JobIDEqual (existingJobID c) NilJobID).
    + destruct (finalize_cancelled c w tempJob H) as (_ & -> & _).
      apply (keeps_logs_after_save w (accountID c) (ID (job c)) tempJob);
        try done.
      by apply prefix_app_r.
  - destruct (finalize_not_found c sig w H) as (_ & ->).
    apply keeps_logs_refl.
Qed.

Lemma step_keeps_logs a w w' :
  well_keyed (store w) ->
  (forall acc, store w !! (acc, uuids w (drawn w)) = None) ->
  step a w = Some w' ->
  keeps_logs (store w) (store w').
Proof.
  intros K Hnew H.
  destruct a as [cx acc ex dsc work | acc id status taskName message
                | acc id key value | cx | t | i | i | i j | i | ch];
    simpl in H.
  - injection H as <-. unfold run.
    destruct (store w !! (acc, ex)) as [j|] eqn:Hj.
    + rewrite (ExecuteWithinJob_found _ _ _ _ _ _ _ Hj). simpl.
      apply keeps_logs_refl.
    + destruct (save_faults w) as [|[e|] later] eqn:F.
      * rewrite ExecuteWithinJob_saved; [| done | left; by rewrite F].
        simpl. apply (keeps_logs_new _ (new_job acc dsc w)). apply Hnew.
      * rewrite (ExecuteWithinJob_save_failed _ _ _ _ _ _ _ _ Hj F).
        simpl. apply keeps_logs_refl.
      * rewrite ExecuteWithinJob_saved; [| done | right; by rewrite F].
        simpl. apply (keeps_logs_new _ (new_job acc dsc w)). apply Hnew.
  - injection H as <-. by apply UpdateTaskStatus_keeps_logs.
  - injection H as <-. by apply UpdateJobWithValue_keeps_logs.
  - injection H as <-. apply keeps_logs_refl.
  - injection H as <-. apply keeps_logs_refl.
  - destruct (pool w !! i) as [[c work| | | |]|]; try done.
    injection H as <-. apply keeps_logs_refl.
  - destruct (pool w !! i) as [[| |acc txID err [[|op later] [e|]]| |]|];
      try done; injection H as <-; [apply keeps_logs_refl | |];
      rewrite run_bind; simpl store;
      destruct op; simpl;
      first [by apply UpdateTaskStatus_keeps_logs
            | by apply UpdateJobWithValue_keeps_logs].
  - destruct (pool w !! i) as [[|c err| | |]|]; try done.
    destruct (pool w !! j) as [[| | |err' e|]|]; try done.
    destruct (err =? err')%nat; [| done]. injection H as <-.
    rewrite run_bind, run_bind. simpl store.
    by apply (supervise_keeps_logs c (Reported e)
                (run (set_goroutine j GExit) w)).
  - destruct (pool w !! i) as [[|c err| | |]|]; try done.
    case_bool_decide; [| done]. injection H as <-.
    rewrite run_bind. simpl store. by apply supervise_keeps_logs.
  - unfold recv in H.
    destruct (chans w !! ch) as [[n [|v later]]|]; try done.
    injection H as <-. apply keeps_logs_refl.
Qed.

(** *** Calls of UpdateTaskStatus, one after the other *)

Lemma sequential_calls acc id calls : forall w tx,
  store w !! (acc, id) = Some tx ->
  jDID tx = acc -> ID tx = id ->
  Forall (eq None) (save_faults w) ->
  exists w' tx',
    steps (in_sequence acc id calls) w = Some w' /\
    store w' !! (acc, id) = Some tx' /\
    Logs tx' = Logs tx ++ map entry_of calls.
Proof.
  induction calls as [|tc calls IH]; intros w tx H Hd Hi F.
  - exists w, tx. by rewrite app_nil_r.
  - set (tx1 := task_updated (with_status tc) (with_name tc)
                  (with_message tc) (made_at tc) tx).
    set (w1 := run (UpdateTaskStatus acc id (with_status tc) (with_name tc)
                      (with_message tc)) (set_clock (made_at tc) w)).
    destruct (UpdateTaskStatus_found (set_clock (made_at tc) w) acc id
                (with_status tc) (with_name tc) (with_message tc) tx H)
      as (_ & Hs & Hf & _).
    fold w1 in Hs, Hf. simpl clock in Hs. fold tx1 in Hs.
    assert (store w1 = <[(acc, id) := tx1]> (store w)) as Hs1.
    { rewrite Hs. unfold stored_after_save, next_save. simpl.
      destruct (save_faults w) as [|e later]; [by rewrite Hd, Hi |].
      apply Forall_cons in F as [<- _]. by rewrite Hd, Hi. }
    destruct (IH w1 tx1) as (w' & tx' & Hrun & Hlook & Hlogs); try done.
    + rewrite Hs1. apply lookup_insert_eq.
    + rewrite Hf. simpl. destruct (save_faults w); [done |].
      by apply Forall_cons in F as [_ F].
    + exists w', tx'. split; [exact Hrun |]. split; [done |].
      rewrite Hlogs. simpl. by rewrite <- app_assoc.
Qed.

End Trail.

(** ** The done channel *)

Module DoneChannel.
Import Vocabulary Time Errors Jobs JobsV1 Frame Invariant Finalize.

Lemma sup_insert_dead p i g k c :
  live g = None -> sup (<[i := g]> p) k c <-> sup p k c /\ k <> i.
Proof.
  intros Hg. unfold sup. split.
  - intros (g' & Hk & Hl).
    apply list_lookup_insert_Some in Hk as [(-> & <- & _) | (Hne & Hk)];
      [congruence | eauto].
  - intros [(g' & Hk & Hl) Hne]. exists g'. split; [| done].
    by rewrite list_lookup_insert_ne.
Qed.

Lemma sup_insert_same p i g0 g k c :
  p !! i = Some g0 -> live g0 = live g ->
  sup (<[i := g]> p) k c <-> sup p k c.
Proof.
  intros Hi Hg. unfold sup. split.
  - intros (g' & Hk & Hl).
    apply list_lookup_insert_Some in Hk as [(-> & <- & _) | (Hne & Hk)].
    + exists g0. split; [done | congruence].
    + eauto.
  - intros (g' & Hk & Hl). destruct (decide (i = k)) as [->|Hne].
    + exists g. rewrite list_lookup_insert_eq
        by (by apply lookup_lt_Some in Hi). split; [done | congruence].
    + exists g'. by rewrite list_lookup_insert_ne.
Qed.

Lemma sup_snoc p g k c :
  sup (p ++ [g]) k c <-> sup p k c \/ (k = length p /\ live g = Some c).
Proof.
  unfold sup. split.
  - intros (g' & Hk & Hl).
    apply lookup_snoc_Some in Hk as [[_ Hk] | [-> <-]]; eauto.
  - intros [(g' & Hk & Hl) | [-> Hl]].
    + exists g'. split; [| done]. apply lookup_snoc_Some. left.
      split; [| done]. by apply lookup_lt_Some in Hk.
    + exists g. split; [| done]. apply lookup_snoc_Some. by right.
Qed.

Lemma sup_at p i g c : p !! i = Some g -> sup p i c -> live g = Some c.
Proof. intros Hi (g' & Hi' & Hl). congruence. Qed.

Lemma shape_same d w a w1 :
  pool w1 = pool w -> chans w1 = chans w -> is_recv d a = false ->
  shape d w a w1.
Proof.
  intros P C R. apply passes_by; [| | by rewrite C | done];
    intros k c; rewrite P; auto.
Qed.

Lemma shape_spawned d w a c work w0 :
  pool w0 = pool w -> chans w0 = chans w ->
  (d < length (chans w))%nat -> done c = length (chans w) ->
  is_recv d a = false ->
  shape d w a (spawned c work w0).
Proof.
  intros P C Hd Hc R. apply passes_by; simpl; [| | | done].
  - intros k c' Hk. rewrite P in Hk.
    apply sup_snoc in Hk as [Hk | [_ [= <-]]]; [by left |]. right. lia.
  - intros k c' Hk _. rewrite P. apply sup_snoc. by left.
  - rewrite C. by apply lookup_app_l.
Qed.

(** The select of goroutine [i] fires: [i] ends, and maybe [j] too,
    which was not supervising anything. *)
Lemma shape_select d w a i c err sig w0 pool1 :
  Inv w ->
  pool w !! i = Some (GSelect c err) ->
  pool w0 = pool1 -> chans w0 = chans w -> store w0 = store w ->
  (forall k c', sup pool1 k c' -> sup (pool w) k c') ->
  (forall k c', sup (pool w) k c' -> sup pool1 k c') ->
  is_recv d a = false ->
  shape d w a (run (set_goroutine i GExit) (run (supervise c sig) w0)).
Proof.
  intros HI Hi P C S Hback Hforth R.
  destruct (supervise_effect c sig w0) as (P1 & _ & _ & C1).
  assert (forall k c',
            sup (pool (run (set_goroutine i GExit)
                         (run (supervise c sig) w0))) k c' ->
            sup (pool w) k c' /\ k <> i) as Hsurv.
  { intros k c' Hk. simpl in Hk. rewrite P1, P in Hk.
    apply sup_insert_dead in Hk as [Hk Hne]; auto. }
  destruct (decide (done c = d)) as [Hd|Hd].
  - apply (fires d w a _ i c (fst (value (finalize c sig) w0)));
      try done.
    + by exists (GSelect c err).
    + simpl. by rewrite C1, C, Hd.
  - apply passes_by; [| | | done].
    + intros k c' Hk. left. by apply Hsurv.
    + intros k c' Hk Hk'. simpl. rewrite P1, P.
      apply sup_insert_dead; [done |]. split; [auto |].
      intros ->. apply Hd. rewrite <- Hk'.
      pose proof (sup_at _ _ _ _ Hi Hk) as Hl. by injection Hl as ->.
    + simpl. rewrite C1, C. by apply offered_other.
Qed.

Lemma step_shape d a w w1 :
  Inv w -> (d < length (chans w))%nat -> step a w = Some w1 ->
  shape d w a w1.
Proof.
  intros HI Hd H.
  destruct a as [cx acc ex dsc work | acc id status taskName message
                | acc id key value | cx | t | i | i | i j | i | ch];
    simpl in H.
  - injection H as <-. unfold run.
    destruct (store w !! (acc, ex)) as [j|] eqn:Hj.
    + rewrite (ExecuteWithinJob_found _ _ _ _ _ _ _ Hj). simpl.
      by apply shape_spawned.
    + destruct (save_faults w) as [|[e|] later] eqn:F.
      * rewrite ExecuteWithinJob_saved; [| done | left; by rewrite F].
        simpl. by apply shape_spawned.
      * rewrite (ExecuteWithinJob_save_failed _ _ _ _ _ _ _ _ Hj F).
        by apply shape_same.
      * rewrite ExecuteWithinJob_saved; [| done | right; by rewrite F].
        simpl. by apply shape_spawned.
  - injection H as <-.
    destruct (quietly_UpdateTaskStatus acc id status taskName message w)
      as (P & C & _). by apply shape_same.
  - injection H as <-.
    destruct (quietly_UpdateJobWithValue acc id key value w)
      as (P & C & _). by apply shape_same.
  - injection H as <-. by apply shape_same.
  - injection H as <-. by apply shape_same.
  - destruct (pool w !! i) as [[c work| | | |]|] eqn:Hi; try done.
    injection H as <-. unfold run, bind. simpl.
    assert (forall k c',
              sup (<[i := GSelect c (length (chans w))]>
                     (pool w ++ [GWork (accountID c) (ID (job c))
                                       (length (chans w)) work])) k c'
              <-> sup (pool w) k c') as Hsame.
    { intros k c'. rewrite (sup_insert_same _ i (GSupervise c work));
        [| | done].
      - rewrite sup_snoc. split; [intros [?|[_ ?]]; done | by left].
      - apply lookup_snoc_Some. left.
        split; [by apply lookup_lt_Some in Hi | done]. }
    apply passes_by; simpl; [| | | done].
    * intros k c' Hk. left. by apply Hsame.
    * intros k c' Hk _. by apply Hsame.
    * by apply lookup_app_l.
  - assert (forall g acc txID err wk w0,
              pool w !! i = Some (GWork acc txID err wk) ->
              live g = None -> pool w0 = pool w -> chans w0 = chans w ->
              shape d w (AWork i) (run (set_goroutine i g) w0)) as Hdead.
    { intros g acc txID err wk w0 Hi Hg P C.
      apply passes_by; simpl; [| | by rewrite C | done].
      - intros k c Hk. rewrite P in Hk.
        apply sup_insert_dead in Hk as [Hk _]; auto.
      - intros k c Hk _. rewrite P. apply sup_insert_dead; [done |].
        split; [done |]. intros ->.
        by pose proof (sup_at _ _ _ _ Hi Hk). }
    destruct (pool w !! i) as [[| |acc txID err [[|op later] [e|]]| |]|]
      eqn:Hi; try done; injection H as <-.
    + by eapply Hdead.
    + rewrite run_bind.
      destruct (quietly_work_op acc txID op w) as (P & C & _).
      by eapply Hdead.
    + rewrite run_bind.
      destruct (quietly_work_op acc txID op w) as (P & C & _).
      by eapply Hdead.
  - destruct (pool w !! i) as [[|c err| | |]|] eqn:Hi; try done.
    destruct (pool w !! j) as [[| | |err' e|]|] eqn:Hj; try done.
    destruct (err =? err')%nat; [| done]. injection H as <-.
    rewrite run_bind, run_bind.
    apply (shape_select d w _ i c err (Reported e) _
             (<[j := GExit]> (pool w))); try done.
    + intros k c' Hk. apply sup_insert_dead in Hk as [Hk _]; auto.
    + intros k c' Hk. apply sup_insert_dead; [done |]. split; [done |].
      intros ->. by pose proof (sup_at _ _ _ _ Hj Hk).
  - destruct (pool w !! i) as [[|c err| | |]|] eqn:Hi; try done.
    case_bool_decide; [| done]. injection H as <-. rewrite run_bind.
    by apply (shape_select d w _ i c err CtxDone w (pool w)).
  - unfold recv in H.
    destruct (chans w !! ch) as [[n [|v later]]|] eqn:Hch; try done.
    injection H as <-. destruct (decide (ch = d)) as [->|Hne].
    + apply (receives d w _ _ n v later); simpl; try done.
      * apply list_lookup_insert_eq. by apply lookup_lt_Some in Hch.
      * apply Nat.eqb_refl.
    + apply passes_by; simpl; auto.
      * by apply list_lookup_insert_ne.
      * by apply Nat.eqb_neq.
Qed.

Lemma supervised_empty d w :
  Inv w -> supervised d w -> chans w !! d = Some (mkChan 1 []).
Proof.
  intros HI (k & c & (g & Hk & Hl) & <-). exact (done_empty w HI k g c Hk Hl).
Qed.

(** From a world where [d] has been made: a goroutine is still to send
    on it and the run takes at most one value out of it, or nobody is
    and the run takes out no more than it held. *)
Lemma at_most_once d acts : forall w w',
  Inv w -> (d < length (chans w))%nat -> steps acts w = Some w' ->
  (supervised d w -> (received d acts + held d w' <= 1)%nat) /\
  (~ supervised d w -> (received d acts + held d w' <= held d w)%nat).
Proof.
  induction acts as [|a acts IH]; intros w w' HI Hd H; simpl in H.
  - injection H as <-. simpl. split; [| lia].
    intros Hs. unfold held. rewrite (supervised_empty d w HI Hs). simpl. lia.
  - destruct (step a w) as [w1|] eqn:Ha; [| done].
    pose proof (step_Inv a w w1 HI Ha) as HI1.
    pose proof (Listening.step_chans_length a w w1 Ha) as Hlen.
    destruct (IH w1 w' HI1 ltac:(lia) H) as [IHs IHn].
    destruct (step_shape d a w w1 HI Hd Ha)
      as [Hback Hforth Hc R | i c v Hi Hdc Hsurv Hc R | n v later Hsame Hc Hc1 R];
      simpl; rewrite R.
    + assert (held d w1 = held d w) as Hh by (unfold held; by rewrite Hc).
      split.
      * intros (k & c & Hk & Hdc). apply IHs. exists k, c.
        split; [by apply Hforth | done].
      * intros Hno. rewrite <- Hh. apply IHn.
        intros (k & c & Hk & Hdc). apply Hno. exists k, c.
        split; [| done]. destruct (Hback k c Hk) as [|]; [done | lia].
    + assert (~ supervised d w1) as Hno1.
      { intros (k & c' & Hk & Hdc'). destruct (Hsurv k c' Hk) as [Hk0 Hne].
        apply Hne. destruct Hk0 as (g & Hg & Hl), Hi as (gi & Hgi & Hli).
        apply (done_own w HI k i g gi c' c); congruence. }
      assert (held d w1 = 1%nat) as Hh.
      { unfold held. rewrite Hc. unfold offered.
        rewrite (supervised_empty d w HI) by (by exists i, c). simpl.
        rewrite list_lookup_insert_eq; [done |]. lia. }
      split; [| intros Hno; destruct Hno; by exists i, c].
      intros _. specialize (IHn Hno1). lia.
    + assert (~ supervised d w) as Hno.
      { intros Hs. rewrite (supervised_empty d w HI Hs) in Hc. done. }
      split; [done |]. intros _.
      assert (~ supervised d w1) as Hno1.
      { intros (k & c & Hk & Hdc). apply Hno. exists k, c.
        split; [by apply Hsame | done]. }
      specialize (IHn Hno1). unfold held in *. rewrite Hc. rewrite Hc1 in IHn.
      simpl in *. lia.
Qed.

End DoneChannel.

(** ** The sample worlds can be reached *)

Module SampleFacts.
Import Vocabulary Time Errors Jobs JobsV1 Invariant Samples.

Lemma quiet_initial : initial (quiet ∅).
Proof.
  split; [| done]. intros acc id j H. simpl in H.
  by rewrite lookup_empty in H.
Qed.

Lemma after_reachable acts w :
  reachable w -> is_Some (steps acts w) -> reachable (after acts w).
Proof.
  intros Hr [w' H]. unfold after. rewrite H.
  by apply (steps_reachable acts w).
Qed.

Lemma reporting_nil_reachable : reachable reporting_nil.
Proof.
  apply after_reachable; [apply reach_initial, quiet_initial |].
  vm_compute. by eexists.
Qed.

Lemma reporting_error_reachable : reachable reporting_error.
Proof.
  apply after_reachable; [apply reach_initial, quiet_initial |].
  vm_compute. by eexists.
Qed.

Lemma cancelled_while_working_reachable : reachable cancelled_while_working.
Proof.
  apply after_reachable; [apply reach_initial, quiet_initial |].
  vm_compute. by eexists.
Qed.

Lemma quiet_reachable : reachable (quiet ∅).
Proof. apply reach_initial, quiet_initial. Qed.

(** A call given a job id that is not nil and resolves to no record
    makes a new job all the same; when its work function reports nil the
    job stays Pending, and no message is handed to the Sender. *)
Lemma unresolved_id_stays_pending :
  exists w' j,
    steps [ACall 0 1%N 7%N "anchor document" succeeding; AStart 0; AWork 1;
           ARecv 0 1] (quiet ∅) = Some w' /\
    store w' !! (1%N, 100%N) = Some j /\
    jStatus j = Pending /\
    sent w' = [].
Proof.
  eexists. eexists. split; [vm_compute; reflexivity |].
  repeat split; vm_compute; reflexivity.
Qed.

End SampleFacts.


(** ** Schedules in which saves come between a load and its save *)

Module Schedules.
Import Vocabulary Time Errors Jobs JobsV1 Frame Invariant Finalize Trail.
Import Interleaving.

(** *** The two halves make the whole *)

Lemma work_op_cut acc id op w :
  work_op acc id op w = (do r <- work_op_load acc id op; work_op_save r) w.
Proof.
  destruct op as [status taskName message | key v]; simpl;
    unfold UpdateTaskStatus, UpdateTaskStatus_load, UpdateJobWithValue,
      UpdateJobWithValue_load, work_op_save, GetJob, repo_Get, bind, ret;
    by destruct (store w !! (acc, id)).
Qed.

Lemma finalize_cut c sig w :
  finalize c sig w = (do x <- finalize_load c sig; finalize_save sig x) w.
Proof.
  destruct sig as [[e|]|]; simpl;
    unfold finalize, finalize_load, finalize_save, repo_Get, bind, ret,
      log_Error, log_line, NewLog, Now; simpl;
    destruct (store w !! (accountID c, ID (job c))); simpl; try done.
  by destruct (JobIDEqual (existingJobID c) NilJobID).
Qed.

Lemma supervise_cut i c sig w :
  (do _ <- supervise c sig; set_goroutine i GExit) w
    = (do x <- finalize_load c sig;
       do r <- finalize_save sig x;
       finish i c r) w.
Proof.
  unfold supervise, finish, bind at 1 2.
  rewrite finalize_cut. unfold bind.
  destruct (finalize_load c sig w) as [x w1].
  destruct (finalize_save sig x w1) as [[doneErr mJob] w2].
  destruct (send_done (done c) doneErr w2) as [[] w3].
  by destruct (notify c mJob w3) as [[] w4].
Qed.

(** *** What the loads leave alone *)

Lemma work_op_load_same acc id op w :
  run (work_op_load acc id op) w = w.
Proof.
  destruct op as [status taskName message | key v]; simpl;
    unfold run, UpdateTaskStatus_load, UpdateJobWithValue_load, GetJob,
      repo_Get, NewLog, Now, bind, ret;
    by destruct (store w !! (acc, id)).
Qed.

Lemma work_op_load_found acc id op w loaded tx :
  value (work_op_load acc id op) w = Ok (loaded, tx) ->
  store w !! (acc, id) = Some loaded /\
  jDID tx = jDID loaded /\ ID tx = ID loaded /\
  (Logs tx = Logs loaded \/ exists l, Logs tx = Logs loaded ++ [l]).
Proof.
  destruct op as [status taskName message | key v]; simpl;
    unfold value, UpdateTaskStatus_load, UpdateJobWithValue_load, GetJob,
      repo_Get, NewLog, Now, bind, ret;
    destruct (store w !! (acc, id)) as [j|]; simpl; try done;
    intros [= <- <-]; split_and!; try done.
  - right. by eexists.
  - by left.
Qed.

Lemma finalize_load_store c sig : keeps store (finalize_load c sig).
Proof.
  intros w. destruct sig as [[e|]|]; simpl;
    unfold run, finalize_load, repo_Get, log_Error, log_line, NewLog, Now,
      bind, ret; simpl;
    destruct (store w !! (accountID c, ID (job c))); simpl; try done.
  by destruct (JobIDEqual (existingJobID c) NilJobID).
Qed.

Lemma finalize_load_found c sig w loaded doneErr tempJob :
  value (finalize_load c sig) w = ToSave loaded doneErr tempJob ->
  store w !! (accountID c, ID (job c)) = Some loaded /\
  jDID tempJob = jDID loaded /\ ID tempJob = ID loaded /\
  (Logs tempJob = Logs loaded \/ exists l, Logs tempJob = Logs loaded ++ [l]).
Proof.
  destruct sig as [[e|]|]; simpl;
    unfold value, finalize_load, repo_Get, log_Error, log_line, NewLog, Now,
      bind, ret; simpl;
    destruct (store w !! (accountID c, ID (job c))) as [j|]; simpl;
    try done.
  - intros [= <- <- <-]. split_and!; try done. right. by eexists.
  - destruct (JobIDEqual (existingJobID c) NilJobID); simpl;
      intros [= <- <- <-]; split_and!; try done; by left.
  - intros [= <- <- <-]. split_and!; try done. right. by eexists.
Qed.

Lemma finish_store i c r : keeps store (finish i c r).
Proof.
  intros w. destruct r as [doneErr mJob]. unfold finish.
  rewrite !run_bind. simpl store.
  destruct (notify_effect c mJob (run (send_done (done c) doneErr) w))
    as (_ & -> & _).
  by destruct (send_done_effect (done c) doneErr w) as (_ & _ & -> & _).
Qed.

Lemma finalize_save_store sig loaded doneErr tempJob w :
  store (run (finalize_save sig (ToSave loaded doneErr tempJob)) w)
    = stored_after_save tempJob w.
Proof.
  destruct sig as [e|]; crunch; unfold finalize_save; crunch;
    by destruct (save_faults w) as [|[es|] later].
Qed.

Lemma saveJob_store tx w :
  store (run (saveJob tx) w) = stored_after_save tx w.
Proof. crunch. by destruct (save_faults w) as [|[e|] later]. Qed.

(** *** Every move, by what it does *)

Lemma step_store_grows a w w' :
  step a w = Some w' -> store_grows (store w) (store w').
Proof.
  intros H.
  destruct a as [cx acc ex dsc work | acc id status taskName message
                | acc id key value | cx | t | i | i | i j | i | ch];
    simpl in H.
  - injection H as <-. unfold run.
    destruct (store w !! (acc, ex)) as [j|] eqn:Hj.
    + rewrite (ExecuteWithinJob_found _ _ _ _ _ _ _ Hj). simpl.
      apply store_grows_refl.
    + destruct (save_faults w) as [|[e|] later] eqn:F.
      * rewrite ExecuteWithinJob_saved; [| done | left; by rewrite F].
        simpl. apply (store_grows_insert _ (new_job acc dsc w)).
      * rewrite (ExecuteWithinJob_save_failed _ _ _ _ _ _ _ _ Hj F).
        simpl. apply store_grows_refl.
      * rewrite ExecuteWithinJob_saved; [| done | right; by rewrite F].
        simpl. apply (store_grows_insert _ (new_job acc dsc w)).
  - injection H as <-. apply quietly_UpdateTaskStatus.
  - injection H as <-. apply quietly_UpdateJobWithValue.
  - injection H as <-. apply store_grows_refl.
  - injection H as <-. apply store_grows_refl.
  - destruct (pool w !! i) as [[c work| | | |]|]; try done.
    injection H as <-. apply store_grows_refl.
  - destruct (pool w !! i) as [[| |acc txID err [[|op later] [e|]]| |]|];
      try done; injection H as <-; [apply store_grows_refl | |];
      rewrite run_bind; simpl store; apply quietly_work_op.
  - destruct (pool w !! i) as [[|c err| | |]|]; try done.
    destruct (pool w !! j) as [[| | |err' e|]|]; try done.
    destruct (err =? err')%nat; [| done]. injection H as <-.
    rewrite run_bind, run_bind. simpl store.
    by destruct (supervise_effect c (Reported e)
                   (run (set_goroutine j GExit) w)) as (_ & _ & G & _).
  - destruct (pool w !! i) as [[|c err| | |]|]; try done.
    case_bool_decide; [| done]. injection H as <-.
    rewrite run_bind. simpl store.
    by destruct (supervise_effect c CtxDone w) as (_ & _ & G & _).
  - unfold recv in H.
    destruct (chans w !! ch) as [[n [|v later]]|]; try done.
    injection H as <-. apply store_grows_refl.
Qed.

Lemma loaded_call_after m s held over acc id op :
  well_keyed (store (world s)) ->
  (forall w, store (over w) = store w) ->
  (forall lt, snapshot (held lt) = Some lt) ->
  let s' := loaded_call held over (flights s) (work_op_load acc id op (world s))
  in repository_after m s s' /\ flights_after m s s'.
Proof.
  intros K Ho Hh. simpl.
  pose proof (work_op_load_same acc id op (world s)) as Hw.
  pose proof (work_op_load_found acc id op (world s)) as Hf.
  unfold run, value in Hw, Hf.
  destruct (work_op_load acc id op (world s)) as [[[loaded tx]|err] w1];
    simpl in *; subst w1.
  - destruct (Hf loaded tx eq_refl) as (Hl & Hd & Hi & Hg).
    split; [by apply untouched |].
    apply (took_off m s _ (held (loaded, tx)) loaded tx); try done.
    by exists acc, id.
  - split; [apply untouched; simpl; apply Ho | by apply same_flights].
Qed.

Lemma loaded_select_after m s i c sig w0 :
  store w0 = store (world s) ->
  let s' := loaded_select i c sig (flights s) (finalize_load c sig w0)
  in repository_after m s s' /\ flights_after m s s'.
Proof.
  intros Hs. simpl.
  pose proof (finalize_load_store c sig w0) as Hk.
  pose proof (finalize_load_found c sig w0) as Hf.
  unfold run, value in Hk, Hf.
  destruct (finalize_load c sig w0) as [[doneErr|loaded doneErr tempJob] w1];
    simpl in *.
  - split; [| by apply same_flights]. apply untouched.
    etrans; [apply (finish_store i c (doneErr, None) w1) | congruence].
  - destruct (Hf loaded doneErr tempJob eq_refl) as (Hl & Hd & Hi & Hg).
    split; [apply untouched; simpl; congruence |].
    apply (took_off m s _ (InFinalize i c sig loaded doneErr tempJob)
             loaded tempJob); try done.
    exists (accountID c), (ID (job c)). by rewrite <- Hs.
Qed.

Lemma move_after m s s' :
  well_keyed (store (world s)) ->
  move m s = Some s' ->
  repository_after m s s' /\ flights_after m s s'.
Proof.
  intros K H. destruct s as [w fs].
  destruct m as [a | acc id op | i | i j | i | n]; simpl in H.
  - destruct (forallb (idle fs) (acts_on a)); [| done].
    destruct (step a w) as [w'|] eqn:Ha; [| done]. injection H as <-.
    split; [by apply (stepped _ _ _ a) | by apply same_flights].
  - injection H as <-.
    apply (loaded_call_after _ (mkThreads w fs)); [done | done | by intros []].
  - destruct (idle fs i); [| done].
    destruct (pool w !! i) as [[| |acc txID err [[|op later] rep]| |]|];
      try done.
    injection H as <-.
    apply (loaded_call_after _ (mkThreads w fs)); [done | done | by intros []].
  - destruct (idle fs i && idle fs j); [| done].
    destruct (pool w !! i) as [[|c err| | |]|]; try done.
    destruct (pool w !! j) as [[| | |err' e|]|]; try done.
    destruct (err =? err')%nat; [| done]. injection H as <-.
    by apply (loaded_select_after (LoadRecv i j) (mkThreads w fs) i c
                (Reported e) (run (set_goroutine j GExit) w)).
  - destruct (idle fs i); [| done].
    destruct (pool w !! i) as [[|c err| | |]|]; try done.
    case_bool_decide; [| done]. injection H as <-.
    by apply (loaded_select_after (LoadCtxDone i) (mkThreads w fs) i c
                CtxDone w).
  - destruct (fs !! n) as [[loaded tx | i loaded tx | i c sig loaded doneErr
                            tempJob |]|] eqn:Hn; try done.
    + injection H as <-.
      split; [| by apply (landed _ _ _ n)].
      apply (saved _ _ _ n (InCall loaded tx) loaded tx); try done.
      apply saveJob_store.
    + destruct (pool w !! i) as [[| |acc txID err [[|op later] rep]| |]|];
        try done.
      injection H as <-.
      split; [| by apply (landed _ _ _ n)].
      apply (saved _ _ _ n (InWork i loaded tx) loaded tx); try done.
      simpl. rewrite run_bind. simpl store. apply saveJob_store.
    + injection H as <-.
      split; [| by apply (landed _ _ _ n)].
      apply (saved _ _ _ n (InFinalize i c sig loaded doneErr tempJob)
               loaded tempJob); try done.
      cbn [world]. rewrite run_bind.
      etrans; [apply finish_store |].
      apply (finalize_save_store sig loaded doneErr tempJob w).
Qed.

Lemma save_stores_the_snapshot n s s' f loaded tx :
  move (Save n) s = Some s' ->
  flights s !! n = Some f -> snapshot f = Some (loaded, tx) ->
  store (world s') = stored_after_save tx (world s).
Proof.
  destruct s as [w fs]. cbn [move world flights]. intros H Hf Hs.
  rewrite Hf in H.
  destruct f as [l t | i l t | i c sig l d t |]; simpl in Hs; try done;
    injection Hs as -> ->.
  - injection H as <-. apply saveJob_store.
  - destruct (pool w !! i) as [[| |acc txID err [[|op later] rep]| |]|];
      try done.
    injection H as <-. cbn [world]. rewrite run_bind. simpl store.
    apply saveJob_store.
  - injection H as <-. cbn [world]. rewrite run_bind.
    etrans; [apply finish_store |].
    apply (finalize_save_store sig loaded d tx w).
Qed.

Lemma stored_after_save_grows tx w :
  store_grows (store w) (stored_after_save tx w).
Proof.
  unfold stored_after_save. destruct (next_save w);
    [apply store_grows_refl | apply store_grows_insert].
Qed.

Lemma move_store_grows m s s' :
  well_keyed (store (world s)) ->
  move m s = Some s' ->
  store_grows (store (world s)) (store (world s')).
Proof.
  intros K H.
  destruct (move_after m s s' K H) as [[Hs | a _ Ha | n f loaded tx _ _ _ Hs] _].
  - rewrite Hs. apply store_grows_refl.
  - by apply (step_store_grows a).
  - rewrite Hs. apply stored_after_save_grows.
Qed.

(** In every state a schedule reaches, records are under their own key,
    and the record an operation under way is going to save extends the
    one it loaded. *)
Lemma scheduled_sound s :
  scheduled s ->
  well_keyed (store (world s)) /\
  (forall n f loaded tx,
     flights s !! n = Some f -> snapshot f = Some (loaded, tx) ->
     extends loaded tx).
Proof.
  induction 1 as [w [K _] | m s s' _ [K F] Hm].
  - split; [done |]. intros n f loaded tx H. simpl in H.
    by rewrite lookup_nil in H.
  - split; [by apply (move_store_grows m s s' K Hm) |].
    destruct (move_after m s s' K Hm) as [_ [Hf | f0 l0 t0 Hf H0 _ E | n0 _ Hf]];
      rewrite Hf; intros n f loaded tx Hn Hsnap.
    + by apply (F n f).
    + apply lookup_app_Some in Hn as [Hn | [_ Hn]]; [by apply (F n f) |].
      apply list_lookup_singleton_Some in Hn as [_ <-]. congruence.
    + apply list_lookup_insert_Some in Hn as [(_ & <- & _) | [_ Hn]];
        [done | by apply (F n f)].
Qed.

Lemma extends_prefix loaded tx :
  extends loaded tx -> Logs loaded `prefix_of` Logs tx.
Proof.
  intros (_ & _ & [-> | [l ->]]); [done | by apply prefix_app_r].
Qed.

(** A move in which no save has overtaken the one it makes keeps every
    log. *)
Lemma move_keeps_logs m s s' :
  scheduled s -> next_id_free (world s) ->
  move m s = Some s' -> unraced m s ->
  keeps_logs (store (world s)) (store (world s')).
Proof.
  intros Hs Hnew Hm Hu. destruct (scheduled_sound s Hs) as [K F].
  destruct (move_after m s s' K Hm)
    as [[Hst | a _ Ha | n f loaded tx -> Hn Hsnap Hst] _].
  - rewrite Hst. apply keeps_logs_refl.
  - by apply (step_keeps_logs a).
  - rewrite Hst. unfold stored_after_save.
    destruct (next_save (world s)); [apply keeps_logs_refl |].
    simpl in Hu. rewrite Hn in Hu. simpl in Hu. rewrite Hsnap in Hu.
    intros k j Hk.
    destruct (decide (k = (jDID tx, ID tx))) as [->|Hne].
    + rewrite lookup_insert_eq. exists tx. split; [done |].
      rewrite Hk in Hu. injection Hu as ->.
      apply extends_prefix. by apply (F n f).
    + rewrite lookup_insert_ne by done. by exists j.
Qed.

(** *** A load and its save with nothing in between *)

Lemma idle_snoc fs f i :
  idle (fs ++ [f]) i = idle fs i && negb (in_flight i f).
Proof. unfold idle. rewrite forallb_app. simpl. by rewrite andb_true_r. Qed.

Lemma land_last fs f :
  (fs ++ [f]) !! length fs = Some f /\
  <[length fs := Landed]> (fs ++ [f]) = fs ++ [Landed].
Proof.
  split; [by apply list_lookup_middle |].
  rewrite insert_app_r_alt by done. by rewrite Nat.sub_diag.
Qed.

Lemma save_InCall w fs loaded tx :
  move (Save (length fs)) (mkThreads w (fs ++ [InCall loaded tx]))
    = Some (mkThreads (run (saveJob tx) w) (fs ++ [Landed])).
Proof.
  unfold move. cbn [world flights].
  by destruct (land_last fs (InCall loaded tx)) as [-> ->].
Qed.

Lemma save_InWork w fs i loaded tx acc txID err op later rep :
  pool w !! i = Some (GWork acc txID err (mkWork (op :: later) rep)) ->
  move (Save (length fs)) (mkThreads w (fs ++ [InWork i loaded tx]))
    = Some (mkThreads
              (run (do _ <- saveJob tx;
                    set_goroutine i (GWork acc txID err (mkWork later rep))) w)
              (fs ++ [Landed])).
Proof.
  intros H. unfold move. cbn [world flights].
  destruct (land_last fs (InWork i loaded tx)) as [-> ->]. by rewrite H.
Qed.

Lemma save_InFinalize w fs i c sig loaded doneErr tempJob :
  move (Save (length fs))
       (mkThreads w (fs ++ [InFinalize i c sig loaded doneErr tempJob]))
    = Some (mkThreads
              (run (do r <- finalize_save sig (ToSave loaded doneErr tempJob);
                    finish i c r) w)
              (fs ++ [Landed])).
Proof.
  unfold move. cbn [world flights].
  by destruct (land_last fs (InFinalize i c sig loaded doneErr tempJob))
    as [-> ->].
Qed.

Lemma work_op_halves acc id op w :
  exists r,
    work_op_load acc id op w = (r, w) /\
    work_op acc id op w = work_op_save r w.
Proof.
  pose proof (work_op_cut acc id op w) as Hcut.
  pose proof (work_op_load_same acc id op w) as Hw.
  unfold run, bind in *.
  destruct (work_op_load acc id op w) as [r w1]. simpl in Hw. subst w1.
  by exists r.
Qed.

Lemma run_then {A} (m m' : M A) (k : M unit) w :
  m w = m' w -> run (do _ <- m; k) w = run (do _ <- m'; k) w.
Proof. intros H. unfold run, bind. by rewrite H. Qed.

Lemma call_at_once w fs acc id op a (k : M unit)
    (held : Job -> Job -> Flight) :
  step a w = Some (run (do _ <- work_op acc id op; k) w) ->
  (forall loaded tx,
     move (Save (length fs)) (mkThreads w (fs ++ [held loaded tx]))
       = Some (mkThreads (run (do _ <- saveJob tx; k) w) (fs ++ [Landed]))) ->
  exists w',
    step a w = Some w' /\
    let s1 := loaded_call (fun lt => held (fst lt) (snd lt)) (run k) fs
                          (work_op_load acc id op w) in
    (flights s1 = fs /\ world s1 = w') \/
    (exists f, flights s1 = fs ++ [f] /\
       move (Save (length fs)) s1 = Some (mkThreads w' (fs ++ [Landed]))).
Proof.
  intros Ha Hsave. eexists. split; [exact Ha |].
  destruct (work_op_halves acc id op w) as ([[loaded tx]|err] & -> & Hw);
    cbn [loaded_call flights world fst snd];
    rewrite (run_then _ _ k w Hw).
  - right. eexists. split; [done |]. apply Hsave.
  - left. done.
Qed.

Lemma select_at_once w0 fs i c sig :
  let s1 := loaded_select i c sig fs (finalize_load c sig w0) in
  let w' := run (do _ <- supervise c sig; set_goroutine i GExit) w0 in
  (flights s1 = fs /\ world s1 = w') \/
  (exists f, flights s1 = fs ++ [f] /\
     move (Save (length fs)) s1 = Some (mkThreads w' (fs ++ [Landed]))).
Proof.
  cbn zeta.
  assert (run (do _ <- supervise c sig; set_goroutine i GExit) w0
          = run (do x <- finalize_load c sig;
                 do r <- finalize_save sig x;
                 finish i c r) w0) as ->
    by (unfold run; by rewrite supervise_cut).
  rewrite run_bind.
  change (run (finalize_load c sig) w0) with (snd (finalize_load c sig w0)).
  change (value (finalize_load c sig) w0) with (fst (finalize_load c sig w0)).
  destruct (finalize_load c sig w0) as [[doneErr|loaded doneErr tempJob] w1];
    cbn [loaded_select flights world fst snd].
  - left. done.
  - right. eexists. split; [done |]. by rewrite save_InFinalize.
Qed.

Lemma ret_unit_run w : run (ret tt) w = w.
Proof. done. Qed.

(** X20: the three operations that save what they loaded are cut in
    two at their call of [saveJob] without loss: the load of an operation
    and, straight after it, its save leave the world that the operation
    run whole leaves, and an operation whose load fails is over at its
    load. *)
Lemma load_and_save_at_once m a s s1 :
  whole_of m = Some a -> move m s = Some s1 ->
  exists w',
    move (Whole a) s = Some (mkThreads w' (flights s)) /\
    ((flights s1 = flights s /\ world s1 = w') \/
     (exists f, flights s1 = flights s ++ [f] /\
        move (Save (length (flights s))) s1
          = Some (mkThreads w' (flights s ++ [Landed])))).
Proof.
  destruct s as [w fs]. cbn [flights world].
  destruct m as [a0 | acc id op | i | i j | i | n]; try done.
  - intros Hw H. cbn [move world flights] in H. injection H as <-.
    destruct (call_at_once w fs acc id op a (ret tt) InCall) as (w' & Ha & Hs).
    + destruct op; injection Hw as <-; simpl; f_equal;
        unfold run, bind, ret; simpl;
        match goal with |- snd ?x = _ => by destruct x end.
    + intros loaded tx. rewrite save_InCall. do 2 f_equal.
      unfold run, bind, ret. by destruct (saveJob tx w).
    + exists w'. split.
      * unfold move. cbn [world flights]. destruct op; injection Hw as <-;
          cbn [acts_on forallb]; by rewrite Ha.
      * exact Hs.
  - intros [= <-] H. cbn [move world flights] in H.
    destruct (idle fs i) eqn:Hidle; [| done].
    destruct (pool w !! i) as [[| |acc txID err [[|op later] rep]| |]|] eqn:Hp;
      try done.
    injection H as <-.
    destruct (call_at_once w fs acc txID op (AWork i)
                (set_goroutine i (GWork acc txID err (mkWork later rep)))
                (InWork i)) as (w' & Ha & Hs).
    + simpl. by rewrite Hp.
    + intros loaded tx. by apply save_InWork with (op := op).
    + exists w'. split; [| exact Hs].
      unfold move. cbn [world flights acts_on forallb].
      by rewrite Hidle, Ha.
  - intros [= <-] H. cbn [move world flights] in H.
    destruct (idle fs i && idle fs j) eqn:Hidle; [| done].
    destruct (pool w !! i) as [[|c err| | |]|] eqn:Hi; try done.
    destruct (pool w !! j) as [[| | |err' e|]|] eqn:Hj; try done.
    destruct (err =? err')%nat eqn:E; [| done]. injection H as <-.
    eexists. split.
    + unfold move. cbn [world flights acts_on forallb].
      rewrite andb_true_r, Hidle. simpl. rewrite Hi, Hj, E. simpl.
      by rewrite run_bind.
    + apply (select_at_once (run (set_goroutine j GExit) w) fs i c
               (Reported e)).
  - intros [= <-] H. cbn [move world flights] in H.
    destruct (idle fs i) eqn:Hidle; [| done].
    destruct (pool w !! i) as [[|c err| | |]|] eqn:Hi; try done.
    case_bool_decide as Hc; [| done]. injection H as <-.
    eexists. split.
    + unfold move. cbn [world flights acts_on forallb].
      rewrite Hidle. simpl. rewrite Hi. by rewrite bool_decide_eq_true_2.
    + apply (select_at_once w fs i c CtxDone).
Qed.

Lemma load_and_save_at_once_witness :
  exists w' f,
    move (Whole (AUpdateTaskStatus 1%N 5%N Success "sign" "signed"))
         (mkThreads (MoreSamples.stored Samples.anchoring) [])
      = Some (mkThreads w' []) /\
    flights MoreSamples.signing_alone = [f] /\
    move (Save 0) MoreSamples.signing_alone = Some (mkThreads w' [Landed]).
Proof.
  destruct (load_and_save_at_once
              (LoadCall 1%N 5%N (OpUpdateTaskStatus Success "sign" "signed"))
              (AUpdateTaskStatus 1%N 5%N Success "sign" "signed")
              (mkThreads (MoreSamples.stored Samples.anchoring) [])
              MoreSamples.signing_alone eq_refl
              ltac:(vm_compute; reflexivity))
    as (w' & H1 & [[H2 _] | (f & H2 & H3)]).
  - vm_compute in H2. discriminate H2.
  - exists w', f. split; [exact H1 |]. split; [exact H2 | exact H3].
Defined.

(** *** Schedules and runs *)

Lemma moves_scheduled ms s s' :
  scheduled s -> moves ms s = Some s' -> scheduled s'.
Proof.
  revert s. induction ms as [|m ms IH]; intros s Hs H; simpl in H.
  - by injection H as <-.
  - destruct (move m s) as [s1|] eqn:Hm; [| done].
    apply (IH s1); [by apply (sched_move m s) | done].
Qed.

(** A run of [step] is the schedule in which every operation saves at
    once. *)
Lemma reachable_scheduled w : reachable w -> scheduled (mkThreads w []).
Proof.
  induction 1 as [w Hi | a w w' _ IH Ha].
  - by apply sched_initial.
  - apply (sched_move (Whole a) (mkThreads w [])); [done |].
    unfold move. cbn [world flights].
    assert (forallb (idle []) (acts_on a) = true) as ->
      by (by apply forallb_forall).
    by rewrite Ha.
Qed.

Lemma moves_keep_records ms s s' k :
  scheduled s -> moves ms s = Some s' ->
  is_Some (store (world s) !! k) -> is_Some (store (world s') !! k).
Proof.
  revert s. induction ms as [|m ms IH]; intros s Hs H Hk; simpl in H.
  - by injection H as <-.
  - destruct (move m s) as [s1|] eqn:Hm; [| done].
    apply (IH s1); [by apply (sched_move m s) | done |].
    destruct (scheduled_sound s Hs) as [K _].
    by apply (move_store_grows m s s1 K Hm).
Qed.

Lemma stored_scheduled j : scheduled (mkThreads (MoreSamples.stored j) []).
Proof.
  apply sched_initial. split; [| done]. intros acc id j' H. simpl in H.
  apply lookup_singleton_Some in H as [[= <- <-] <-]. done.
Qed.

Lemma signing_alone_scheduled : scheduled MoreSamples.signing_alone.
Proof.
  apply (moves_scheduled
           [LoadCall 1%N 5%N (OpUpdateTaskStatus Success "sign" "signed")]
           (mkThreads (MoreSamples.stored Samples.anchoring) []));
    [apply stored_scheduled |].
  vm_compute. reflexivity.
Qed.

Lemma signing_alone_next_id_free :
  next_id_free (world MoreSamples.signing_alone).
Proof.
  intros acc.
  assert (store (world MoreSamples.signing_alone)
          = {[ (1%N, 5%N) := Samples.anchoring ]}) as ->
    by (vm_compute; reflexivity).
  apply lookup_singleton_ne. intros H. inversion H.
Qed.

Lemma overtaken_scheduled : scheduled MoreSamples.overtaken.
Proof.
  apply (moves_scheduled MoreSamples.overtaking
           (mkThreads (MoreSamples.stored Samples.anchoring) []));
    [apply stored_scheduled |].
  vm_compute. reflexivity.
Qed.

(** *** Channels, in any schedule *)

Lemma finalize_load_chans c sig : keeps chans (finalize_load c sig).
Proof.
  intros w. destruct sig as [[e|]|]; simpl;
    unfold run, finalize_load, repo_Get, log_Error, log_line, NewLog, Now,
      bind, ret; simpl;
    destruct (store w !! (accountID c, ID (job c))); simpl; try done.
  by destruct (JobIDEqual (existingJobID c) NilJobID).
Qed.

Lemma saveJob_chans tx : keeps chans (saveJob tx).
Proof. intros w. by destruct (quietly_saveJob tx w) as (_ & -> & _). Qed.

Lemma finalize_save_chans sig x : keeps chans (finalize_save sig x).
Proof.
  intros w. destruct x as [d|l d t]; [done |].
  destruct sig as [e|]; crunch; unfold finalize_save; crunch;
    by destruct (save_faults w) as [|[es|] later].
Qed.

Lemma finish_chans_length i c r w :
  length (chans (run (finish i c r) w)) = length (chans w).
Proof.
  destruct r as [doneErr mJob]. unfold finish. rewrite !run_bind.
  simpl chans.
  destruct (notify_effect c mJob (run (send_done (done c) doneErr) w))
    as (_ & _ & _ & ->).
  destruct (send_done_effect (done c) doneErr w) as (_ & _ & _ & ->).
  apply offered_length.
Qed.

Lemma move_chans_length m s s' :
  move m s = Some s' ->
  (length (chans (world s)) <= length (chans (world s')))%nat.
Proof.
  destruct s as [w fs]. intros H.
  destruct m as [a | acc id op | i | i j | i | n];
    cbn [move world flights] in H.
  - destruct (forallb (idle fs) (acts_on a)); [| done].
    destruct (step a w) as [w'|] eqn:Ha; simpl in H; [| done].
    injection H as <-. by apply (Listening.step_chans_length a).
  - injection H as <-.
    destruct (work_op_halves acc id op w) as ([[l t]|e] & -> & _); done.
  - destruct (idle fs i); [| done].
    destruct (pool w !! i) as [[| |acc txID err [[|op later] rep]| |]|];
      try done.
    injection H as <-.
    destruct (work_op_halves acc txID op w) as ([[l t]|e] & -> & _); done.
  - destruct (idle fs i && idle fs j); [| done].
    destruct (pool w !! i) as [[|c err| | |]|]; try done.
    destruct (pool w !! j) as [[| | |err' e|]|]; try done.
    destruct (err =? err')%nat; [| done].
    pose proof (finalize_load_chans c (Reported e)
                  (run (set_goroutine j GExit) w)) as Hc.
    unfold run at 1 in Hc.
    destruct (finalize_load c (Reported e) (run (set_goroutine j GExit) w))
      as [[d|l d t] w1]; cbn [loaded_select world snd] in *;
      injection H as <-; cbn [world].
    + change (length (chans w)
              <= length (chans (run (finish i c (d, None)) w1)))%nat.
      rewrite finish_chans_length, Hc. done.
    + by rewrite Hc.
  - destruct (idle fs i); [| done].
    destruct (pool w !! i) as [[|c err| | |]|]; try done.
    case_bool_decide; [| done].
    pose proof (finalize_load_chans c CtxDone w) as Hc. unfold run at 1 in Hc.
    destruct (finalize_load c CtxDone w) as [[d|l d t] w1];
      cbn [loaded_select world snd] in *; injection H as <-; cbn [world].
    + change (length (chans w)
              <= length (chans (run (finish i c (d, None)) w1)))%nat.
      rewrite finish_chans_length, Hc. done.
    + by rewrite Hc.
  - destruct (fs !! n) as [[l t | i l t | i c sig l d t |]|]; try done.
    + injection H as <-. cbn [world]. by rewrite saveJob_chans.
    + destruct (pool w !! i) as [[| |acc txID err [[|op later] rep]| |]|];
        try done.
      injection H as <-. cbn [world]. rewrite run_bind. simpl chans.
      by rewrite saveJob_chans.
    + injection H as <-.
      change (length (chans w)
              <= length (chans (run (do r <- finalize_save sig (ToSave l d t);
                                     finish i c r) w)))%nat.
      by rewrite run_bind, finish_chans_length, finalize_save_chans.
Qed.

Lemma moves_chans_length ms s s' :
  moves ms s = Some s' ->
  (length (chans (world s)) <= length (chans (world s')))%nat.
Proof.
  revert s. induction ms as [|m ms IH]; intros s H; simpl in H.
  - by injection H as <-.
  - destruct (move m s) as [s1|] eqn:Hm; [| done].
    pose proof (move_chans_length m s s1 Hm). specialize (IH s1 H). lia.
Qed.

End Schedules.

(** ** The manager's contract *)

Module ManagerSpec.
Import Vocabulary Time Errors Jobs JobsV1 StatusFacts Frame Invariant Finalize.

(** C1: when the work function of a call reports nil, the goroutine of
    [ExecuteWithinJob] receives it, reloads the job's record (which is
    there), sets its Status to Success exactly when [existingJobID] is
    the nil job id and otherwise leaves the record as reloaded, and hands
    it to the repository's Save: unless that Save fails, the record is
    stored under the job's key. *)
Theorem work_reports_nil (w : World) (i j : nat) (c : Call) (err : nat) :
  reachable w ->
  pool w !! i = Some (GSelect c err) ->
  pool w !! j = Some (GSend err None) ->
  exists tempJob w',
    step (ARecv i j) w = Some w' /\
    store w !! (accountID c, ID (job c)) = Some tempJob /\
    store w' =
      match next_save w with
      | Some _ => store w
      | None =>
          <[(accountID c, ID (job c)) :=
              if JobIDEqual (existingJobID c) NilJobID
              then setStatus Success tempJob
              else tempJob]> (store w)
      end /\
    (next_save w = None -> existingJobID c = NilJobID ->
       jStatus <$> store w' !! (accountID c, ID (job c)) = Some Success) /\
    (next_save w = None -> existingJobID c <> NilJobID ->
       store w' !! (accountID c, ID (job c)) = Some tempJob).
Proof.
  intros Hr Hi Hj. pose proof (reachable_Inv w Hr) as HI.
  destruct (reload_finds w i _ c HI Hi eq_refl) as (tempJob & Ht & Hd & Hid).
  exists tempJob. eexists. split.
  { simpl. rewrite Hi, Hj, Nat.eqb_refl. reflexivity. }
  split; [done |].
  rewrite run_bind, run_bind. simpl store.
  set (w0 := run (set_goroutine j GExit) w).
  assert (chans w0 !! done c = Some (mkChan 1 [])) as Hc
    by exact (done_empty w HI i _ c Hi eq_refl).
  destruct (supervise_summary c (Reported None) w0 Hc) as (-> & _).
  destruct (finalize_reported c None w0 tempJob Ht) as (_ & -> & _).
  unfold stored_after_save.
  destruct (reconciled_key c None (clock w0) tempJob) as [-> ->].
  rewrite Hd, Hid. change (next_save w0) with (next_save w).
  change (store w0) with (store w). simpl reconciled.
  destruct (next_save w) as [es|]; [done |].
  split; [done |]. split.
  - intros _ ->. by rewrite lookup_insert_eq.
  - intros _ Hne. rewrite lookup_insert_eq.
    destruct (JobIDEqual (existingJobID c) NilJobID) eqn:E; [| done].
    apply N.eqb_eq in E. done.
Qed.

Lemma work_reports_nil_witness :
  exists tempJob w',
    step (ARecv 0 1) Samples.reporting_nil = Some w' /\
    store Samples.reporting_nil !! (1%N, 100%N) = Some tempJob /\
    store w' = <[(1%N, 100%N) := setStatus Success tempJob]>
                 (store Samples.reporting_nil).
Proof.
  destruct (work_reports_nil Samples.reporting_nil 0 1 Samples.the_call 1
              SampleFacts.reporting_nil_reachable eq_refl eq_refl)
    as (tempJob & w' & H1 & H2 & H3 & _).
  exists tempJob, w'. split; [exact H1 |]. split; [exact H2 | exact H3].
Defined.

(** C2, on an error with a percent sign in its text: a new job, whose
    work function reports the error [invalid URL escape %zz].  The record
    ends up Failed, with the log entry of the manager carrying the text
    of the error; but the error the done channel receives reads
    [manager[anchor document] invalid URL escape %!z(MISSING)z]: the text
    of the error is not in it. *)
Theorem wrapped_error_loses_the_text :
  exists w' j e,
    step (ARecv 0 1) Samples.reporting_error = Some w' /\
    store w' !! (1%N, 100%N) = Some j /\
    jStatus j = Failed /\
    Logs j = [mkLog "manager[anchor document]" "invalid URL escape %zz"
                    (mkTime 9 0)] /\
    chans w' !! 0%nat = Some (mkChan 1 [Some e]) /\
    Text e = "manager[anchor document] invalid URL escape %!z(MISSING)z" /\
    Str.contains "manager[anchor document]" (Text e) = true /\
    Str.contains (Text Samples.url_error) (Text e) = false.
Proof.
  eexists. eexists. eexists. split; [vm_compute; reflexivity |].
  split; [vm_compute; reflexivity |].
  repeat split; vm_compute; reflexivity.
Qed.

(** C3: when the context of a call is done and its select takes that
    case, the goroutine of [ExecuteWithinJob] reloads the job's record
    (which is there), appends one log entry, named [context closed] and
    saying the job is stopped because of context close, changes nothing
    else in the record, Status included, and hands it to the repository's
    Save.  The goroutine then ends; every other goroutine, the work
    function among them, is as it was; and in no later world can the
    value a work function sends on this call's error channel be
    received. *)
Theorem context_cancelled_first (w : World) (i : nat) (c : Call) (err : nat) :
  reachable w ->
  pool w !! i = Some (GSelect c err) ->
  ctx c ∈ cancelled w ->
  exists tempJob w',
    step (ACtxDone i) w = Some w' /\
    store w !! (accountID c, ID (job c)) = Some tempJob /\
    store w' =
      match next_save w with
      | Some _ => store w
      | None =>
          <[(accountID c, ID (job c)) :=
              setLogs (Logs tempJob ++
                       [mkLog "context closed" (context_close_msg (job c))
                              (UTC (clock w))]) tempJob]> (store w)
      end /\
    (forall j', store w' !! (accountID c, ID (job c)) = Some j' ->
       jStatus j' = jStatus tempJob) /\
    pool w' !! i = Some GExit /\
    (forall k, k <> i -> pool w' !! k = pool w !! k) /\
    (forall acts w'' k k' e,
       steps acts w' = Some w'' ->
       pool w'' !! k' = Some (GSend err e) ->
       step (ARecv k k') w'' = None).
Proof.
  intros Hr Hi Hc. pose proof (reachable_Inv w Hr) as HI.
  destruct (reload_finds w i _ c HI Hi eq_refl) as (tempJob & Ht & Hd & Hid).
  exists tempJob. eexists. split.
  { simpl. rewrite Hi. rewrite bool_decide_eq_true_2 by done. reflexivity. }
  split; [done |].
  rewrite run_bind.
  destruct (supervise_effect c CtxDone w) as (P & _ & _ & C).
  assert (store (run (set_goroutine i GExit) (run (supervise c CtxDone) w))
          = match next_save w with
            | Some _ => store w
            | None =>
                <[(accountID c, ID (job c)) :=
                    setLogs (Logs tempJob ++
                             [mkLog "context closed"
                                    (context_close_msg (job c))
                                    (UTC (clock w))]) tempJob]> (store w)
            end) as Hs.
  { simpl store.
    destruct (supervise_summary c CtxDone w
                (done_empty w HI i _ c Hi eq_refl)) as (-> & _).
    destruct (finalize_cancelled c w tempJob Ht) as (_ & -> & _).
    unfold stored_after_save, cancellation_entry. simpl. by rewrite Hd, Hid. }
  split; [exact Hs |]. split_and!.
  - intros j'. rewrite Hs. destruct (next_save w).
    + rewrite Ht. by intros [= <-].
    + rewrite lookup_insert_eq. by intros [= <-].
  - simpl. rewrite P. apply list_lookup_insert_eq.
    by apply lookup_lt_Some in Hi.
  - intros k Hk. simpl. rewrite P. by apply list_lookup_insert_ne.
  - intros acts w'' k k' e Hrun Hk'.
    apply (Listening.unheard_never_received w'' err k k' e); [| done].
    apply (Listening.steps_unheard acts
             (run (set_goroutine i GExit) (run (supervise c CtxDone) w)));
      [| | done].
    + simpl. rewrite C, offered_length. exact (err_made w HI i c err Hi).
    + intros (n & c' & Hn). simpl in Hn. rewrite P in Hn.
      apply list_lookup_insert_Some in Hn as [(_ & ? & _) | (Hne & Hn)];
        [done |].
      apply Hne. exact (err_own w HI i n c c' err Hi Hn).
Qed.

Lemma context_cancelled_first_witness :
  exists tempJob w',
    step (ACtxDone 0) Samples.cancelled_while_working = Some w' /\
    store Samples.cancelled_while_working !! (1%N, 100%N) = Some tempJob /\
    pool w' !! 0%nat = Some GExit /\
    pool w' !! 1%nat = pool Samples.cancelled_while_working !! 1%nat.
Proof.
  destruct (context_cancelled_first Samples.cancelled_while_working 0
              Samples.the_call 1
              SampleFacts.cancelled_while_working_reachable eq_refl
              (list_elem_of_here 0%nat []))
    as (tempJob & w' & H1 & H2 & _ & _ & H5 & H6 & _).
  exists tempJob, w'. split; [exact H1 |]. split; [exact H2 |].
  split; [exact H5 |]. apply H6. discriminate.
Defined.

(** C4: the channel [ExecuteWithinJob] returns has capacity one and is
    empty.  Whatever the program does next, the values received from it
    and the values waiting in it are at most one together.  When the
    select of the call's goroutine fires, in whichever case, the send
    goes through at once and the channel holds the error of [finalize]
    (nil when there is none).  And had the channel been full, the send
    would only have written the capacity breach line to the log: it does
    not wait, and there is nothing else it does. *)
Theorem done_channel_receives_at_most_one_value (w : World) (cx : nat)
    (acc : DID) (ex : JobID) (dsc : string) (work : WorkFn) (txID : JobID)
    (d : nat) :
  reachable w ->
  value (ExecuteWithinJob cx acc ex dsc work) w = (txID, Some d, None) ->
  chans (run (ExecuteWithinJob cx acc ex dsc work) w) !! d
    = Some (mkChan 1 []) /\
  (forall acts w2,
     steps acts (run (ExecuteWithinJob cx acc ex dsc work) w) = Some w2 ->
     (received d acts + held d w2 <= 1)%nat) /\
  (forall acts w2 i c err sig,
     steps acts (run (ExecuteWithinJob cx acc ex dsc work) w) = Some w2 ->
     pool w2 !! i = Some (GSelect c err) -> done c = d ->
     chans (run (supervise c sig) w2) !! d
       = Some (mkChan 1 [fst (value (finalize c sig) w2)])) /\
  (forall v w2 ch,
     chans w2 !! d = Some ch -> (cap ch <= length (buf ch))%nat ->
     run (send_done d v) w2 = run (log_line capacity_breach) w2).
Proof.
  intros Hr Hv. pose proof (reachable_Inv w Hr) as HI.
  pose proof (Inv_call cx acc ex dsc work w HI) as HI1.
  set (w1 := run (ExecuteWithinJob cx acc ex dsc work) w) in *.
  assert (exists c, pool w1 !! length (pool w) = Some (GSupervise c work) /\
                    done c = d /\ d = length (chans w) /\
                    (d < length (chans w1))%nat) as (c & Hp & Hdc & Hd & Hlt).
  { unfold w1, run, value in *.
    destruct (store w !! (acc, ex)) as [j|] eqn:Hj.
    - rewrite (ExecuteWithinJob_found _ _ _ _ _ _ _ Hj) in *. simpl in *.
      injection Hv as _ <-. eexists. split_and!.
      + apply lookup_snoc_Some. right. done.
      + done.
      + done.
      + rewrite length_app. simpl. lia.
    - destruct (save_faults w) as [|[e|] later] eqn:F.
      + rewrite ExecuteWithinJob_saved in *;
          try done; try (left; by rewrite F).
        simpl in *. injection Hv as _ <-. eexists. split_and!.
        * apply lookup_snoc_Some. right. done.
        * done.
        * done.
        * rewrite length_app. simpl. lia.
      + by rewrite (ExecuteWithinJob_save_failed _ _ _ _ _ _ _ _ Hj F) in Hv.
      + rewrite ExecuteWithinJob_saved in *;
          try done; try (right; by rewrite F).
        simpl in *. injection Hv as _ <-. eexists. split_and!.
        * apply lookup_snoc_Some. right. done.
        * done.
        * done.
        * rewrite length_app. simpl. lia. }
  assert (supervised d w1) as Hs.
  { exists (length (pool w)), c. split; [| done]. by eexists. }
  split_and!.
  - by apply DoneChannel.supervised_empty.
  - intros acts w2 Hrun.
    by apply (DoneChannel.at_most_once d acts w1 w2 HI1 Hlt Hrun).
  - intros acts w2 i c' err sig Hrun Hi Hdc'.
    pose proof (steps_Inv acts w1 w2 HI1 Hrun) as HI2.
    pose proof (done_empty w2 HI2 i _ c' Hi eq_refl) as He.
    destruct (supervise_summary c' sig w2 He) as (_ & _ & -> & _).
    rewrite <- Hdc'. apply list_lookup_insert_eq. by apply lookup_lt_Some in He.
  - intros v w2 ch Hch Hfull. unfold run, send_done. rewrite Hch.
    destruct (length (buf ch) <? cap ch)%nat eqn:E; [| done].
    apply Nat.ltb_lt in E. lia.
Qed.

Lemma done_channel_receives_at_most_one_value_witness :
  chans (run (ExecuteWithinJob 0 1%N NilJobID "anchor document"
                Samples.succeeding) (Samples.quiet ∅)) !! 0%nat
    = Some (mkChan 1 []).
Proof.
  exact (proj1 (done_channel_receives_at_most_one_value (Samples.quiet ∅) 0
                  1%N NilJobID "anchor document" Samples.succeeding 100%N
                  0%nat SampleFacts.quiet_reachable eq_refl)).
Defined.

(** C5: a step of the program hands a message to the Notification
    Sender only when it is the step in which the goroutine of a call made
    with the nil job id gets past its select and finalizes: the reload
    found the record, the record was reconciled and handed to Save, and
    the message, sent after all that, carries the Status of that record
    and the message of its last log entry (the empty string when it has
    none).  Whatever the Sender is going to answer, the step leaves the
    same records, the same channels with the same values in them, the
    same goroutines and the same messages handed over: an error of the
    Sender can only show in the log. *)
Theorem notification_only_for_new_jobs (a : Action) (w w' : World) :
  reachable w -> step a w = Some w' ->
  sent w' = sent w \/
  exists i c err sig tempJob,
    pool w !! i = Some (GSelect c err) /\
    (a = ACtxDone i /\ sig = CtxDone \/
     exists j e, a = ARecv i j /\ sig = Reported e) /\
    existingJobID c = NilJobID /\
    store w !! (accountID c, ID (job c)) = Some tempJob /\
    (next_save w = None ->
     store w' !! (accountID c, ID (job c))
       = Some (finalized c sig (clock w) tempJob)) /\
    sent w' = sent w ++
      [Notification.mkMessage Notification.JobCompleted
         (DID_String (accountID c)) (UTC (clock w)) JobDataTypeURL
         (JobID_String (ID (job c)))
         (Status_string (jStatus (finalized c sig (clock w) tempJob)))
         (match last (Logs (finalized c sig (clock w) tempJob)) with
          | Some l => Message l
          | None => ""
          end)] /\
    forall f, exists w'',
      step a (set_sender (sent w) f w) = Some w'' /\
      store w'' = store w' /\ chans w'' = chans w' /\
      pool w'' = pool w' /\ sent w'' = sent w'.
Proof.
  intros Hr H. pose proof (reachable_Inv w Hr) as HI.
  assert (forall i c err sig w0 v0,
            pool w !! i = Some (GSelect c err) ->
            store w0 = store w -> save_faults w0 = save_faults w ->
            clock w0 = clock w -> sent w0 = sent w -> chans w0 = chans w ->
            store v0 = store w -> save_faults v0 = save_faults w ->
            clock v0 = clock w -> sent v0 = sent w -> chans v0 = chans w ->
            pool v0 = pool w0 ->
            w' = run (set_goroutine i GExit) (run (supervise c sig) w0) ->
            sent w' = sent w \/
            exists tempJob,
              existingJobID c = NilJobID /\
              store w !! (accountID c, ID (job c)) = Some tempJob /\
              (next_save w = None ->
               store w' !! (accountID c, ID (job c))
                 = Some (finalized c sig (clock w) tempJob)) /\
              sent w' = sent w ++
                [Notification.mkMessage Notification.JobCompleted
                   (DID_String (accountID c)) (UTC (clock w)) JobDataTypeURL
                   (JobID_String (ID (job c)))
                   (Status_string
                      (jStatus (finalized c sig (clock w) tempJob)))
                   (match last (Logs (finalized c sig (clock w) tempJob))
                    with
                    | Some l => Message l
                    | None => ""
                    end)] /\
              store (run (set_goroutine i GExit) (run (supervise c sig) v0))
                = store w' /\
              chans (run (set_goroutine i GExit) (run (supervise c sig) v0))
                = chans w' /\
              pool (run (set_goroutine i GExit) (run (supervise c sig) v0))
                = pool w' /\
              sent (run (set_goroutine i GExit) (run (supervise c sig) v0))
                = sent w') as Hsel.
  { intros i c err sig w0 v0 Hi S F T N C S' F' T' N' C' P' ->.
    destruct (select_fires w w0 i c err sig HI Hi S F T N C)
      as (tempJob & Ht & Hd & Hid & E1 & E2 & E3 & E4).
    destruct (select_fires w v0 i c err sig HI Hi S' F' T' N' C')
      as (tempJob' & Ht' & _ & _ & E1' & E2' & E3' & E4').
    assert (tempJob' = tempJob) as -> by congruence.
    unfold sent_after in E3, E3'.
    destruct (JobIDEqual (existingJobID c) NilJobID) eqn:E; [| by left].
    right. exists tempJob. apply N.eqb_eq in E.
    destruct (finalized_key c sig (clock w) tempJob) as [Kd Ki].
    split_and!; try done.
    - intros Hn. rewrite E1. unfold stored_after_save. rewrite Hn.
      rewrite Kd, Ki, Hd, Hid. apply lookup_insert_eq.
    - rewrite E3. unfold completion. rewrite Ki, Hid.
      by destruct (last (Logs (finalized c sig (clock w) tempJob))).
    - by rewrite E1, E1'.
    - by rewrite E2, E2'.
    - by rewrite E4, E4', P'.
    - by rewrite E3, E3'. }
  destruct a as [cx acc ex dsc work | acc id status taskName message
                | acc id key value | cx | t | i | i | i j | i | ch];
    simpl in H.
  - injection H as <-. left. apply ExecuteWithinJob_keeps_sent.
  - injection H as <-. left. apply UpdateTaskStatus_keeps_sent.
  - injection H as <-. left. apply UpdateJobWithValue_keeps_sent.
  - injection H as <-. by left.
  - injection H as <-. by left.
  - destruct (pool w !! i) as [[c work| | | |]|]; try done.
    injection H as <-. by left.
  - destruct (pool w !! i) as [[| |acc txID err [[|op later] [e|]]| |]|];
      try done; injection H as <-; left; [done | |];
      rewrite run_bind; simpl sent; destruct op; simpl;
      first [apply UpdateTaskStatus_keeps_sent
            | apply UpdateJobWithValue_keeps_sent].
  - destruct (pool w !! i) as [[|c err| | |]|] eqn:Hi; try done.
    destruct (pool w !! j) as [[| | |err' e|]|] eqn:Hj; try done.
    destruct (err =? err')%nat eqn:Ee; [| done]. injection H as H.
    rewrite run_bind, run_bind in H.
    destruct (Hsel i c err (Reported e) (run (set_goroutine j GExit) w)
                (run (set_goroutine j GExit) (set_sender (sent w) [] w)))
      as [Hl | (tempJob & X1 & X2 & X3 & X4 & _)]; try done; [by left |].
    right. exists i, c, err, (Reported e), tempJob.
    split_and!; try done; [right; by exists j, e |].
    intros f. eexists. split.
    { simpl. rewrite Hi, Hj, Ee. reflexivity. }
    rewrite run_bind, run_bind.
    destruct (Hsel i c err (Reported e) (run (set_goroutine j GExit) w)
                (run (set_goroutine j GExit) (set_sender (sent w) f w)))
      as [Hl | (tempJob' & _ & _ & _ & _ & Y)]; try done.
    rewrite Hl in X4. apply (f_equal length) in X4.
    rewrite length_app in X4. simpl in X4. lia.
  - destruct (pool w !! i) as [[|c err| | |]|] eqn:Hi; try done.
    case_bool_decide as Hc; [| done]. injection H as H.
    rewrite run_bind in H.
    destruct (Hsel i c err CtxDone w (set_sender (sent w) [] w))
      as [Hl | (tempJob & X1 & X2 & X3 & X4 & _)]; try done; [by left |].
    right. exists i, c, err, CtxDone, tempJob.
    split_and!; try done; [by left |].
    intros f. eexists. split.
    { simpl. rewrite Hi. rewrite bool_decide_eq_true_2 by done.
      reflexivity. }
    rewrite run_bind.
    destruct (Hsel i c err CtxDone w (set_sender (sent w) f w))
      as [Hl | (tempJob' & _ & _ & _ & _ & Y)]; try done.
    rewrite Hl in X4. apply (f_equal length) in X4.
    rewrite length_app in X4. simpl in X4. lia.
  - left. unfold recv in H.
    destruct (chans w !! ch) as [[n [|v later]]|]; try done.
    by injection H as <-.
Qed.

Lemma notification_only_for_new_jobs_witness :
  sent (Samples.after [ARecv 0 1] Samples.reporting_nil)
    = sent Samples.reporting_nil \/
  exists i c err sig tempJob,
    pool Samples.reporting_nil !! i = Some (GSelect c err) /\
    (ARecv 0 1 = ACtxDone i /\ sig = CtxDone \/
     exists j e, ARecv 0 1 = ARecv i j /\ sig = Reported e) /\
    existingJobID c = NilJobID /\
    store Samples.reporting_nil !! (accountID c, ID (job c)) = Some tempJob.
Proof.
  destruct (notification_only_for_new_jobs (ARecv 0 1) Samples.reporting_nil
              (Samples.after [ARecv 0 1] Samples.reporting_nil)
              SampleFacts.reporting_nil_reachable eq_refl)
    as [H | (i & c & err & sig & tempJob & H1 & H2 & H3 & H4 & _)].
  - left. exact H.
  - right. exists i, c, err, sig, tempJob.
    split; [exact H1 |]. split; [exact H2 |]. split; [exact H3 | exact H4].
Defined.

(** C6: when every read of the job succeeds, [WaitForJob] returns nil
    exactly when the status it polls becomes Success, returns the error
    [job failed: m], with m the last log message, exactly when the status
    becomes Failed, and is still in its loop after any number of polls
    that all saw Pending. *)
Theorem WaitForJob_returns_on_terminal_status (acc : DID) (id : JobID)
    (polls : list World) :
  Forall (fun v => is_Some (store v !! (acc, id))) polls ->
  (WaitForJob acc id polls = Some None <->
     exists w, becomes acc id polls Success w) /\
  (forall e, WaitForJob acc id polls = Some (Some e) <->
     exists w, becomes acc id polls Failed w /\
               e = job_failed (last_message_at acc id w)) /\
  (forall m, Str.contains m (Text (job_failed m)) = true) /\
  (Forall (fun v => status_at acc id v = Some Pending) polls ->
     WaitForJob acc id polls = None).
Proof.
  intros Hreads. repeat split.
  - intros H. destruct (WaitForJob_returns _ _ _ _ Hreads H)
      as (st & w & Hb & Hne).
    rewrite (WaitForJob_becomes _ _ _ _ _ Hb Hne) in H.
    destruct st; [done | by exists w | done].
  - intros [w Hb]. by rewrite (WaitForJob_becomes _ _ _ _ _ Hb).
  - intros H. destruct (WaitForJob_returns _ _ _ _ Hreads H)
      as (st & w & Hb & Hne).
    rewrite (WaitForJob_becomes _ _ _ _ _ Hb Hne) in H.
    destruct st; [done | done |]. exists w. split; [done | congruence].
  - intros (w & Hb & ->). by rewrite (WaitForJob_becomes _ _ _ _ _ Hb).
  - intros m. apply StrFacts.contains_end.
  - apply WaitForJob_pending.
Qed.

Lemma WaitForJob_returns_on_terminal_status_witness :
  WaitForJob 1%N 5%N
    [Samples.quiet {[ (1%N, 5%N) := Samples.anchoring ]};
     Samples.quiet {[ (1%N, 5%N) := Samples.anchored ]}] = Some None <->
  exists w,
    becomes 1%N 5%N
      [Samples.quiet {[ (1%N, 5%N) := Samples.anchoring ]};
       Samples.quiet {[ (1%N, 5%N) := Samples.anchored ]}] Success w.
Proof.
  apply (WaitForJob_returns_on_terminal_status 1%N 5%N).
  repeat constructor; by eexists.
Defined.

(** C7: for every stored job record, [GetJobStatus] returns without
    error, and leaves the world as it is; the response's Message and
    LastUpdated are the message and the time (shown in UTC, the same
    instant) of the last log entry, or the empty string and the job's
    creation time in UTC when the job has no log entry. *)
Theorem GetJobStatus_of_stored_record (w : World) (acc : DID) (id : JobID)
    (j : Job) :
  store w !! (acc, id) = Some j ->
  exists resp,
    GetJobStatus acc id w = (Ok resp, w) /\
    rJobID resp = JobID_String (ID j) /\
    rStatus resp = Status_string (jStatus j) /\
    match last (Logs j) with
    | Some l =>
        rMessage resp = Message l /\
        rLastUpdated resp = UTC (LogCreatedAt l) /\
        instant (rLastUpdated resp) = instant (LogCreatedAt l)
    | None =>
        rMessage resp = "" /\ rLastUpdated resp = UTC (CreatedAt j)
    end.
Proof.
  intros H.
  destruct (GetJobStatus_found w acc id j H) as (resp & ? & ? & ? & Hm & Ht).
  exists resp. repeat split; try done.
  destruct (last (Logs j)) as [l|]; simpl in *; rewrite Hm, Ht; done.
Qed.

Lemma GetJobStatus_of_stored_record_witness :
  exists resp,
    GetJobStatus 1%N 5%N (Samples.quiet {[ (1%N, 5%N) := Samples.anchored ]})
      = (Ok resp, Samples.quiet {[ (1%N, 5%N) := Samples.anchored ]}) /\
    rJobID resp = JobID_String 5%N /\
    rStatus resp = "success" /\
    rMessage resp = "anchored" /\
    rLastUpdated resp = mkTime 7 0 /\
    instant (rLastUpdated resp) = 7%Z.
Proof.
  exact (GetJobStatus_of_stored_record
           (Samples.quiet {[ (1%N, 5%N) := Samples.anchored ]}) 1%N 5%N
           Samples.anchored eq_refl).
Defined.

(** C9, as it is stated, fails: the goroutine of a cancelled call
    reloads the record of its job, the work function makes two calls of
    [UpdateTaskStatus] that save two log entries, and the goroutine then
    saves the record it reloaded with the cancellation entry: the two
    entries are gone from the repository. *)
Lemma a_save_overtaken_loses_log_entries :
  Interleaving.scheduled MoreSamples.overtaken /\
  Interleaving.next_id_free
    (Interleaving.world MoreSamples.overtaken) /\
  exists s' before now,
    Interleaving.move (Interleaving.Save 0)
      MoreSamples.overtaken = Some s' /\
    store (Interleaving.world MoreSamples.overtaken) !! (1%N, 5%N)
      = Some before /\
    store (Interleaving.world s') !! (1%N, 5%N) = Some now /\
    Message <$> Logs before = ["signed"; "anchored"] /\
    TaskName <$> Logs now = ["context closed"] /\
    ~ Logs before `prefix_of` Logs now /\
    ~ keeps_logs (store (Interleaving.world MoreSamples.overtaken))
                 (store (Interleaving.world s')).
Proof.
  split; [apply Schedules.overtaken_scheduled |]. split.
  - intros acc. vm_compute.
    destruct acc as [|p]; [done |].
    destruct p as [p|p|]; try done; destruct p; done.
  - eexists _, _, _. split; [vm_compute; reflexivity |].
    split; [vm_compute; reflexivity |]. split; [vm_compute; reflexivity |].
    split; [vm_compute; reflexivity |]. split; [vm_compute; reflexivity |].
    assert (forall (a b c : Log), a <> c -> ~ [a; b] `prefix_of` [c]) as Hno.
    { intros a b c Hne [k Hk]. injection Hk as -> _. done. }
    split.
    + apply Hno. discriminate.
    + intros Hk. destruct (Hk (1%N, 5%N) _ ltac:(vm_compute; reflexivity))
        as (j' & Hj' & Hp).
      vm_compute in Hj'. injection Hj' as <-. revert Hp. apply Hno.
      discriminate.
Qed.

(** C9, amended: a call of [UpdateTaskStatus] that returns nil has read
    the job's record and saved it with [TaskStatus[taskName]] set to the
    given status and one log entry of the given task name and message
    added at the end; when N such calls for one job follow each other,
    with nothing else in between and no Save failing, the job's log ends
    up with exactly the N entries added, in the order of the calls.  In
    any schedule, saves of other operations between a load and its save
    included: no move takes a record away from the repository; the
    record an operation loads is the one the repository holds, the one
    it saves is under the same account and id and has the log it loaded,
    longer by one entry at most; and no move takes a log entry away from
    a record unless it is the save of an operation that loaded the record
    before another save changed its log (provided the id a new job is
    given is not already in use). *)
Theorem UpdateTaskStatus_appends_to_the_log :
  (forall w acc id status taskName message,
     value (UpdateTaskStatus acc id status taskName message) w = None ->
     exists tx,
       store w !! (acc, id) = Some tx /\
       store (run (UpdateTaskStatus acc id status taskName message) w)
         = <[(jDID tx, ID tx) :=
               task_updated status taskName message (clock w) tx]>
             (store w) /\
       TaskStatus (task_updated status taskName message (clock w) tx)
         !! taskName = Some status /\
       Logs (task_updated status taskName message (clock w) tx)
         = Logs tx ++ [mkLog taskName message (UTC (clock w))]) /\
  (forall w acc id tx calls,
     store w !! (acc, id) = Some tx ->
     jDID tx = acc -> ID tx = id ->
     Forall (eq None) (save_faults w) ->
     exists w' tx',
       steps (in_sequence acc id calls) w = Some w' /\
       store w' !! (acc, id) = Some tx' /\
       Logs tx' = Logs tx ++ map entry_of calls /\
       length (Logs tx') = (length (Logs tx) + length calls)%nat) /\
  (forall m s s',
     Interleaving.scheduled s ->
     Interleaving.move m s = Some s' ->
     (forall k,
        is_Some (store (Interleaving.world s) !! k) ->
        is_Some (store (Interleaving.world s') !! k)) /\
     (forall f loaded tx,
        Interleaving.flights s' = Interleaving.flights s ++ [f] ->
        Interleaving.snapshot f = Some (loaded, tx) ->
        store (Interleaving.world s) !! (jDID loaded, ID loaded)
          = Some loaded) /\
     (forall n loaded tx,
        m = Interleaving.Save n ->
        Interleaving.flights s !! n ≫= Interleaving.snapshot
          = Some (loaded, tx) ->
        store (Interleaving.world s')
          = stored_after_save tx (Interleaving.world s) /\
        Interleaving.extends loaded tx) /\
     (Interleaving.next_id_free (Interleaving.world s) ->
      Interleaving.unraced m s ->
      keeps_logs (store (Interleaving.world s))
                 (store (Interleaving.world s')))).
Proof.
  split_and!.
  - intros w acc id status taskName message Hv.
    destruct (store w !! (acc, id)) as [tx|] eqn:H.
    + destruct (Trail.UpdateTaskStatus_found w acc id status taskName
                  message tx H) as (Hv' & -> & _).
      exists tx. split; [done |]. rewrite Hv in Hv'.
      unfold stored_after_save. rewrite <- Hv'. split; [done |].
      split; [apply lookup_insert_eq | done].
    + destruct (Trail.UpdateTaskStatus_not_found w acc id status taskName
                  message H) as (Hv' & _). congruence.
  - intros w acc id tx calls H Hd Hi F.
    destruct (Trail.sequential_calls acc id calls w tx H Hd Hi F)
      as (w' & tx' & Hrun & Hlook & Hlogs).
    exists w', tx'. split_and!; try done.
    by rewrite Hlogs, length_app, length_map.
  - intros m s s' Hs Hm.
    destruct (Schedules.scheduled_sound s Hs) as [K F].
    destruct (Schedules.move_after m s s' K Hm) as [Hrep Hfl].
    split_and!.
    + apply (Schedules.move_store_grows m s s' K Hm).
    + intros f loaded tx Hf Hsnap.
      destruct Hfl as [Hf' | f0 l0 t0 Hf' H0 (acc & id & Hl) _ | n0 _ Hf'];
        rewrite Hf' in Hf.
      * apply (f_equal length) in Hf. rewrite length_app in Hf. simpl in Hf.
        lia.
      * apply app_inj_tail in Hf as [_ ->].
        assert (l0 = loaded) as -> by congruence.
        by destruct (K _ _ _ Hl) as [-> ->].
      * apply (f_equal length) in Hf.
        rewrite length_insert, length_app in Hf. simpl in Hf. lia.
    + intros n loaded tx -> Hn.
      destruct (Interleaving.flights s !! n) as [f|] eqn:Hf; [| done].
      simpl in Hn. split; [| by apply (F n f)].
      by apply (Schedules.save_stores_the_snapshot n s s' f loaded tx).
    + intros Hnew Hu. by apply (Schedules.move_keeps_logs m s s').
Qed.

Lemma UpdateTaskStatus_appends_to_the_log_witness :
  (exists w' tx',
     steps (in_sequence 1%N 5%N
              [mkTaskCall (mkTime 10 0) Success "sign" "signed";
               mkTaskCall (mkTime 11 0) Failed "anchor" "rpc timeout"])
           (Samples.quiet {[ (1%N, 5%N) := Samples.anchoring ]}) = Some w' /\
     store w' !! (1%N, 5%N) = Some tx' /\
     Logs tx' = [mkLog "sign" "signed" (mkTime 10 0);
                 mkLog "anchor" "rpc timeout" (mkTime 11 0)]) /\
  (exists s',
     Interleaving.move (Interleaving.Save 0) MoreSamples.signing_alone
       = Some s' /\
     keeps_logs (store (Interleaving.world MoreSamples.signing_alone))
                (store (Interleaving.world s'))).
Proof.
  split.
  - assert (store (Samples.quiet {[ (1%N, 5%N) := Samples.anchoring ]})
              !! (1%N, 5%N) = Some Samples.anchoring) as Hlook
      by reflexivity.
    destruct (proj1 (proj2 UpdateTaskStatus_appends_to_the_log)
                (Samples.quiet {[ (1%N, 5%N) := Samples.anchoring ]}) 1%N 5%N
                Samples.anchoring
                [mkTaskCall (mkTime 10 0) Success "sign" "signed";
                 mkTaskCall (mkTime 11 0) Failed "anchor" "rpc timeout"]
                Hlook eq_refl eq_refl (Forall_nil_2 _))
      as (w' & tx' & H1 & H2 & H3 & _).
    exists w', tx'. split; [exact H1 |]. split; [exact H2 | exact H3].
  - assert (is_Some (Interleaving.move (Interleaving.Save 0)
                       MoreSamples.signing_alone)) as [s' Hm]
      by (vm_compute; eexists; reflexivity).
    exists s'. split; [exact Hm |].
    destruct (proj2 (proj2 UpdateTaskStatus_appends_to_the_log)
                (Interleaving.Save 0) MoreSamples.signing_alone s'
                Schedules.signing_alone_scheduled Hm) as (_ & _ & _ & H).
    apply H; [apply Schedules.signing_alone_next_id_free |].
    vm_compute. reflexivity.
Defined.

(** C10: when [ExecuteWithinJob] finds no record for [existingJobID] and
    the save of the new job fails with [e], it returns the nil job id, the
    nil channel and [e]; no goroutine has been started and no channel
    made, and the repository's records are as they were.  A receive on
    the channel it returned can proceed in no later world. *)
Theorem ExecuteWithinJob_first_save_fails (w : World) (cx : nat) (acc : DID)
    (ex : JobID) (dsc : string) (work : WorkFn) (e : Error)
    (later : list error) :
  store w !! (acc, ex) = None ->
  save_faults w = Some e :: later ->
  value (ExecuteWithinJob cx acc ex dsc work) w = (NilJobID, None, Some e) /\
  pool (run (ExecuteWithinJob cx acc ex dsc work) w) = pool w /\
  chans (run (ExecuteWithinJob cx acc ex dsc work) w) = chans w /\
  store (run (ExecuteWithinJob cx acc ex dsc work) w) = store w /\
  (forall acts w',
     steps acts (run (ExecuteWithinJob cx acc ex dsc work) w) = Some w' ->
     recv (snd (fst (value (ExecuteWithinJob cx acc ex dsc work) w))) w'
       = None).
Proof.
  intros H F. unfold value, run.
  rewrite (ExecuteWithinJob_save_failed _ _ _ _ _ _ _ _ H F). done.
Qed.

Lemma ExecuteWithinJob_first_save_fails_witness :
  value (ExecuteWithinJob 0 1%N NilJobID "anchor document" Samples.sleeping)
        Samples.failing_repository
    = (NilJobID, None, Some Samples.disk_full) /\
  pool (run (ExecuteWithinJob 0 1%N NilJobID "anchor document"
               Samples.sleeping) Samples.failing_repository) = [].
Proof.
  destruct (ExecuteWithinJob_first_save_fails Samples.failing_repository 0
              1%N NilJobID "anchor document" Samples.sleeping
              Samples.disk_full [] eq_refl eq_refl) as (H1 & H2 & _).
  split; [exact H1 | exact H2].
Defined.

End ManagerSpec.

(** ** The queue server's contract *)

Module QueueSpec.
Import Time Errors Queue.

Section WithBroker.

Context {Defaults CeleryClient AsyncResult : Type}.
Variable DefaultSettings : TaskSettings Defaults.
Variable Delay :
  CeleryClient -> Task Defaults ->
  CeleryClient * (AsyncResult + Error).

(** C8: with no writer holding the lock, [EnqueueJob] returns and
    leaves the lock as it found it.  While the broker has not been
    constructed it returns the error that the queue hasn't been
    initialised, and the server is unchanged; once the broker exists,
    the task handed to the broker's [Delay] has the given name and
    parameters and a ValidUntil of now plus the configured task
    validity duration, and what [Delay] returns is returned. *)
Theorem EnqueueJob_before_and_after_Start (now : Time) (taskName : string)
    (params : gmap string Any) (qs : Server) :
  writer (lock qs) = false ->
  match queue qs with
  | None =>
      EnqueueJob DefaultSettings Delay now taskName params qs
        = Returned (inr not_initialised) qs
  | Some q =>
      exists task,
        Name task = taskName /\
        Kwargs task = params /\
        ValidUntil (Settings task)
          = Add now (GetTaskValidDuration (config qs)) /\
        instant (ValidUntil (Settings task))
          = (instant now + GetTaskValidDuration (config qs))%Z /\
        EnqueueJob DefaultSettings Delay now taskName params qs
          = Returned (snd (Delay q task))
              (mkServer (config qs) (lock qs) (Some (fst (Delay q task)))
                        (taskTypes qs))
  end.
Proof.
  destruct qs as [cfg [wr rd] [q|] tts]; simpl; intros ->.
  - exists (mkTask taskName params
              (mkSettings (Add now (GetTaskValidDuration cfg))
                          (others DefaultSettings))).
    repeat split. unfold EnqueueJob, enqueueJob. simpl.
    by destruct (Delay q _).
  - done.
Qed.

End WithBroker.

Lemma EnqueueJob_before_and_after_Start_witness :
  EnqueueJob (mkSettings (mkTime 0 0) tt) Samples.listing (mkTime 50 0) "ping"
             {[ "n" := AInt 1 ]}
             (mkServer (mkConfig 2 10 1000%Z) (mkLock false 0) None ["ping"])
    = Returned (inr not_initialised)
        (mkServer (mkConfig 2 10 1000%Z) (mkLock false 0) None ["ping"]).
Proof.
  exact (EnqueueJob_before_and_after_Start
           (mkSettings (mkTime 0 0) tt) Samples.listing (mkTime 50 0) "ping"
           {[ "n" := AInt 1 ]}
           (mkServer (mkConfig 2 10 1000%Z) (mkLock false 0) None ["ping"])
           eq_refl).
Defined.

End QueueSpec.

(** ** Every step, by what it does to the records *)

Module ChangeFacts.
Import Vocabulary Time Errors Jobs JobsV1 Frame Invariant Finalize Changes.

Lemma finalized_fields c sig t tx :
  ID (finalized c sig t tx) = ID tx /\
  jDID (finalized c sig t tx) = jDID tx /\
  Description (finalized c sig t tx) = Description tx /\
  CreatedAt (finalized c sig t tx) = CreatedAt tx /\
  TaskStatus (finalized c sig t tx) = TaskStatus tx /\
  Values (finalized c sig t tx) = Values tx.
Proof.
  destruct sig as [[e|]|]; simpl; try done.
  by destruct (JobIDEqual (existingJobID c) NilJobID).
Qed.

Lemma edit_key w a tx tx' :
  edit w a tx tx' -> jDID tx' = jDID tx /\ ID tx' = ID tx.
Proof.
  intros [st tn msg | key v | i c sig _ _ _]; try done.
  by destruct (finalized_fields c sig (clock w) tx) as (-> & -> & _).
Qed.

(** A save of an edited record: nothing when the Save fails, the record
    replaced under its key otherwise. *)
Lemma save_of_edit w a w' acc id tx tx' :
  well_keyed (store w) -> store w !! (acc, id) = Some tx ->
  edit w a tx tx' -> store w' = stored_after_save tx' w ->
  store_change w a w'.
Proof.
  intros K H E Hs. unfold stored_after_save in Hs.
  destruct (next_save w).
  - by apply unchanged.
  - destruct (edit_key w a tx tx' E) as [Hd Hi].
    destruct (K _ _ _ H) as [Ha Hb].
    apply (edited w a w' acc id tx tx'); try done. by rewrite Hs, Hd, Hi, Ha, Hb.
Qed.

Lemma select_store_change w a i c err sig w0 :
  well_keyed (store w) ->
  pool w !! i = Some (GSelect c err) ->
  (a = ACtxDone i /\ sig = CtxDone \/
   exists j e, a = ARecv i j /\ sig = Reported e /\
               pool w !! j = Some (GSend err e)) ->
  store w0 = store w -> save_faults w0 = save_faults w -> clock w0 = clock w ->
  store_change w a (run (set_goroutine i GExit) (run (supervise c sig) w0)).
Proof.
  intros K Hi Ha S F T.
  destruct (store w !! (accountID c, ID (job c))) as [tempJob|] eqn:H.
  - destruct (K _ _ _ H) as [Hd Hid].
    apply (save_of_edit w a _ (accountID c) (ID (job c)) tempJob
             (finalized c sig (clock w) tempJob)); try done.
    + apply edit_final with (i := i); try done. by exists err.
    + simpl store. rewrite Trail.supervise_store.
      rewrite <- S in H.
      destruct (finalize_found c sig w0 tempJob H) as (_ & ->).
      unfold stored_after_save, next_save. by rewrite S, F, T.
  - apply unchanged. simpl store. rewrite Trail.supervise_store.
    rewrite <- S in H. by destruct (finalize_not_found c sig w0 H) as (_ & ->).
Qed.

Lemma step_store_change a w w' :
  well_keyed (store w) -> step a w = Some w' -> store_change w a w'.
Proof.
  intros K H.
  destruct a as [cx acc ex dsc work | acc id status taskName message
                | acc id key value | cx | t | i | i | i j | i | ch];
    simpl in H.
  - injection H as <-. unfold run.
    destruct (store w !! (acc, ex)) as [j|] eqn:Hj.
    + rewrite (ExecuteWithinJob_found _ _ _ _ _ _ _ Hj). by apply unchanged.
    + destruct (save_faults w) as [|[e|] later] eqn:F.
      * rewrite ExecuteWithinJob_saved; [| done | left; by rewrite F].
        by apply (created _ _ _ acc dsc).
      * rewrite (ExecuteWithinJob_save_failed _ _ _ _ _ _ _ _ Hj F).
        by apply unchanged.
      * rewrite ExecuteWithinJob_saved; [| done | right; by rewrite F].
        by apply (created _ _ _ acc dsc).
  - injection H as <-. destruct (store w !! (acc, id)) as [tx|] eqn:Hx.
    + apply (save_of_edit w _ _ acc id tx
               (task_updated status taskName message (clock w) tx));
        [done | done | apply edit_task |].
      by destruct (Trail.UpdateTaskStatus_found w acc id status taskName
                     message tx Hx) as (_ & -> & _).
    + apply unchanged.
      by destruct (Trail.UpdateTaskStatus_not_found w acc id status taskName
                     message Hx) as (_ & ->).
  - injection H as <-. destruct (store w !! (acc, id)) as [tx|] eqn:Hx.
    + apply (save_of_edit w _ _ acc id tx
               (setValues (<[key := mkJobValue key value]> (Values tx)) tx));
        [done | done | apply edit_value |].
      by rewrite (Trail.UpdateJobWithValue_found w acc id key value tx Hx).
    + apply unchanged.
      by rewrite (Trail.UpdateJobWithValue_not_found w acc id key value Hx).
  - injection H as <-. by apply unchanged.
  - injection H as <-. by apply unchanged.
  - destruct (pool w !! i) as [[c work| | | |]|]; try done.
    injection H as <-. by apply unchanged.
  - destruct (pool w !! i) as [[| |acc txID err [[|op later] [e|]]| |]|];
      try done; injection H as <-; [by apply unchanged | |];
      rewrite run_bind; destruct op as [status taskName message | key value];
      simpl work_op;
      destruct (store w !! (acc, txID)) as [tx|] eqn:Hx.
    all: try (apply unchanged; simpl store;
              first [ by destruct (Trail.UpdateTaskStatus_not_found w acc txID
                           status taskName message Hx) as (_ & ->)
                    | by rewrite (Trail.UpdateJobWithValue_not_found w acc
                           txID key value Hx) ]).
    all: first
      [ apply (save_of_edit w _ _ acc txID tx
                 (task_updated status taskName message (clock w) tx));
          [done | done | apply edit_task |]; simpl store;
          by destruct (Trail.UpdateTaskStatus_found w acc txID status taskName
                         message tx Hx) as (_ & -> & _)
      | apply (save_of_edit w _ _ acc txID tx
                 (setValues (<[key := mkJobValue key value]> (Values tx)) tx));
          [done | done | apply edit_value |]; simpl store;
          by rewrite (Trail.UpdateJobWithValue_found w acc txID key value
                        tx Hx) ].
  - destruct (pool w !! i) as [[|c err| | |]|] eqn:Hi; try done.
    destruct (pool w !! j) as [[| | |err' e|]|] eqn:Hj; try done.
    destruct (err =? err')%nat eqn:E; [| done]. injection H as <-.
    apply Nat.eqb_eq in E as <-. rewrite run_bind, run_bind.
    apply (select_store_change w _ i c err (Reported e)); try done.
    right. by exists j, e.
  - destruct (pool w !! i) as [[|c err| | |]|] eqn:Hi; try done.
    case_bool_decide; [| done]. injection H as <-. rewrite run_bind.
    apply (select_store_change w _ i c err CtxDone); try done. by left.
  - unfold recv in H.
    destruct (chans w !! ch) as [[n [|v later]]|]; try done.
    injection H as <-. by apply unchanged.
Qed.

End ChangeFacts.

(** ** The further sample worlds can be reached *)

Module MoreSampleFacts.
Import Vocabulary Time Errors Jobs JobsV1 Invariant Samples MoreSamples.

Lemma stored_initial j : initial (stored j).
Proof.
  split; [| done]. intros acc id j' H. simpl in H.
  apply lookup_singleton_Some in H as [[= <- <-] <-]. done.
Qed.

Lemma stored_reachable j : reachable (stored j).
Proof. apply reach_initial, stored_initial. Qed.

Lemma retrying_reachable : reachable retrying.
Proof.
  apply SampleFacts.after_reachable; [apply stored_reachable |].
  vm_compute. by eexists.
Qed.

Lemma resuming_reachable : reachable resuming.
Proof.
  apply SampleFacts.after_reachable; [apply stored_reachable |].
  vm_compute. by eexists.
Qed.

Lemma full_disk_reachable : reachable reporting_nil_to_a_full_disk.
Proof.
  apply SampleFacts.after_reachable.
  - apply reach_initial. split; [| done]. intros acc id j H. simpl in H.
    by rewrite lookup_empty in H.
  - vm_compute. by eexists.
Qed.

(** In the sample world of the new job, the next id is not in use. *)
Lemma reporting_nil_fresh acc :
  store reporting_nil !! (acc, uuids reporting_nil (drawn reporting_nil))
    = None.
Proof.
  assert (store reporting_nil
          = {[ (1%N, 100%N) := job the_call ]}) as -> by (vm_compute; done).
  apply lookup_singleton_ne. intros H. inversion H.
Qed.

End MoreSampleFacts.

(** ** More of the manager *)

Module ManagerExtra.
Import Vocabulary Time Errors Jobs JobsV1 StatusFacts Frame Invariant.
Import Finalize Changes ChangeFacts.

Lemma edit_fields w a tx tx' :
  edit w a tx tx' ->
  ID tx' = ID tx /\ jDID tx' = jDID tx /\
  Description tx' = Description tx /\ CreatedAt tx' = CreatedAt tx.
Proof.
  intros [st tn msg | key v | i c sig _ _ _]; try done.
  by destruct (finalized_fields c sig (clock w) tx) as (-> & -> & -> & -> & _).
Qed.

(** The record under a key after a step, from the record before it. *)
Lemma record_after_step a w w' k tx tx' :
  well_keyed (store w) ->
  (forall acc, store w !! (acc, uuids w (drawn w)) = None) ->
  step a w = Some w' ->
  store w !! k = Some tx -> store w' !! k = Some tx' ->
  tx' = tx \/ edit w a tx tx'.
Proof.
  intros K Hnew Hstep H H'.
  destruct (step_store_change a w w' K Hstep)
    as [Hs | acc dsc Hs | acc id tx0 tx0' H0 E Hs]; rewrite Hs in H'.
  - left. congruence.
  - left. rewrite lookup_insert_ne in H'; [congruence |].
    intros <-. by rewrite Hnew in H.
  - destruct (decide (k = (acc, id))) as [->|Hne].
    + rewrite lookup_insert_eq in H'. right. congruence.
    + rewrite lookup_insert_ne in H' by done. left. congruence.
Qed.

(** X1: as long as no save comes between the load of an operation and
    its save (each step of [step] runs an operation whole), the Status of
    a record is changed by one kind of step only: a select that receives
    what the work function of a call for that job reported.  Then it
    becomes Failed when an error was reported, and Success when nil was
    reported and the call was made with the nil job id; updates of task
    status or values, cancellations and new calls leave it as it is. *)
Theorem status_changes_only_on_a_report (a : Action) (w w' : World)
    (k : DID * JobID) (tx tx' : Job) :
  reachable w ->
  (forall acc, store w !! (acc, uuids w (drawn w)) = None) ->
  step a w = Some w' ->
  store w !! k = Some tx -> store w' !! k = Some tx' ->
  jStatus tx' = jStatus tx \/
  exists i j c err e,
    a = ARecv i j /\
    pool w !! i = Some (GSelect c err) /\
    pool w !! j = Some (GSend err e) /\
    k = (accountID c, ID (job c)) /\
    match e with
    | None => existingJobID c = NilJobID /\ jStatus tx' = Success
    | Some _ => jStatus tx' = Failed
    end.
Proof.
  intros Hr Hnew Hstep H H'. pose proof (keyed w (reachable_Inv w Hr)) as K.
  destruct (record_after_step a w w' k tx tx' K Hnew Hstep H H')
    as [-> | [st tn msg | key v | i c sig (err & Hi & Hf) Hd Hid]];
    try by left.
  destruct Hf as [[-> ->] | (j & e & -> & -> & Hj)]; [by left |].
  destruct e as [e'|]; simpl.
  - right. exists i, j, c, err, (Some e'). split_and!; try done.
    destruct k as [acc id]. destruct (K _ _ _ H) as [<- <-]. congruence.
  - destruct (JobIDEqual (existingJobID c) NilJobID) eqn:E; [| by left].
    right. exists i, j, c, err, None. apply N.eqb_eq in E.
    split_and!; try done.
    destruct k as [acc id]. destruct (K _ _ _ H) as [<- <-]. congruence.
Qed.

(** X2: as long as no save comes between the load of an operation and
    its save (each step of [step] runs an operation whole) and the id a
    new job is given is not in use, no step changes the id, the account,
    the description or the creation time of a record. *)
Theorem a_record_keeps_its_identity (a : Action) (w w' : World)
    (k : DID * JobID) (tx tx' : Job) :
  reachable w ->
  (forall acc, store w !! (acc, uuids w (drawn w)) = None) ->
  step a w = Some w' ->
  store w !! k = Some tx -> store w' !! k = Some tx' ->
  ID tx' = ID tx /\ jDID tx' = jDID tx /\
  Description tx' = Description tx /\ CreatedAt tx' = CreatedAt tx.
Proof.
  intros Hr Hnew Hstep H H'. pose proof (keyed w (reachable_Inv w Hr)) as K.
  destruct (record_after_step a w w' k tx tx' K Hnew Hstep H H') as [-> | E];
    [done | by apply (edit_fields w a)].
Qed.

(** X3: the job id a call of [ExecuteWithinJob] returns without error
    names a record of the account, and goes on naming one whatever the
    program does next, in any schedule, saves that overtake one another
    included: [GetJob] on it never fails. *)
Theorem a_returned_job_id_stays_resolvable (s : Interleaving.Threads)
    (cx : nat) (acc : DID) (ex : JobID) (dsc : string) (work : WorkFn)
    (txID : JobID) (d : option nat) (ms : list Interleaving.Move)
    (s' : Interleaving.Threads) :
  Interleaving.scheduled s ->
  value (ExecuteWithinJob cx acc ex dsc work) (Interleaving.world s)
    = (txID, d, None) ->
  Interleaving.moves
    (Interleaving.Whole (ACall cx acc ex dsc work) :: ms) s = Some s' ->
  exists j,
    GetJob acc txID (Interleaving.world s') = (Ok j, Interleaving.world s') /\
    ID j = txID /\ jDID j = acc.
Proof.
  intros Hs Hv Hrun. destruct (Schedules.scheduled_sound s Hs) as [K _].
  destruct s as [w fs]. cbn [Interleaving.world] in *.
  set (s1 := Interleaving.mkThreads
               (run (ExecuteWithinJob cx acc ex dsc work) w) fs).
  assert (Interleaving.move (Interleaving.Whole (ACall cx acc ex dsc work))
            (Interleaving.mkThreads w fs) = Some s1) as Hm by done.
  assert (Interleaving.moves ms s1 = Some s') as Hrun1.
  { change (Interleaving.moves (_ :: ms) _)
      with (match Interleaving.move
                    (Interleaving.Whole (ACall cx acc ex dsc work))
                    (Interleaving.mkThreads w fs) with
            | Some s0 => Interleaving.moves ms s0
            | None => None
            end) in Hrun.
    by rewrite Hm in Hrun. }
  assert (Interleaving.scheduled s1) as Hs1
    by (by apply (Interleaving.sched_move _ _ _ Hs Hm)).
  assert (is_Some (store (Interleaving.world s1) !! (acc, txID))) as Hk.
  { unfold s1. cbn [Interleaving.world]. unfold run, value in *.
    destruct (store w !! (acc, ex)) as [j|] eqn:Hj.
    - rewrite (ExecuteWithinJob_found _ _ _ _ _ _ _ Hj) in *. simpl in *.
      injection Hv as <- _. destruct (K _ _ _ Hj) as [_ ->].
      by rewrite Hj.
    - destruct (save_faults w) as [|[e|] later] eqn:F.
      + rewrite ExecuteWithinJob_saved in *;
          try done; try (left; by rewrite F).
        simpl in *. injection Hv as <- _. by rewrite lookup_insert_eq.
      + by rewrite (ExecuteWithinJob_save_failed _ _ _ _ _ _ _ _ Hj F) in Hv.
      + rewrite ExecuteWithinJob_saved in *;
          try done; try (right; by rewrite F).
        simpl in *. injection Hv as <- _. by rewrite lookup_insert_eq. }
  destruct (Schedules.moves_keep_records ms s1 s' _ Hs1 Hrun1 Hk) as [j Hj].
  exists j. unfold GetJob, repo_Get. rewrite Hj. split; [done |].
  pose proof (Schedules.moves_scheduled ms s1 s' Hs1 Hrun1) as Hs'.
  destruct (Schedules.scheduled_sound s' Hs') as [K' _].
  destruct (K' _ _ _ Hj) as [-> ->]. done.
Qed.

Lemma status_changes_only_on_a_report_witness :
  forall tx tx',
    store Samples.reporting_nil !! (1%N, 100%N) = Some tx ->
    store (Samples.after [ARecv 0 1] Samples.reporting_nil) !! (1%N, 100%N)
      = Some tx' ->
    jStatus tx' = jStatus tx \/
    exists i j c err e,
      ARecv 0 1 = ARecv i j /\
      pool Samples.reporting_nil !! i = Some (GSelect c err) /\
      pool Samples.reporting_nil !! j = Some (GSend err e) /\
      (1%N, 100%N) = (accountID c, ID (job c)) /\
      match e with
      | None => existingJobID c = NilJobID /\ jStatus tx' = Success
      | Some _ => jStatus tx' = Failed
      end.
Proof.
  intros tx tx'.
  exact (status_changes_only_on_a_report (ARecv 0 1) Samples.reporting_nil
           (Samples.after [ARecv 0 1] Samples.reporting_nil) (1%N, 100%N)
           tx tx' SampleFacts.reporting_nil_reachable
           MoreSampleFacts.reporting_nil_fresh
           ltac:(vm_compute; reflexivity)).
Defined.

Lemma a_record_keeps_its_identity_witness :
  forall tx tx',
    store Samples.reporting_nil !! (1%N, 100%N) = Some tx ->
    store (Samples.after [ARecv 0 1] Samples.reporting_nil) !! (1%N, 100%N)
      = Some tx' ->
    ID tx' = ID tx /\ jDID tx' = jDID tx /\
    Description tx' = Description tx /\ CreatedAt tx' = CreatedAt tx.
Proof.
  intros tx tx'.
  exact (a_record_keeps_its_identity (ARecv 0 1) Samples.reporting_nil
           (Samples.after [ARecv 0 1] Samples.reporting_nil) (1%N, 100%N)
           tx tx' SampleFacts.reporting_nil_reachable
           MoreSampleFacts.reporting_nil_fresh
           ltac:(vm_compute; reflexivity)).
Defined.

Lemma a_returned_job_id_stays_resolvable_witness :
  exists s' j,
    Interleaving.moves
      (Interleaving.Save 0 :: [])
      MoreSamples.overtaken = Some s' /\
    GetJob 1%N 5%N (Interleaving.world s') = (Ok j, Interleaving.world s') /\
    ID j = 5%N /\ jDID j = 1%N.
Proof.
  set (s0 := Interleaving.mkThreads (MoreSamples.stored Samples.anchoring) []).
  assert (is_Some (Interleaving.moves [Interleaving.Save 0]
                     MoreSamples.overtaken)) as [s' Hs']
    by (vm_compute; eexists; reflexivity).
  assert (Interleaving.moves
            (MoreSamples.overtaking ++ [Interleaving.Save 0]) s0 = Some s')
    as Hrun by (rewrite <- Hs'; vm_compute; reflexivity).
  assert (value (ExecuteWithinJob 0 1%N 5%N "anchor document"
                   MoreSamples.signing) (Interleaving.world s0)
          = (5%N, Some 0%nat, None)) as Hv by (vm_compute; reflexivity).
  destruct (a_returned_job_id_stays_resolvable s0 0 1%N 5%N
              "anchor document" MoreSamples.signing 5%N (Some 0%nat)
              _ s' (Schedules.stored_scheduled Samples.anchoring) Hv Hrun)
    as (j & H1 & H2 & H3).
  exists s', j. split; [exact Hs' |]. split; [exact H1 |].
  split; [exact H2 | exact H3].
Defined.

Lemma UpdateJobWithValue_found_value w acc id key v tx :
  store w !! (acc, id) = Some tx ->
  value (UpdateJobWithValue acc id key v) w = next_save w.
Proof.
  intros H. crunch. rewrite H. simpl.
  by destruct (save_faults w) as [|[e|] later].
Qed.

Lemma UpdateJobWithValue_missing w acc id key v :
  store w !! (acc, id) = None ->
  UpdateJobWithValue acc id key v w = (Some ErrNotFound, w).
Proof.
  intros H. unfold UpdateJobWithValue, GetJob, repo_Get, bind. by rewrite H.
Qed.

(** X4: a call of [UpdateJobWithValue] that returns nil has read the
    job's record and saved it, under the same key, with the value stored
    under [key] (together with the key itself) and nothing else changed:
    the other values, the log, the Status and the task statuses are as
    they were, and so is every other record. *)
Theorem UpdateJobWithValue_stores_the_value (w : World) (acc : DID)
    (id : JobID) (key : string) (v : list Byte.byte) :
  reachable w ->
  value (UpdateJobWithValue acc id key v) w = None ->
  exists tx tx',
    store w !! (acc, id) = Some tx /\
    store (run (UpdateJobWithValue acc id key v) w)
      = <[(acc, id) := tx']> (store w) /\
    Values tx' !! key = Some (mkJobValue key v) /\
    (forall k, k <> key -> Values tx' !! k = Values tx !! k) /\
    Logs tx' = Logs tx /\ jStatus tx' = jStatus tx /\
    TaskStatus tx' = TaskStatus tx.
Proof.
  intros Hr Hv. pose proof (keyed w (reachable_Inv w Hr)) as K.
  destruct (store w !! (acc, id)) as [tx|] eqn:H.
  - rewrite (UpdateJobWithValue_found_value w acc id key v tx H) in Hv.
    exists tx, (setValues (<[key := mkJobValue key v]> (Values tx)) tx).
    split; [done |].
    rewrite (Trail.UpdateJobWithValue_found w acc id key v tx H).
    unfold stored_after_save. rewrite Hv. simpl.
    destruct (K _ _ _ H) as [-> ->]. split_and!; try done.
    + apply lookup_insert_eq.
    + intros k Hk. by apply lookup_insert_ne.
  - unfold value in Hv.
    rewrite (UpdateJobWithValue_missing w acc id key v H) in Hv. done.
Qed.

Lemma UpdateJobWithValue_stores_the_value_witness :
  exists tx tx',
    store (MoreSamples.stored Samples.anchoring) !! (1%N, 5%N) = Some tx /\
    store (run (UpdateJobWithValue 1%N 5%N "anchor" [])
               (MoreSamples.stored Samples.anchoring))
      = <[(1%N, 5%N) := tx']> (store (MoreSamples.stored Samples.anchoring)) /\
    Values tx' !! "anchor" = Some (mkJobValue "anchor" []).
Proof.
  destruct (UpdateJobWithValue_stores_the_value
              (MoreSamples.stored Samples.anchoring) 1%N 5%N "anchor" []
              (MoreSampleFacts.stored_reachable Samples.anchoring)
              ltac:(vm_compute; reflexivity))
    as (tx & tx' & H1 & H2 & H3 & _).
  exists tx, tx'. split; [exact H1 |]. split; [exact H2 | exact H3].
Defined.

(** X5: when the repository has no record for the account and id,
    [UpdateJobWithValue], [UpdateTaskStatus] and [GetJobStatus] return the
    repository's error and leave the world exactly as it was (no Save is
    attempted), and [WaitForJob] returns that error at the first poll
    that finds no record, whatever the polls before it saw. *)
Theorem a_missing_job_is_an_error (w : World) (acc : DID) (id : JobID) :
  store w !! (acc, id) = None ->
  (forall key v, UpdateJobWithValue acc id key v w = (Some ErrNotFound, w)) /\
  (forall status taskName message,
     UpdateTaskStatus acc id status taskName message w
       = (Some ErrNotFound, w)) /\
  GetJobStatus acc id w = (Err ErrNotFound, w) /\
  (forall before later,
     Forall (fun v => status_at acc id v = Some Pending) before ->
     WaitForJob acc id (before ++ w :: later) = Some (Some ErrNotFound)).
Proof.
  intros H. split_and!.
  - intros key v. by apply UpdateJobWithValue_missing.
  - intros status taskName message.
    unfold UpdateTaskStatus, GetJob, repo_Get, bind. by rewrite H.
  - unfold GetJobStatus, GetJob, repo_Get, bind. by rewrite H.
  - intros before later Hb. induction Hb as [|v before Hv _ IH]; simpl.
    + unfold WaitForJob_poll, value, GetJobStatus, GetJob, repo_Get, bind.
      by rewrite H.
    + unfold status_at in Hv.
      destruct (store v !! (acc, id)) as [j|] eqn:Hj; [| done].
      rewrite (WaitForJob_poll_found _ _ _ _ Hj).
      simpl in Hv. injection Hv as ->. exact IH.
Qed.

Lemma a_missing_job_is_an_error_witness :
  WaitForJob 1%N 6%N
    ([MoreSamples.stored (mkJob 6%N 1%N "anchor" Pending ∅ ∅ []
                                (mkTime 1 0))]
     ++ Samples.quiet ∅ :: []) = Some (Some ErrNotFound).
Proof.
  assert (store (Samples.quiet ∅) !! (1%N, 6%N) = None) as H
    by reflexivity.
  apply (proj2 (proj2 (proj2
           (a_missing_job_is_an_error (Samples.quiet ∅) 1%N 6%N H)))).
  repeat constructor.
Defined.

(** *** The step in which a select fires, in full *)

Lemma report_step w i j c err e :
  reachable w ->
  pool w !! i = Some (GSelect c err) ->
  pool w !! j = Some (GSend err e) ->
  exists tempJob w',
    step (ARecv i j) w = Some w' /\
    store w !! (accountID c, ID (job c)) = Some tempJob /\
    jDID tempJob = accountID c /\ ID tempJob = ID (job c) /\
    is_Some (chans w !! done c) /\
    store w' = stored_after_save
                 (finalized c (Reported e) (clock w) tempJob) w /\
    chans w' = <[done c := mkChan 1 [done_error c (Reported e) w]]> (chans w) /\
    sent w' = sent_after c (Some (finalized c (Reported e) (clock w) tempJob)) w.
Proof.
  intros Hr Hi Hj. pose proof (reachable_Inv w Hr) as HI.
  destruct (select_fires w (run (set_goroutine j GExit) w) i c err
              (Reported e) HI Hi)
    as (tempJob & Ht & Hd & Hid & E1 & E2 & E3 & _); try done.
  exists tempJob. eexists. split.
  { simpl. rewrite Hi, Hj, Nat.eqb_refl. reflexivity. }
  rewrite run_bind, run_bind. split_and!; try done.
  rewrite (done_empty w HI i _ c Hi eq_refl). by eexists.
Qed.

Lemma cancel_step w i c err :
  reachable w ->
  pool w !! i = Some (GSelect c err) ->
  ctx c ∈ cancelled w ->
  exists tempJob w',
    step (ACtxDone i) w = Some w' /\
    store w !! (accountID c, ID (job c)) = Some tempJob /\
    jDID tempJob = accountID c /\ ID tempJob = ID (job c) /\
    is_Some (chans w !! done c) /\
    store w' = stored_after_save (finalized c CtxDone (clock w) tempJob) w /\
    chans w' = <[done c := mkChan 1 [done_error c CtxDone w]]> (chans w) /\
    sent w' = sent_after c (Some (finalized c CtxDone (clock w) tempJob)) w.
Proof.
  intros Hr Hi Hc. pose proof (reachable_Inv w Hr) as HI.
  destruct (select_fires w w i c err CtxDone HI Hi)
    as (tempJob & Ht & Hd & Hid & E1 & E2 & E3 & _); try done.
  exists tempJob. eexists. split.
  { simpl. rewrite Hi. rewrite bool_decide_eq_true_2 by done. reflexivity. }
  rewrite run_bind. split_and!; try done.
  rewrite (done_empty w HI i _ c Hi eq_refl). by eexists.
Qed.

(** X6: when the context of a call is done first, the done channel
    receives what the Save of the record returned: nil when it succeeded,
    the repository's error when it failed, and no error that speaks of the
    cancellation.  The caller's receive then yields that value. *)
Theorem cancellation_sends_the_result_of_the_save (w : World) (i : nat)
    (c : Call) (err : nat) :
  reachable w ->
  pool w !! i = Some (GSelect c err) ->
  ctx c ∈ cancelled w ->
  exists w' w'',
    step (ACtxDone i) w = Some w' /\
    chans w' !! done c = Some (mkChan 1 [next_save w]) /\
    recv (Some (done c)) w' = Some (next_save w, w'') /\
    chans w'' !! done c = Some (mkChan 1 []).
Proof.
  intros Hr Hi Hc.
  destruct (cancel_step w i c err Hr Hi Hc)
    as (tempJob & w' & Hs & _ & _ & _ & Hd & _ & E2 & _).
  assert (chans w' !! done c = Some (mkChan 1 [next_save w])) as Hch.
  { rewrite E2. apply list_lookup_insert_eq. by apply lookup_lt_is_Some. }
  exists w'. eexists. split; [done |]. split; [done |].
  unfold recv. rewrite Hch. split; [reflexivity |]. simpl.
  apply list_lookup_insert_eq. by apply lookup_lt_Some in Hch.
Qed.

Lemma cancellation_sends_the_result_of_the_save_witness :
  exists w' w'',
    step (ACtxDone 0) Samples.cancelled_while_working = Some w' /\
    chans w' !! 0%nat = Some (mkChan 1 [None]) /\
    recv (Some 0%nat) w' = Some (None, w'').
Proof.
  destruct (cancellation_sends_the_result_of_the_save
              Samples.cancelled_while_working 0 Samples.the_call 1
              SampleFacts.cancelled_while_working_reachable eq_refl
              (list_elem_of_here 0%nat []))
    as (w' & w'' & H1 & H2 & H3 & _).
  exists w', w''. split; [exact H1 |]. split; [exact H2 | exact H3].
Defined.

(** X7: when the work function reports nil and the Save of the record
    succeeds, the done channel receives nil, for a new job and for a
    resumed one alike. *)
Theorem a_nil_report_sends_nil (w : World) (i j : nat) (c : Call)
    (err : nat) :
  reachable w ->
  pool w !! i = Some (GSelect c err) ->
  pool w !! j = Some (GSend err None) ->
  next_save w = None ->
  exists w' w'',
    step (ARecv i j) w = Some w' /\
    chans w' !! done c = Some (mkChan 1 [None]) /\
    recv (Some (done c)) w' = Some (None, w'').
Proof.
  intros Hr Hi Hj Hn.
  destruct (report_step w i j c err None Hr Hi Hj)
    as (tempJob & w' & Hs & _ & _ & _ & Hd & _ & E2 & _).
  assert (chans w' !! done c = Some (mkChan 1 [None])) as Hch.
  { rewrite E2. simpl. rewrite Hn. apply list_lookup_insert_eq.
    by apply lookup_lt_is_Some. }
  exists w'. eexists. split; [done |]. split; [done |].
  unfold recv. by rewrite Hch.
Qed.

Lemma a_nil_report_sends_nil_witness :
  exists w' w'',
    step (ARecv 0 1) MoreSamples.resuming = Some w' /\
    chans w' !! 0%nat = Some (mkChan 1 [None]) /\
    recv (Some 0%nat) w' = Some (None, w'').
Proof.
  exact (a_nil_report_sends_nil MoreSamples.resuming 0 1 MoreSamples.the_resume
           1 MoreSampleFacts.resuming_reachable eq_refl eq_refl eq_refl).
Defined.

(** X8: a call made with the nil job id whose context is done first still
    hands a job-completed message to the Sender: it carries the Status
    the record had when it was reloaded, Pending for a job nobody has
    finalized, and as its message the text of the cancellation. *)
Theorem a_cancelled_new_job_is_notified_as_completed (w : World) (i : nat)
    (c : Call) (err : nat) :
  reachable w ->
  pool w !! i = Some (GSelect c err) ->
  ctx c ∈ cancelled w ->
  existingJobID c = NilJobID ->
  exists tempJob w' m,
    step (ACtxDone i) w = Some w' /\
    store w !! (accountID c, ID (job c)) = Some tempJob /\
    sent w' = sent w ++ [m] /\
    Notification.mEventType m = Notification.JobCompleted /\
    Notification.mDocumentID m = JobID_String (ID (job c)) /\
    Notification.mStatus m = Status_string (jStatus tempJob) /\
    Notification.mMessage m = context_close_msg (job c).
Proof.
  intros Hr Hi Hc He.
  destruct (cancel_step w i c err Hr Hi Hc)
    as (tempJob & w' & Hs & Ht & _ & Hid & _ & _ & _ & E3).
  exists tempJob, w'. eexists. split; [done |]. split; [done |].
  split; [rewrite E3; unfold sent_after; rewrite He; reflexivity |].
  simpl. rewrite Hid. split_and!; try done. by rewrite last_snoc.
Qed.

Lemma a_cancelled_new_job_is_notified_as_completed_witness :
  exists tempJob w' m,
    step (ACtxDone 0) Samples.cancelled_while_working = Some w' /\
    store Samples.cancelled_while_working !! (1%N, 100%N) = Some tempJob /\
    sent w' = sent Samples.cancelled_while_working ++ [m] /\
    Notification.mStatus m = Status_string (jStatus tempJob).
Proof.
  destruct (a_cancelled_new_job_is_notified_as_completed
              Samples.cancelled_while_working 0 Samples.the_call 1
              SampleFacts.cancelled_while_working_reachable eq_refl
              (list_elem_of_here 0%nat []) eq_refl)
    as (tempJob & w' & m & H1 & H2 & H3 & _ & _ & H6 & _).
  exists tempJob, w', m.
  split; [exact H1 |]. split; [exact H2 |]. split; [exact H3 | exact H6].
Defined.

(** X9: when the work function reports an error and the Save succeeds,
    the record ends up Failed whatever its Status was, a terminal Success
    included, and whether the call made the job or resumed it; its last
    log entry carries the text of the error as it is; and for a resumed
    job no message is handed to the Sender. *)
Theorem an_error_report_fails_the_job (w : World) (i j : nat) (c : Call)
    (err : nat) (e : Error) :
  reachable w ->
  pool w !! i = Some (GSelect c err) ->
  pool w !! j = Some (GSend err (Some e)) ->
  next_save w = None ->
  exists tempJob w' j',
    step (ARecv i j) w = Some w' /\
    store w !! (accountID c, ID (job c)) = Some tempJob /\
    store w' !! (accountID c, ID (job c)) = Some j' /\
    jStatus j' = Failed /\
    Logs j' = Logs tempJob ++ [mkLog (tag c) (Text e) (UTC (clock w))] /\
    (existingJobID c <> NilJobID -> sent w' = sent w).
Proof.
  intros Hr Hi Hj Hn.
  destruct (report_step w i j c err (Some e) Hr Hi Hj)
    as (tempJob & w' & Hs & Ht & Hd & Hid & _ & E1 & _ & E3).
  exists tempJob, w', (finalized c (Reported (Some e)) (clock w) tempJob).
  split; [done |]. split; [done |]. split_and!; try done.
  - rewrite E1. unfold stored_after_save. rewrite Hn. simpl.
    rewrite Hd, Hid. apply lookup_insert_eq.
  - intros Hne. rewrite E3. unfold sent_after.
    destruct (JobIDEqual (existingJobID c) NilJobID) eqn:E; [| done].
    by apply N.eqb_eq in E.
Qed.

Lemma an_error_report_fails_the_job_witness :
  exists tempJob w' j',
    step (ARecv 0 1) MoreSamples.retrying = Some w' /\
    store MoreSamples.retrying !! (1%N, 5%N) = Some tempJob /\
    store w' !! (1%N, 5%N) = Some j' /\
    jStatus j' = Failed.
Proof.
  destruct (an_error_report_fails_the_job MoreSamples.retrying 0 1
              MoreSamples.the_retry 1 Samples.url_error
              MoreSampleFacts.retrying_reachable eq_refl eq_refl eq_refl)
    as (tempJob & w' & j' & H1 & H2 & H3 & H4 & _).
  exists tempJob, w', j'.
  split; [exact H1 |]. split; [exact H2 |]. split; [exact H3 | exact H4].
Defined.

(** X10: after the work function of a call has reported an error and the
    record was saved, [WaitForJob] on the job returns at its next poll the
    error [job failed: ] followed by the text of the reported error,
    which is in it whole, percent signs and all. *)
Theorem WaitForJob_after_an_error_report (w : World) (i j : nat) (c : Call)
    (err : nat) (e : Error) :
  reachable w ->
  pool w !! i = Some (GSelect c err) ->
  pool w !! j = Some (GSend err (Some e)) ->
  next_save w = None ->
  exists w',
    step (ARecv i j) w = Some w' /\
    (forall later,
       WaitForJob (accountID c) (ID (job c)) (w' :: later)
         = Some (Some (job_failed (Text e)))) /\
    Str.contains (Text e) (Text (job_failed (Text e))) = true.
Proof.
  intros Hr Hi Hj Hn.
  destruct (report_step w i j c err (Some e) Hr Hi Hj)
    as (tempJob & w' & Hs & Ht & Hd & Hid & _ & E1 & _).
  assert (store w' !! (accountID c, ID (job c))
          = Some (finalized c (Reported (Some e)) (clock w) tempJob)) as Hj'.
  { rewrite E1. unfold stored_after_save. rewrite Hn. simpl.
    rewrite Hd, Hid. apply lookup_insert_eq. }
  exists w'. split; [done |]. split; [| apply StrFacts.contains_end].
  intros later. simpl. rewrite (WaitForJob_poll_found _ _ _ _ Hj').
  simpl. by rewrite last_snoc.
Qed.

Lemma WaitForJob_after_an_error_report_witness :
  exists w',
    step (ARecv 0 1) Samples.reporting_error = Some w' /\
    WaitForJob 1%N 100%N [w']
      = Some (Some (job_failed "invalid URL escape %zz")).
Proof.
  destruct (WaitForJob_after_an_error_report Samples.reporting_error 0 1
              Samples.the_call 1 Samples.url_error
              SampleFacts.reporting_error_reachable eq_refl eq_refl eq_refl)
    as (w' & H1 & H2 & _).
  exists w'. split; [exact H1 | exact (H2 [])].
Defined.

(** X11: after the work function of a call has reported nil and the
    record was saved, [WaitForJob] returns nil at its next poll when the
    call was made with the nil job id; when the job was resumed and its
    record Pending, the poll finds it Pending still and [WaitForJob] goes
    on polling. *)
Theorem WaitForJob_after_a_nil_report (w : World) (i j : nat) (c : Call)
    (err : nat) :
  reachable w ->
  pool w !! i = Some (GSelect c err) ->
  pool w !! j = Some (GSend err None) ->
  next_save w = None ->
  exists tempJob w',
    step (ARecv i j) w = Some w' /\
    store w !! (accountID c, ID (job c)) = Some tempJob /\
    (existingJobID c = NilJobID ->
     forall later,
       WaitForJob (accountID c) (ID (job c)) (w' :: later) = Some None) /\
    (existingJobID c <> NilJobID -> jStatus tempJob = Pending ->
     WaitForJob (accountID c) (ID (job c)) [w'] = None /\
     WaitForJob_poll (accountID c) (ID (job c)) w' = Sleep).
Proof.
  intros Hr Hi Hj Hn.
  destruct (report_step w i j c err None Hr Hi Hj)
    as (tempJob & w' & Hs & Ht & Hd & Hid & _ & E1 & _).
  exists tempJob, w'. split; [done |]. split; [done |].
  assert (store w' !! (accountID c, ID (job c))
          = Some (finalized c (Reported None) (clock w) tempJob)) as Hj'.
  { rewrite E1. unfold stored_after_save. rewrite Hn.
    destruct (finalized_key c (Reported None) (clock w) tempJob) as [-> ->].
    rewrite Hd, Hid. apply lookup_insert_eq. }
  split.
  - intros He later. simpl. rewrite (WaitForJob_poll_found _ _ _ _ Hj').
    simpl. by rewrite He.
  - intros Hne Hp.
    assert (JobIDEqual (existingJobID c) NilJobID = false) as E
      by (by apply N.eqb_neq).
    simpl. rewrite (WaitForJob_poll_found _ _ _ _ Hj'). simpl.
    by rewrite E, Hp.
Qed.

Lemma WaitForJob_after_a_nil_report_witness :
  exists tempJob w',
    step (ARecv 0 1) MoreSamples.resuming = Some w' /\
    store MoreSamples.resuming !! (1%N, 5%N) = Some tempJob /\
    WaitForJob 1%N 5%N [w'] = None.
Proof.
  destruct (WaitForJob_after_a_nil_report MoreSamples.resuming 0 1
              MoreSamples.the_resume 1 MoreSampleFacts.resuming_reachable
              eq_refl eq_refl eq_refl)
    as (tempJob & w' & H1 & H2 & _ & H4).
  exists tempJob, w'. split; [exact H1 |]. split; [exact H2 |].
  apply H4; [discriminate |].
  vm_compute in H2. injection H2 as <-. reflexivity.
Defined.

Lemma returned_channel_is_new w cx acc ex dsc work txID d :
  value (ExecuteWithinJob cx acc ex dsc work) w = (txID, Some d, None) ->
  d = length (chans w) /\
  length (chans (run (ExecuteWithinJob cx acc ex dsc work) w))
    = S (length (chans w)).
Proof.
  unfold value, run. intros Hv.
  destruct (store w !! (acc, ex)) as [j|] eqn:Hj.
  - rewrite (ExecuteWithinJob_found _ _ _ _ _ _ _ Hj) in *. simpl in *.
    injection Hv as _ <-. rewrite length_app. simpl. lia.
  - destruct (save_faults w) as [|[e|] later] eqn:F.
    + rewrite ExecuteWithinJob_saved in *; try done; try (left; by rewrite F).
      simpl in *. injection Hv as _ <-. rewrite length_app. simpl. lia.
    + by rewrite (ExecuteWithinJob_save_failed _ _ _ _ _ _ _ _ Hj F) in Hv.
    + rewrite ExecuteWithinJob_saved in *; try done; try (right; by rewrite F).
      simpl in *. injection Hv as _ <-. rewrite length_app. simpl. lia.
Qed.

(** X12: the done channel a call of [ExecuteWithinJob] returns is a new
    one: no call made later, whatever happened in between and in
    whatever order, returns the same channel. *)
Theorem calls_never_share_a_done_channel (s s2 : Interleaving.Threads)
    (ms : list Interleaving.Move)
    (cx1 cx2 : nat) (acc1 acc2 : DID) (ex1 ex2 : JobID) (dsc1 dsc2 : string)
    (work1 work2 : WorkFn) (tx1 tx2 : JobID) (d1 d2 : nat) :
  value (ExecuteWithinJob cx1 acc1 ex1 dsc1 work1) (Interleaving.world s)
    = (tx1, Some d1, None) ->
  Interleaving.moves
    (Interleaving.Whole (ACall cx1 acc1 ex1 dsc1 work1) :: ms) s = Some s2 ->
  value (ExecuteWithinJob cx2 acc2 ex2 dsc2 work2) (Interleaving.world s2)
    = (tx2, Some d2, None) ->
  (d1 < d2)%nat.
Proof.
  intros H1 Hrun H2.
  destruct (returned_channel_is_new _ _ _ _ _ _ _ _ H1) as [-> Hl].
  destruct (returned_channel_is_new _ _ _ _ _ _ _ _ H2) as [-> _].
  destruct s as [w fs]. cbn [Interleaving.world] in *.
  assert (Interleaving.moves ms
            (Interleaving.mkThreads
               (run (ExecuteWithinJob cx1 acc1 ex1 dsc1 work1) w) fs)
          = Some s2) as Hrun1 by exact Hrun.
  pose proof (Schedules.moves_chans_length _ _ _ Hrun1) as Hle.
  cbn [Interleaving.world] in Hle. lia.
Qed.

Lemma calls_never_share_a_done_channel_witness : (0 < 2)%nat.
Proof.
  set (s := Interleaving.mkThreads (Samples.quiet ∅) []).
  set (ms := [Interleaving.Whole (AStart 0); Interleaving.Whole (AWork 1);
              Interleaving.LoadRecv 0 1]).
  assert (value (ExecuteWithinJob 0 1%N NilJobID "anchor document"
                   Samples.succeeding) (Interleaving.world s)
          = (100%N, Some 0%nat, None)) as H1
    by (vm_compute; reflexivity).
  assert (is_Some (Interleaving.moves
                     (Interleaving.Whole
                        (ACall 0 1%N NilJobID "anchor document"
                               Samples.succeeding) :: ms) s)) as [s2 Hrun]
    by (vm_compute; eexists; reflexivity).
  assert (value (ExecuteWithinJob 1 1%N 100%N "resume" Samples.sleeping)
                (Interleaving.world s2)
          = (100%N, Some 2%nat, None)) as H2.
  { vm_compute in Hrun. injection Hrun as <-. vm_compute. reflexivity. }
  exact (calls_never_share_a_done_channel s s2 ms 0 1 1%N 1%N
           NilJobID 100%N "anchor document" "resume" Samples.succeeding
           Samples.sleeping 100%N 100%N 0 2 H1 Hrun H2).
Defined.

(** X13: when the work function of a call made with the nil job id
    reports nil but the Save of the record fails, the repository keeps the
    record as it was, the done channel receives the reported error and
    the error of the Save put together by [AppendError], and a message is
    handed to the Sender all the same, saying the job succeeded. *)
Theorem a_failed_save_is_still_notified (w : World) (i j : nat) (c : Call)
    (err : nat) (es : Error) :
  reachable w ->
  pool w !! i = Some (GSelect c err) ->
  pool w !! j = Some (GSend err None) ->
  existingJobID c = NilJobID ->
  next_save w = Some es ->
  exists w' m,
    step (ARecv i j) w = Some w' /\
    store w' = store w /\
    chans w' !! done c = Some (mkChan 1 [AppendError None (Some es)]) /\
    sent w' = sent w ++ [m] /\
    Notification.mStatus m = Status_string Success.
Proof.
  intros Hr Hi Hj He Hn.
  destruct (report_step w i j c err None Hr Hi Hj)
    as (tempJob & w' & Hs & Ht & Hd & Hid & Hdone & E1 & E2 & E3).
  exists w'. eexists. split; [done |]. split_and!.
  - rewrite E1. unfold stored_after_save. by rewrite Hn.
  - rewrite E2. simpl. rewrite Hn. apply list_lookup_insert_eq.
    by apply lookup_lt_is_Some.
  - rewrite E3. unfold sent_after. rewrite He. reflexivity.
  - simpl. by rewrite He.
Qed.

Lemma a_failed_save_is_still_notified_witness :
  exists w' m,
    step (ARecv 0 1) MoreSamples.reporting_nil_to_a_full_disk = Some w' /\
    store w' = store MoreSamples.reporting_nil_to_a_full_disk /\
    sent w' = sent MoreSamples.reporting_nil_to_a_full_disk ++ [m] /\
    Notification.mStatus m = "success".
Proof.
  destruct (a_failed_save_is_still_notified
              MoreSamples.reporting_nil_to_a_full_disk 0 1 Samples.the_call 1
              Samples.disk_full MoreSampleFacts.full_disk_reachable
              eq_refl eq_refl eq_refl eq_refl)
    as (w' & m & H1 & H2 & _ & H4 & H5).
  exists w', m. split; [exact H1 |]. split; [exact H2 |].
  split; [exact H4 | exact H5].
Defined.

(** X14: of two calls of [UpdateJobWithValue] for one job that follow
    each other, with no Save failing, the later one wins on a key they
    share, and both values are there when the keys differ. *)
Theorem the_last_value_written_wins (w : World) (acc : DID) (id : JobID)
    (tx : Job) (k1 k2 : string) (v1 v2 : list Byte.byte) :
  reachable w ->
  store w !! (acc, id) = Some tx ->
  Forall (eq None) (save_faults w) ->
  exists w' tx',
    steps [AUpdateJobWithValue acc id k1 v1; AUpdateJobWithValue acc id k2 v2]
          w = Some w' /\
    store w' !! (acc, id) = Some tx' /\
    Values tx' !! k2 = Some (mkJobValue k2 v2) /\
    (k1 <> k2 -> Values tx' !! k1 = Some (mkJobValue k1 v1)) /\
    (forall k, k <> k1 -> k <> k2 -> Values tx' !! k = Values tx !! k).
Proof.
  intros Hr H F. pose proof (keyed w (reachable_Inv w Hr)) as K.
  destruct (K _ _ _ H) as [Hd Hi].
  set (tx1 := setValues (<[k1 := mkJobValue k1 v1]> (Values tx)) tx).
  set (w1 := run (UpdateJobWithValue acc id k1 v1) w).
  assert (next_save w = None /\ Forall (eq None) (tail (save_faults w)))
    as [Hn F1].
  { unfold next_save. destruct (save_faults w) as [|e later]; [done |].
    apply Forall_cons in F as [<- F]. done. }
  assert (store w1 = <[(acc, id) := tx1]> (store w)) as Hs1.
  { unfold w1. rewrite (Trail.UpdateJobWithValue_found w acc id k1 v1 tx H).
    unfold stored_after_save. rewrite Hn. simpl. by rewrite Hd, Hi. }
  assert (save_faults w1 = tail (save_faults w)) as Hf1.
  { unfold w1. crunch. rewrite H. simpl.
    by destruct (save_faults w) as [|[e|] later]. }
  assert (store w1 !! (acc, id) = Some tx1) as H1
    by (rewrite Hs1; apply lookup_insert_eq).
  assert (next_save w1 = None) as Hn1.
  { unfold next_save. rewrite Hf1. destruct (tail (save_faults w)); [done |].
    by apply Forall_cons in F1 as [<- _]. }
  exists (run (UpdateJobWithValue acc id k2 v2) w1),
         (setValues (<[k2 := mkJobValue k2 v2]> (Values tx1)) tx1).
  split; [done |]. split.
  - rewrite (Trail.UpdateJobWithValue_found w1 acc id k2 v2 tx1 H1).
    unfold stored_after_save. rewrite Hn1. simpl. rewrite Hd, Hi.
    apply lookup_insert_eq.
  - simpl. split_and!.
    + apply lookup_insert_eq.
    + intros Hne. rewrite lookup_insert_ne by done. apply lookup_insert_eq.
    + intros k Hk1 Hk2. by rewrite !lookup_insert_ne.
Qed.

Lemma the_last_value_written_wins_witness :
  exists w' tx',
    steps [AUpdateJobWithValue 1%N 5%N "anchor" [];
           AUpdateJobWithValue 1%N 5%N "anchor" [Byte.x01]]
          (MoreSamples.stored Samples.anchoring) = Some w' /\
    store w' !! (1%N, 5%N) = Some tx' /\
    Values tx' !! "anchor" = Some (mkJobValue "anchor" [Byte.x01]).
Proof.
  assert (store (MoreSamples.stored Samples.anchoring) !! (1%N, 5%N)
          = Some Samples.anchoring) as H by reflexivity.
  destruct (the_last_value_written_wins (MoreSamples.stored Samples.anchoring)
              1%N 5%N Samples.anchoring "anchor" "anchor" [] [Byte.x01]
              (MoreSampleFacts.stored_reachable Samples.anchoring) H
              (Forall_nil_2 _))
    as (w' & tx' & H1 & H2 & H3 & _).
  exists w', tx'. split; [exact H1 |]. split; [exact H2 | exact H3].
Defined.

End ManagerExtra.

(** ** Package queue: runs of calls on a server *)

Module QueueExtra.
Import Time Errors Queue QueueLife QueueRuns.

Section WithBroker.

Context {Defaults CeleryClient AsyncResult : Type}.
Variable DefaultSettings : TaskSettings Defaults.
Variable Delay :
  CeleryClient -> Task Defaults ->
  CeleryClient * (AsyncResult + Error).
Variable Register : CeleryClient -> string -> CeleryClient.
Variable StartWorker StopWorker : CeleryClient -> CeleryClient.

Local Abbreviation call_ :=
  (call DefaultSettings Delay Register StartWorker StopWorker).
Local Abbreviation calls_ :=
  (calls DefaultSettings Delay Register StartWorker StopWorker).

Lemma calls_app os1 os2 (qs : Server) :
  calls_ (os1 ++ os2) qs = calls_ os1 qs ≫= calls_ os2.
Proof.
  revert qs. induction os1 as [|o os1 IH]; intros qs; simpl; [done |].
  destruct (call_ o qs) as [qs1|]; [apply IH | done].
Qed.

Lemma calls_cons o os (qs : Server) :
  calls_ (o :: os) qs = call_ o qs ≫= calls_ os.
Proof. simpl. by destruct (call_ o qs). Qed.

Lemma call_on_a_free_lock (o : Op) (qs : Server) :
  lock qs = mkLock false 0 ->
  (forall name, o <> ORegisterTaskType name None) ->
  exists qs',
    call_ o qs = Some qs' /\
    lock qs' = mkLock false 0 /\
    config qs' = config qs /\
    taskTypes qs' = taskTypes qs ++ registered [o] /\
    (is_Some (queue qs) -> is_Some (queue qs')) /\
    (forall name task, o = ORegisterTaskType name task ->
       queue qs' = queue qs) /\
    (forall client, o = OStart client ->
       queue qs'
         = Some (StartWorker (foldl Register client (taskTypes qs)))).
Proof.
  destruct qs as [cfg l q tts]. simpl. intros -> Hty.
  destruct o as [client | | name [taskType|] | now taskName params]; simpl.
  - eexists. split; [done |]. simpl. rewrite app_nil_r.
    split_and!; try done. by intros ? [= <-].
  - eexists. split; [done |]. simpl. rewrite app_nil_r.
    split_and!; try done. intros [x ->]. by eexists.
  - eexists. split; [done |]. simpl. split_and!; done.
  - by destruct (Hty name).
  - unfold EnqueueJob, enqueueJob. simpl. destruct q as [q|]; simpl.
    + destruct (Delay q _) as [q' r]. eexists. split; [done |]. simpl.
      rewrite app_nil_r. split_and!; try done.
    + eexists. split; [done |]. simpl. rewrite app_nil_r.
      split_and!; try done.
Qed.

Lemma calls_on_a_free_lock (os : list Op) (qs : Server) :
  lock qs = mkLock false 0 ->
  task_types_only os ->
  exists qs',
    calls_ os qs = Some qs' /\
    lock qs' = mkLock false 0 /\
    config qs' = config qs /\
    taskTypes qs' = taskTypes qs ++ registered os /\
    (is_Some (queue qs) -> is_Some (queue qs')).
Proof.
  revert qs. induction os as [|o os IH]; intros qs Hl Hty.
  - exists qs. simpl. rewrite app_nil_r. done.
  - destruct (call_on_a_free_lock o qs Hl)
      as (qs1 & H1 & Hl1 & Hc1 & Ht1 & Hq1 & _).
    { intros name ->. apply (Hty name). by left. }
    destruct (IH qs1 Hl1) as (qs' & H & Hl' & Hc' & Ht' & Hq').
    { intros name Hin. apply (Hty name). by right. }
    exists qs'. simpl. rewrite H1. split; [done |]. split; [done |].
    split; [congruence |]. split; [| tauto].
    rewrite Ht', Ht1, <- app_assoc. f_equal. by destruct o as [| | ? []|].
Qed.

Lemma register_all (regs : list (string * string)) (qs : Server) :
  lock qs = mkLock false 0 ->
  calls_ (registration <$> regs) qs
    = Some (mkServer (config qs) (lock qs) (queue qs)
                     (taskTypes qs ++ regs.*2)).
Proof.
  revert qs. induction regs as [|n regs IH]; intros [cfg l q tts]; simpl;
    intros ->.
  - by rewrite app_nil_r.
  - simpl. rewrite IH by done. simpl. by rewrite <- app_assoc.
Qed.

(** X15: the task types registered before [Start] are registered with
    the broker when [Start] constructs it, in the order of their
    registration and each under the name its own [TaskTypeName()] gives,
    whatever name was passed to [RegisterTaskType]; one registered after
    [Start] is appended to the server's list, and the broker is not
    told. *)
Theorem a_late_task_type_does_not_reach_the_broker (qs : Server)
    (regs : list (string * string)) (client : CeleryClient)
    (late : string * string) :
  lock qs = mkLock false 0 ->
  exists qs',
    calls_ ((registration <$> regs)
              ++ [OStart client; registration late]) qs = Some qs' /\
    queue qs'
      = Some (StartWorker
                (foldl Register client (taskTypes qs ++ regs.*2))) /\
    taskTypes qs' = taskTypes qs ++ regs.*2 ++ [late.2].
Proof.
  intros Hl. rewrite calls_app, (register_all regs qs Hl).
  destruct qs as [cfg l q tts]. simpl in *. subst l. simpl.
  eexists. split; [done |]. simpl. by rewrite <- app_assoc.
Qed.

(** X16: once the first half of [Start] has returned, the server stays
    initialised whatever is called on it afterwards, the second half of
    [Start] included, as long as every value registered is a TaskType:
    every call returns and leaves the lock free and the configuration
    alone, the list of task types has grown by the type names of the
    tasks registered, in order, and [EnqueueJob] hands its task to the
    broker and returns what [Delay] returns. *)
Theorem a_started_server_stays_initialised (qs : Server)
    (client : CeleryClient) (os : list Op) :
  lock qs = mkLock false 0 ->
  task_types_only os ->
  exists qs' q,
    calls_ (OStart client :: os) qs = Some qs' /\
    queue qs' = Some q /\
    lock qs' = lock qs /\
    config qs' = config qs /\
    taskTypes qs' = taskTypes qs ++ registered os /\
    forall now taskName params,
      EnqueueJob DefaultSettings Delay now taskName params qs'
        = let task :=
            mkTask taskName params
              (mkSettings (Add now (GetTaskValidDuration (config qs)))
                          (others DefaultSettings)) in
          Returned (snd (Delay q task))
            (mkServer (config qs) (lock qs) (Some (fst (Delay q task)))
                      (taskTypes qs ++ registered os)).
Proof.
  intros Hl Hty.
  destruct (call_on_a_free_lock (OStart client) qs Hl)
    as (qs1 & H1 & Hl1 & Hc1 & Ht1 & _ & _ & Hq1); [done |].
  destruct (calls_on_a_free_lock os qs1 Hl1 Hty)
    as (qs' & H & Hl' & Hc & Ht & Hq).
  destruct Hq as [q Hq]; [rewrite (Hq1 client eq_refl); by eexists |].
  exists qs', q.
  split; [by rewrite calls_cons, H1 |].
  split; [done |].
  split; [congruence |]. split; [congruence |].
  assert (taskTypes qs' = taskTypes qs ++ registered os) as Ht'.
  { rewrite Ht, Ht1. simpl. by rewrite app_nil_r. }
  split; [done |].
  intros now taskName params. destruct qs' as [cfg' l' q' tts'].
  simpl in *. subst. unfold EnqueueJob, enqueueJob. simpl.
  rewrite Hl, Hc1, Ht'. by destruct (Delay q _).
Qed.

(** X17: [EnqueueJob] is parked exactly when a writer holds the lock,
    readers do not stop it; [RegisterTaskType] and both halves of [Start]
    are parked exactly when anyone holds it; [RegisterTaskType] panics
    exactly when it gets the lock and the value given is no TaskType, and
    then leaves the lock free and the server as it was; and a call that
    returns leaves the lock as it found it. *)
Theorem calls_are_parked_exactly_when_the_lock_is_held (qs : Server) :
  (forall now taskName params,
     EnqueueJob DefaultSettings Delay now taskName params qs = Blocked
     <-> writer (lock qs) = true) /\
  (forall name task,
     RegisterTaskType name task qs = Blocked
     <-> lock qs <> mkLock false 0) /\
  (forall name task,
     RegisterTaskType name task qs = Panicked qs
     <-> lock qs = mkLock false 0 /\ task = None) /\
  (forall name task qs',
     RegisterTaskType name task qs = Panicked qs' -> qs' = qs) /\
  (forall client,
     Start Register StartWorker client qs = Blocked
     <-> lock qs <> mkLock false 0) /\
  (Start_shutdown StopWorker qs = Blocked <-> lock qs <> mkLock false 0) /\
  (forall o qs', call_ o qs = Some qs' -> lock qs' = lock qs).
Proof.
  destruct qs as [cfg [wr rd] q tts]. split_and!.
  - intros now taskName params. unfold EnqueueJob, enqueueJob, RLock. simpl.
    destruct wr; [done |]. destruct q as [q|]; simpl.
    + destruct (Delay q _). split; done.
    + split; done.
  - intros name task. unfold RegisterTaskType, Lock. simpl.
    destruct wr, rd, task; split; try done; by intros [].
  - intros name task. unfold RegisterTaskType, Lock. simpl.
    destruct wr, rd, task; split; try done; by intros [[=] ?].
  - intros name task qs'. unfold RegisterTaskType, Lock. simpl.
    destruct wr, rd, task; try done. by intros [= <-].
  - intros client. unfold Start, Lock. simpl.
    destruct wr, rd; split; try done; by intros [].
  - unfold Start_shutdown, Lock. simpl.
    destruct wr, rd; split; try done; by intros [].
  - intros o qs'.
    destruct o as [client | | name task | now taskName params];
      simpl; unfold Start, Start_shutdown, RegisterTaskType, EnqueueJob,
        enqueueJob, Lock, RLock; simpl.
    + destruct wr, rd; simpl; try done. by intros [= <-].
    + destruct wr, rd; simpl; try done. by intros [= <-].
    + destruct wr, rd, task; simpl; try done. by intros [= <-].
    + destruct wr; simpl; [done |]. destruct q as [q|]; simpl.
      * destruct (Delay q _). simpl. by intros [= <-].
      * by intros [= <-].
Qed.

End WithBroker.

Lemma a_late_task_type_does_not_reach_the_broker_witness :
  exists qs',
    calls (mkSettings (Time.mkTime 0 0) tt) MoreSamples.delay
          MoreSamples.register MoreSamples.start_worker
          MoreSamples.stop_worker
          [ORegisterTaskType "a" (Some "anchor");
           ORegisterTaskType "anchor" (Some "mint");
           OStart (MoreSamples.mkBroker [] false []);
           ORegisterTaskType "t" (Some "transfer")]
          MoreSamples.new_server = Some qs' /\
    queue qs' = Some (MoreSamples.mkBroker ["anchor"; "mint"] true []) /\
    taskTypes qs' = ["anchor"; "mint"; "transfer"].
Proof.
  destruct (a_late_task_type_does_not_reach_the_broker
              (mkSettings (Time.mkTime 0 0) tt) MoreSamples.delay
              MoreSamples.register MoreSamples.start_worker
              MoreSamples.stop_worker MoreSamples.new_server
              [("a", "anchor"); ("anchor", "mint")]
              (MoreSamples.mkBroker [] false [])
              ("t", "transfer") eq_refl) as (qs' & H1 & H2 & H3).
  exists qs'. split; [exact H1 |]. split; [exact H2 | exact H3].
Defined.

Lemma a_started_server_stays_initialised_witness :
  exists qs' q,
    calls (mkSettings (Time.mkTime 0 0) tt) MoreSamples.delay
          MoreSamples.register MoreSamples.start_worker
          MoreSamples.stop_worker
          [OStart (MoreSamples.mkBroker [] false []);
           OEnqueueJob (Time.mkTime 50 0) "ping" ∅; OShutdown]
          MoreSamples.new_server = Some qs' /\
    queue qs' = Some q /\
    EnqueueJob (mkSettings (Time.mkTime 0 0) tt) MoreSamples.delay
               (Time.mkTime 60 0) "pong" ∅ qs'
      = Returned (snd (MoreSamples.delay q
                         (mkTask "pong" ∅
                            (mkSettings (Time.mkTime 1060 0) tt))))
          (mkServer (config MoreSamples.new_server)
             (lock MoreSamples.new_server)
             (Some (fst (MoreSamples.delay q
                           (mkTask "pong" ∅
                              (mkSettings (Time.mkTime 1060 0) tt)))))
             []).
Proof.
  destruct (a_started_server_stays_initialised
              (mkSettings (Time.mkTime 0 0) tt) MoreSamples.delay
              MoreSamples.register MoreSamples.start_worker
              MoreSamples.stop_worker MoreSamples.new_server
              (MoreSamples.mkBroker [] false [])
              [OEnqueueJob (Time.mkTime 50 0) "ping" ∅; OShutdown] eq_refl
              ltac:(intros name Hin; repeat (apply elem_of_cons in Hin
                      as [Hin | Hin]; [discriminate |]);
                    by apply elem_of_nil in Hin))
    as (qs' & q & H1 & H2 & _ & _ & _ & H6).
  exists qs', q. split; [exact H1 |]. split; [exact H2 |].
  exact (H6 (Time.mkTime 60 0) "pong" ∅).
Defined.

End QueueExtra.

(** ** Package nft: the bootstrapper *)

Module NftExtra.
Import Errors Nft.

Section WithServices.

Context {Config CentAPI EthClient DocService IdService QueueServer
         JobManager Value : Type}.
Variable as_centchain_API : Value -> option CentAPI.
Variable as_documents_Service : Value -> option DocService.
Variable as_identity_Service : Value -> option IdService.
Variable as_queue_Server : Value -> option QueueServer.
Variable as_jobs_Manager : Value -> option JobManager.
Variable of_service :
  Service (Config := Config) (CentAPI := CentAPI) (EthClient := EthClient)
          (DocService := DocService) (IdService := IdService)
          (QueueServer := QueueServer) (JobManager := JobManager) -> Value.
Variables BootstrappedCentChainClient BootstrappedEthereumClient
          BootstrappedDocumentService BootstrappedDIDService
          BootstrappedQueueServer BootstrappedService
          BootstrappedNFTService : string.
Variable RetrieveConfig : gmap string Value -> Config + Error.
Variable GetClient : EthClient.

Local Abbreviation Bootstrap_ :=
  (Bootstrap as_centchain_API as_documents_Service as_identity_Service
             as_queue_Server as_jobs_Manager of_service
             BootstrappedCentChainClient BootstrappedEthereumClient
             BootstrappedDocumentService BootstrappedDIDService
             BootstrappedQueueServer BootstrappedService
             BootstrappedNFTService RetrieveConfig GetClient).

(** X18: [Bootstrap] returns nil exactly when the configuration can be
    retrieved, the context has an entry under the key of the ethereum
    client, and the entries under the five other keys pass their type
    assertions; the context then differs from the one given in the entry
    of the NFT service only, and the service is built on the client
    [ethereum.GetClient()] returns, not on the entry of the context. *)
Theorem Bootstrap_succeeds_exactly_on_a_complete_context
    (ctx ctx' : gmap string Value) :
  Bootstrap_ ctx = Done ctx' <->
  exists cfg centAPI docSrv idService queueSrv jobManager,
    RetrieveConfig ctx = inl cfg /\
    ctx !! BootstrappedCentChainClient ≫= as_centchain_API = Some centAPI /\
    is_Some (ctx !! BootstrappedEthereumClient) /\
    ctx !! BootstrappedDocumentService ≫= as_documents_Service
      = Some docSrv /\
    ctx !! BootstrappedDIDService ≫= as_identity_Service = Some idService /\
    ctx !! BootstrappedQueueServer ≫= as_queue_Server = Some queueSrv /\
    ctx !! BootstrappedService ≫= as_jobs_Manager = Some jobManager /\
    ctx' = <[BootstrappedNFTService :=
               of_service (mkService cfg idService GetClient queueSrv docSrv
                                     jobManager (centAPI, jobManager))]> ctx.
Proof.
  unfold Bootstrap. split.
  - intros H.
    destruct (RetrieveConfig ctx) as [cfg|] eqn:E0; [| done].
    destruct (ctx !! BootstrappedCentChainClient ≫= _)
      as [centAPI|] eqn:E1; [| done].
    destruct (ctx !! BootstrappedEthereumClient) as [ve|] eqn:E2; [| done].
    destruct (ctx !! BootstrappedDocumentService ≫= _)
      as [docSrv|] eqn:E3; [| done].
    destruct (ctx !! BootstrappedDIDService ≫= _)
      as [idService|] eqn:E4; [| done].
    destruct (ctx !! BootstrappedQueueServer) as [vq|] eqn:E5; [| done].
    destruct (as_queue_Server vq) as [queueSrv|] eqn:E6; [| done].
    destruct (ctx !! BootstrappedService ≫= _)
      as [jobManager|] eqn:E7; [| done].
    injection H as <-.
    exists cfg, centAPI, docSrv, idService, queueSrv, jobManager.
    split_and!; try done.
  - intros (cfg & centAPI & docSrv & idService & queueSrv & jobManager
            & -> & -> & [ve ->] & -> & -> & E5 & -> & ->).
    apply bind_Some in E5 as (vq & -> & ->). done.
Qed.

(** X19: [Bootstrap] panics, rather than return an error, exactly when
    the configuration, the centchain client, the ethereum client, the
    document service and the identity service are found and the context
    has, under the key of the queue server, a value that is no pointer to
    a queue server; whether the jobs manager is there plays no part. *)
Theorem Bootstrap_panics_on_a_queue_entry_of_another_type
    (ctx : gmap string Value) :
  Bootstrap_ ctx = Panics <->
  (exists cfg, RetrieveConfig ctx = inl cfg) /\
  is_Some (ctx !! BootstrappedCentChainClient ≫= as_centchain_API) /\
  is_Some (ctx !! BootstrappedEthereumClient) /\
  is_Some (ctx !! BootstrappedDocumentService ≫= as_documents_Service) /\
  is_Some (ctx !! BootstrappedDIDService ≫= as_identity_Service) /\
  exists v, ctx !! BootstrappedQueueServer = Some v /\
            as_queue_Server v = None.
Proof.
  unfold Bootstrap. split.
  - intros H.
    destruct (RetrieveConfig ctx) as [cfg|] eqn:E0; [| done].
    destruct (ctx !! BootstrappedCentChainClient ≫= _)
      as [centAPI|] eqn:E1; [| done].
    destruct (ctx !! BootstrappedEthereumClient) as [ve|] eqn:E2; [| done].
    destruct (ctx !! BootstrappedDocumentService ≫= _)
      as [docSrv|] eqn:E3; [| done].
    destruct (ctx !! BootstrappedDIDService ≫= _)
      as [idService|] eqn:E4; [| done].
    destruct (ctx !! BootstrappedQueueServer) as [vq|] eqn:E5; [| done].
    destruct (as_queue_Server vq) as [queueSrv|] eqn:E6.
    + by destruct (ctx !! BootstrappedService ≫= _).
    + split_and!; by eexists.
  - intros ([cfg ->] & [centAPI ->] & [ve ->] & [docSrv ->] & [idService ->]
            & vq & -> & ->).
    done.
Qed.

End WithServices.

Lemma Bootstrap_succeeds_exactly_on_a_complete_context_witness :
  MoreSamples.bootstrap MoreSamples.complete
    = Done (<["nft" := MoreSamples.ENft]> MoreSamples.complete).
Proof.
  apply (proj2 (Bootstrap_succeeds_exactly_on_a_complete_context
                  (MoreSamples.passes MoreSamples.ECent)
                  (MoreSamples.passes MoreSamples.EDoc)
                  (MoreSamples.passes MoreSamples.EId)
                  (MoreSamples.passes MoreSamples.EQueue)
                  (MoreSamples.passes MoreSamples.EJobs)
                  (fun _ => MoreSamples.ENft)
                  "centchain" "ethereum" "documents" "identity" "queue"
                  "jobs" "nft" MoreSamples.config_of tt MoreSamples.complete
                  _)).
  exists tt, tt, tt, tt, tt, tt.
  split; [reflexivity |]. split; [reflexivity |].
  split; [exists MoreSamples.EEth; reflexivity |].
  split; [reflexivity |]. split; [reflexivity |]. split; [reflexivity |].
  split; reflexivity.
Defined.

Lemma Bootstrap_panics_on_a_queue_entry_of_another_type_witness :
  MoreSamples.bootstrap MoreSamples.mixed_up = Panics.
Proof.
  apply (proj2 (Bootstrap_panics_on_a_queue_entry_of_another_type
                  (MoreSamples.passes MoreSamples.ECent)
                  (MoreSamples.passes MoreSamples.EDoc)
                  (MoreSamples.passes MoreSamples.EId)
                  (MoreSamples.passes MoreSamples.EQueue)
                  (MoreSamples.passes MoreSamples.EJobs)
                  (fun _ => MoreSamples.ENft)
                  "centchain" "ethereum" "documents" "identity" "queue"
                  "jobs" "nft" MoreSamples.config_of tt
                  MoreSamples.mixed_up)).
  split; [exists tt; reflexivity |].
  split; [exists tt; reflexivity |].
  split; [exists MoreSamples.EEth; reflexivity |].
  split; [exists tt; reflexivity |].
  split; [exists tt; reflexivity |].
  exists MoreSamples.EJobs. split; reflexivity.
Defined.

End NftExtra.
